(** * Events-Scout: the discovery and enrichment pipeline

    A shallow embedding of the orchestration logic of [src/App.tsx]
    ([generateEventId], [handleSearch], [handleDeepSearchEvent]) and of the
    gateway of [src/services/geminiService.ts] ([searchEventList],
    [enrichEventDetails], [findExtendedExhibitors]), together with the
    enumerations of the types module.  The second part of the file covers
    the rest of the two files: the CSV export ([escapeCsv],
    [handleExportCSV]), the region and country selection, the recipients of
    the email modal (src/components/EmailModal.tsx), the calendar grouping,
    [getApiKey] and [draftEmailContent].

    Conventions of the model.
    - A JavaScript string is a [string]: the sequence of its UTF-8 bytes.
    - Event names and company names are arbitrary text.  Their lower-casing
      and trimming are the engine's ([Engine.t]), which the model takes as
      parameters; the examples run on [asciiEngine].  The keywords of the
      venue filter, the first words of the venue names and the at-sign of an
      address are ASCII: they are matched with the functions of [Text],
      which act on the ASCII letters and the ASCII white space.
    - [undefined] in a field is [None], also in a field that the types
      module declares a string but that is copied unchecked from a reply.
    - Promises and cooperative tasks are a step relation on a scheduler
      state; a backend reply is an input of the model.
    - A handler closes over the state of the render it was created in and
      writes through updaters that receive the live state: the two are
      kept apart, and what a deep search writes while a discovery run is
      suspended is part of the model.
    - The engine computes the progress percentage in double precision.  The
      model records the operands of each evaluation and, for order and
      bounds, the exact value of the expression. *)

From Stdlib Require Import Ascii String ZArith QArith Lia.
From stdpp Require Import gmap strings list fin_maps relations sorting.

Set Default Proof Using "Type".

(** ** Text primitives on ASCII text *)

(** What the string methods of the engine compute on text whose letters and
    white space are ASCII.  The model uses them where one side of a match
    is a fixed ASCII text: the keywords of the venue filter, the first
    words of the venue names, the at-sign of an address. *)
Module Text.

Definition is_upper (c : ascii) : bool :=
  let n := nat_of_ascii c in (65 <=? n)%nat && (n <=? 90)%nat.

Definition lower_char (c : ascii) : ascii :=
  if is_upper c then ascii_of_nat (nat_of_ascii c + 32) else c.

(** [toLowerCase]: the letters A to Z are lowered, every other byte is
    left as it is. *)
Fixpoint toLowerCase (s : string) : string :=
  match s with
  | EmptyString => EmptyString
  | String c r => String (lower_char c) (toLowerCase r)
  end.

(** White space and line terminators in the ASCII range. *)
Definition is_space (c : ascii) : bool :=
  let n := nat_of_ascii c in
  ((9 <=? n)%nat && (n <=? 13)%nat) || (n =? 32)%nat.

Fixpoint trimStart (s : string) : string :=
  match s with
  | EmptyString => EmptyString
  | String c r => if is_space c then trimStart r else s
  end.

Fixpoint trimEnd (s : string) : string :=
  match s with
  | EmptyString => EmptyString
  | String c r =>
      match trimEnd r with
      | EmptyString => if is_space c then EmptyString else String c EmptyString
      | r' => String c r'
      end
  end.

(** [trim]: the ASCII white space at both ends is removed. *)
Definition trim (s : string) : string := trimEnd (trimStart s).

(** [hay.includes(needle)] *)
Fixpoint includes (hay needle : string) : bool :=
  String.prefix needle hay ||
  match hay with
  | EmptyString => false
  | String _ r => includes r needle
  end.

(** [s.split(' ')[0]]: the text before the first space. *)
Fixpoint firstWord (s : string) : string :=
  match s with
  | EmptyString => EmptyString
  | String c r => if Ascii.eqb c " " then EmptyString else String c (firstWord r)
  end.

End Text.

(** ** Base64, as computed by [btoa] on a byte string *)

Module Base64.

Definition alphabet : string :=
  "ABCDEFGHIJKLMNOPQRSTUVWXYZabcdefghijklmnopqrstuvwxyz0123456789+/".

Definition bit (b : bool) (w : nat) : nat := if b then w else 0.

(** The value of a group of six bits, most significant first. *)
Definition sextet (b5 b4 b3 b2 b1 b0 : bool) : nat :=
  bit b5 32 + bit b4 16 + bit b3 8 + bit b2 4 + bit b1 2 + bit b0 1.

Definition digit (b5 b4 b3 b2 b1 b0 : bool) : ascii :=
  match String.get (sextet b5 b4 b3 b2 b1 b0) alphabet with
  | Some c => c
  | None => "="%char
  end.

(** The position of a character in a text, and the six bits of a value:
    together they read a digit back. *)
Fixpoint indexOf (c : ascii) (s : string) : nat :=
  match s with
  | EmptyString => 0
  | String d r => if Ascii.eqb c d then 0 else S (indexOf c r)
  end.

Definition undigit (c : ascii) : bool * bool * bool * bool * bool * bool :=
  let n := indexOf c alphabet in
  (Nat.testbit n 5, Nat.testbit n 4, Nat.testbit n 3,
   Nat.testbit n 2, Nat.testbit n 1, Nat.testbit n 0).

(** Three bytes give four digits. *)
Definition enc3 (a b c : ascii) : string :=
  let '(Ascii a0 a1 a2 a3 a4 a5 a6 a7) := a in
  let '(Ascii b0 b1 b2 b3 b4 b5 b6 b7) := b in
  let '(Ascii c0 c1 c2 c3 c4 c5 c6 c7) := c in
  String (digit a7 a6 a5 a4 a3 a2)
    (String (digit a1 a0 b7 b6 b5 b4)
       (String (digit b3 b2 b1 b0 c7 c6)
          (String (digit c5 c4 c3 c2 c1 c0) EmptyString))).

(** Two trailing bytes give three digits and one pad. *)
Definition enc2 (a b : ascii) : string :=
  let '(Ascii a0 a1 a2 a3 a4 a5 a6 a7) := a in
  let '(Ascii b0 b1 b2 b3 b4 b5 b6 b7) := b in
  String (digit a7 a6 a5 a4 a3 a2)
    (String (digit a1 a0 b7 b6 b5 b4)
       (String (digit b3 b2 b1 b0 false false)
          (String "=" EmptyString))).

(** One trailing byte gives two digits and two pads. *)
Definition enc1 (a : ascii) : string :=
  let '(Ascii a0 a1 a2 a3 a4 a5 a6 a7) := a in
  String (digit a7 a6 a5 a4 a3 a2)
    (String (digit a1 a0 false false false false)
       (String "=" (String "=" EmptyString))).

Fixpoint btoa (s : string) : string :=
  match s with
  | EmptyString => EmptyString
  | String a EmptyString => enc1 a
  | String a (String b EmptyString) => enc2 a b
  | String a (String b (String c r)) => enc3 a b c +:+ btoa r
  end.

End Base64.

(** ** The engine's own text operations *)

(** [String.prototype.toLowerCase] follows the Unicode case mappings and
    [String.prototype.trim] strips every Unicode white space and line
    terminator.  On the names of events and companies, which are arbitrary
    text, the model takes both as they are: parameters.  [noToLowerCase] is
    the message of the TypeError raised when [toLowerCase] is called on a
    value that is not a string. *)
Module Engine.
Class t := mk {
  toLowerCase : string → string;
  trim : string → string;
  noToLowerCase : string
}.
End Engine.

(** The engine of the examples.  On ASCII text every engine computes what
    [Text] computes. *)
#[global] Instance asciiEngine : Engine.t :=
  Engine.mk Text.toLowerCase Text.trim
    "Cannot read properties of undefined (reading 'toLowerCase')".

(** ** Event identity ([generateEventId], src/App.tsx) *)

(** The text that is encoded: [name.toLowerCase().trim()], a dash, the
    start date. *)
Definition idKey {engine : Engine.t} (name date : string) : string :=
  Engine.trim (Engine.toLowerCase name) +:+ "-" +:+ date.

(** [btoa(unescape(encodeURIComponent(key)))]: the Base64 text of the UTF-8
    bytes of the key.  (A key with an unpaired surrogate has no UTF-8 bytes:
    [encodeURIComponent] raises on it, and it is no [string] of the
    model.) *)
Definition generateEventId {engine : Engine.t} (name date : string) : string :=
  Base64.btoa (idKey name date).


(** ** The taxonomy (types module) *)

Inductive Country :=
  | Thailand | Malaysia | Singapore | Indonesia | Philippines
  | Vietnam | UAE | Germany | Australia | Europe.

#[global] Instance Country_eq_dec : EqDecision Country.
Proof. solve_decision. Defined.

Inductive Venue :=
  | Impact | Bitec | Qsncc
  | Klcc | Mitec | Spice | Pwcc
  | Expo | Mbs
  | Jcc | Jiexpo | Ice
  | Smx | WtcManila
  | Secc | IceHanoi
  | Dwtc
  | MesseFrankfurt | MesseBerlin | MesseMunchen | Koelnmesse
  | IccSydney | Mcec
  | FiraBarcelona | ParisNord | RaiAmsterdam.

#[global] Instance Venue_eq_dec : EqDecision Venue.
Proof. solve_decision. Defined.

(** The string each member of the [Venue] enum stands for. *)
Definition venueText (v : Venue) : string :=
  match v with
  | Impact => "Impact Arena & Exhibition Center"
  | Bitec => "BITEC Bangna"
  | Qsncc => "Queen Sirikit National Convention Center (QSNCC)"
  | Klcc => "Kuala Lumpur Convention Centre (KLCC)"
  | Mitec => "MITEC"
  | Spice => "Setia SPICE Convention Centre"
  | Pwcc => "Penang Waterfront Convention Centre (PWCC)"
  | Expo => "Singapore EXPO"
  | Mbs => "Marina Bay Sands Convention Centre"
  | Jcc => "Jakarta Convention Center"
  | Jiexpo => "Jakarta International Expo (JIExpo)"
  | Ice => "Indonesia Convention Exhibition (ICE BSD)"
  | Smx => "SMX Convention Center"
  | WtcManila => "World Trade Center Metro Manila"
  | Secc => "Saigon Exhibition and Convention Center (SECC)"
  | IceHanoi => "International Centre for Exhibition (I.C.E ) Hanoi"
  | Dwtc => "Dubai World Trade Centre"
  | MesseFrankfurt => "Messe Frankfurt"
  | MesseBerlin => "Messe Berlin"
  | MesseMunchen => "Messe München"
  | Koelnmesse => "Koelnmesse"
  | IccSydney => "ICC Sydney"
  | Mcec => "Melbourne Convention and Exhibition Centre"
  | FiraBarcelona => "Fira Barcelona"
  | ParisNord => "Paris Nord Villepinte"
  | RaiAmsterdam => "RAI Amsterdam"
  end.

(** [Object.values(Venue)]: the members in declaration order. *)
Definition Venue_values : list Venue :=
  [ Impact; Bitec; Qsncc; Klcc; Mitec; Spice; Pwcc; Expo; Mbs; Jcc; Jiexpo; Ice;
    Smx; WtcManila; Secc; IceHanoi; Dwtc; MesseFrankfurt; MesseBerlin;
    MesseMunchen; Koelnmesse; IccSydney; Mcec; FiraBarcelona; ParisNord;
    RaiAmsterdam ].

Module CompanyInfo.
(** [name] is declared a string, but the gateway copies it from the
    backend record unchecked, so it can be [undefined]. *)
Record t := mk {
  name : option string;
  email : option string;
  contact : option string;
  role : string
}.
End CompanyInfo.

(** What list discovery returns: an event without [id] and [companies].
    [name] is declared a string, but [searchEventList] copies it from the
    reply unchecked, so it can be [undefined]. *)
Module BaseEvent.
Record t := mk {
  name : option string;
  dateStart : string;
  dateEnd : string;
  venue : option Venue;
  country : Country;
  description : option string
}.
End BaseEvent.

Module EventData.
Record t := mk {
  id : string;
  name : string;
  dateStart : string;
  dateEnd : string;
  venue : option Venue;
  country : Country;
  description : option string;
  companies : list CompanyInfo.t;
  isNew : option bool
}.

Definition with_companies (e : t) (cs : list CompanyInfo.t) : t :=
  mk (id e) (name e) (dateStart e) (dateEnd e) (venue e) (country e)
     (description e) cs (isNew e).
End EventData.

Abbreviation Catalog := (list EventData.t).

(** ** The search gateway (src/services/geminiService.ts) *)

(** What a [catch] receives: an [Error] with its message, or another value. *)
Inductive Thrown :=
  | ErrorObject (message : string)
  | OtherValue.

(** An async call either throws or returns. *)
Inductive Outcome (A : Type) :=
  | Threw (err : Thrown)
  | Returned (value : A).
Arguments Threw {A} err.
Arguments Returned {A} value.

(** What a backend call comes to: [getApiKey] throws before the request is
    made, the request or the parse of its text throws, or a JSON value is
    obtained. *)
Inductive Backend (A : Type) :=
  | NoApiKey
  | Failed (err : Thrown)
  | Answered (data : A).
Arguments NoApiKey {A}.
Arguments Failed {A} err.
Arguments Answered {A} data.

Definition apiKeyError : Thrown :=
  ErrorObject "API Key not found. Please set VITE_API_KEY in your environment.".

(** A JSON value that is expected to be an array. *)
Inductive ArrayOr (A : Type) :=
  | NotArray
  | Items (items : list A).
Arguments NotArray {A}.
Arguments Items {A} items.

(** An item of the reply of list discovery, an [any] record.  [name] is
    [None] when the item has no such field. *)
Module RawEvent.
Record t := mk {
  name : option string;
  dateStart : string;
  dateEnd : string;
  venueName : option string;
  description : option string
}.
End RawEvent.

Module RawContact.
Record t := mk {
  name : option string;
  email : option string;
  contact : option string;
  role : option string
}.
End RawContact.

Module DetailPayload.
(** [exhibitors] is [None] when the field is absent or not an array. *)
Record t := mk {
  organizer : option RawContact.t;
  exhibitors : option (list RawContact.t)
}.
End DetailPayload.

(** The keyword filter of [searchEventList] on one venue. *)
Definition venueFilter (country : Country) (v : Venue) : bool :=
  let has k := Text.includes (venueText v) k in
  match country with
  | Thailand => has "Impact" || has "BITEC" || has "Queen Sirikit"
  | Malaysia => has "Kuala Lumpur" || has "MITEC" || has "SPICE" || has "Penang"
  | Singapore => has "Singapore EXPO" || has "Marina Bay"
  | Indonesia => has "Jakarta" || has "Indonesia Convention"
  | Philippines => has "SMX" || has "World Trade Center"
  | Vietnam => has "Saigon" || has "Hanoi"
  | UAE => has "Dubai"
  | Germany => has "Messe" || has "Koelnmesse"
  | Australia => has "Sydney" || has "Melbourne"
  | Europe => has "Fira" || has "Paris" || has "RAI" || has "Messe"
  end.

(** [venues]: the venues kept for the requested country. *)
Definition venues (country : Country) : list Venue :=
  List.filter (venueFilter country) Venue_values.

(** A string is truthy when it is present and not empty. *)
Definition truthy (s : option string) : bool :=
  match s with
  | Some (String _ _) => true
  | _ => false
  end.

(** [a || ""] *)
Definition orEmpty (s : option string) : option string :=
  if truthy s then s else Some "".


(** The test of the matching loop on one venue. *)
Definition venueHit (venueName : option string) (v : Venue) : bool :=
  match venueName with
  | Some text =>
      truthy venueName &&
      Text.includes (Text.toLowerCase text)
                    (Text.firstWord (Text.toLowerCase (venueText v)))
  | None => false
  end.

(** The [for ... of venues] loop with its [break]. *)
Fixpoint matchLoop (venueName : option string) (vs : list Venue)
    (matchedVenue : option Venue) : option Venue :=
  match vs with
  | [] => matchedVenue
  | v :: rest =>
      if venueHit venueName v then Some v
      else matchLoop venueName rest matchedVenue
  end.

(** [venues[0]] is the default. *)
Definition matchVenue (country : Country) (venueName : option string) : option Venue :=
  matchLoop venueName (venues country) (head (venues country)).

Definition toBaseEvent (country : Country) (item : RawEvent.t) : BaseEvent.t :=
  BaseEvent.mk (RawEvent.name item) (RawEvent.dateStart item)
    (RawEvent.dateEnd item) (matchVenue country (RawEvent.venueName item))
    country (RawEvent.description item).

Definition searchEventList (country : Country)
    (backend : Backend (ArrayOr RawEvent.t)) : Outcome (list BaseEvent.t) :=
  match backend with
  | NoApiKey => Threw apiKeyError
  | Failed err => Threw err
  | Answered NotArray => Returned []
  | Answered (Items rawData) => Returned (map (toBaseEvent country) rawData)
  end.

Definition organizerCompany (o : RawContact.t) : CompanyInfo.t :=
  CompanyInfo.mk (RawContact.name o) (orEmpty (RawContact.email o))
    (orEmpty (RawContact.contact o)) "Organizer".

Definition exhibitorCompany (ex : RawContact.t) : CompanyInfo.t :=
  CompanyInfo.mk (RawContact.name ex) (orEmpty (RawContact.email ex))
    None "Exhibitor".

Definition detailCompanies (data : DetailPayload.t) : list CompanyInfo.t :=
  (match DetailPayload.organizer data with
   | Some o => if truthy (RawContact.name o) then [organizerCompany o] else []
   | None => []
   end)
  ++
  (match DetailPayload.exhibitors data with
   | Some exs => map exhibitorCompany exs
   | None => []
   end).

(** Shallow enrichment.  Only the missing key escapes its [try]. *)
Definition enrichEventDetails (backend : Backend DetailPayload.t)
    : Outcome (list CompanyInfo.t) :=
  match backend with
  | NoApiKey => Threw apiKeyError
  | Failed _ => Returned []
  | Answered data => Returned (detailCompanies data)
  end.

Definition extendedCompany (item : RawContact.t) : CompanyInfo.t :=
  CompanyInfo.mk (RawContact.name item) (orEmpty (RawContact.email item))
    (orEmpty (RawContact.contact item))
    (match RawContact.role item with
     | Some (String c r) => String c r
     | _ => "Exhibitor"
     end).

(** Deep enrichment. *)
Definition findExtendedExhibitors (backend : Backend (ArrayOr RawContact.t))
    : Outcome (list CompanyInfo.t) :=
  match backend with
  | NoApiKey => Threw apiKeyError
  | Failed _ => Returned []
  | Answered NotArray => Returned []
  | Answered (Items rawData) => Returned (map extendedCompany rawData)
  end.



(** ** The catalog merge of [handleSearch] (src/App.tsx) *)

Section CatalogMerge.

Context {engine : Engine.t}.

(** [new Date(s).getTime()]: the time value of a date string, [None] when
    the date is invalid (the engine gives NaN). *)
Variable getTime : string → option Z.

(** The comparator handed to [sort]: the difference of the two time
    values.  A NaN difference counts as zero for the sort. *)
Definition compareStart (a b : EventData.t) : Z :=
  match getTime (EventData.dateStart a), getTime (EventData.dateStart b) with
  | Some ta, Some tb => ta - tb
  | _, _ => 0
  end.

(** [Array.prototype.sort] is stable; on a comparator that is a
    consistent order every stable sort returns the same array, here
    computed by insertion. *)
Fixpoint insertBy {A} (cmp : A → A → Z) (x : A) (l : list A) : list A :=
  match l with
  | [] => [x]
  | y :: r => if (cmp x y <=? 0)%Z then x :: y :: r else y :: insertBy cmp x r
  end.

Definition sortBy {A} (cmp : A → A → Z) (l : list A) : list A :=
  foldr (insertBy cmp) [] l.

(** [new Map(events.map(e => [e.id, e]))]: a later entry overwrites an
    earlier one with the same key. *)
Definition existingEventsMap (events : Catalog) : gmap string EventData.t :=
  foldl (λ m e, <[EventData.id e := e]> m) ∅ events.

(** The body of [basicList.map(base => ...)].  [None] is the TypeError
    that [generateEventId] raises at [name.toLowerCase()] when the name is
    not a string. *)
Definition mergeOne (existing : gmap string EventData.t) (base : BaseEvent.t)
    : option EventData.t :=
  match BaseEvent.name base with
  | None => None
  | Some name =>
      let id := generateEventId name (BaseEvent.dateStart base) in
      Some (EventData.mk id name (BaseEvent.dateStart base)
              (BaseEvent.dateEnd base) (BaseEvent.venue base) (BaseEvent.country base)
              (BaseEvent.description base)
              (match existing !! id with
               | Some e => EventData.companies e
               | None => []
               end)
              (Some (match existing !! id with Some _ => false | None => true end)))
  end.

(** [mergedEvents]: the array the [map] returns, when no call of its body
    raises.  [events] is the catalog the handler closed over. *)
Definition mergedEvents (events : Catalog) (basicList : list BaseEvent.t)
    : option (list EventData.t) :=
  mapM (mergeOne (existingEventsMap events)) basicList.

(** [prev.filter(e => e.country !== activeCountry)] *)
Definition others (prev : Catalog) (activeCountry : Country) : Catalog :=
  List.filter (λ e, negb (bool_decide (EventData.country e = activeCountry))) prev.

(** The updater passed to [setEvents] in both phases. *)
Definition replaceCountry (prev : Catalog) (activeCountry : Country)
    (merged : list EventData.t) : Catalog :=
  sortBy compareStart (others prev activeCountry ++ merged).

(** Start-date order, for entries whose date the engine can read. *)
Definition startsNoLater (a b : EventData.t) : Prop :=
  ∃ ta tb, getTime (EventData.dateStart a) = Some ta ∧
           getTime (EventData.dateStart b) = Some tb ∧ (ta ≤ tb)%Z.

End CatalogMerge.

(** ** The enrichment workers of [handleSearch] *)

(** [20 + ((processedCount / totalToProcess) * 80)], taken exactly.  The
    engine rounds each of the three operations to a double. *)
Definition currentProgress (processedCount totalToProcess : nat) : Q :=
  (20 + (inject_Z (Z.of_nat processedCount) / inject_Z (Z.of_nat totalToProcess)) * 80)%Q.

(** Where a worker stands: not yet started, suspended in
    [await enrichEventDetails(...)] for the event object at an index of
    [mergedEvents], or returned. *)
Inductive Worker :=
  | Ready
  | Awaiting (i : nat)
  | Finished.

#[global] Instance Worker_eq_dec : EqDecision Worker.
Proof. solve_decision. Defined.

Module Pool.
(** What the three workers share.  [store] holds the event objects of
    [mergedEvents]; the queue holds references to them, as indices.
    [invoked] lists the calls of [enrichEventDetails], oldest first.  Of
    each evaluation of the progress expression that is passed to
    [setProgress], [evaluated] has the operands [processedCount] and
    [totalToProcess], and [reported] the exact value. *)
Record t := mk {
  workers : list Worker;
  processQueue : list nat;
  store : list EventData.t;
  processedCount : nat;
  reported : list Q;
  evaluated : list (nat * nat);
  invoked : list nat
}.
End Pool.

Definition concurrency : nat := 3.

(** [processedCount++; setProgress(currentProgress)] *)
Definition tick (total : nat) (p : Pool.t) : Pool.t :=
  Pool.mk (Pool.workers p) (Pool.processQueue p) (Pool.store p)
    (S (Pool.processedCount p))
    (Pool.reported p ++ [currentProgress (S (Pool.processedCount p)) total])
    (Pool.evaluated p ++ [(S (Pool.processedCount p), total)])
    (Pool.invoked p).

(** One worker runs its [while] loop from the top until it suspends at the
    [await] or leaves the loop.  Nothing else runs in between. *)
Fixpoint workerLoop (total : nat) (queue : list nat) (p : Pool.t)
    : Worker * Pool.t :=
  match queue with
  | [] => (Finished, Pool.mk (Pool.workers p) [] (Pool.store p)
                       (Pool.processedCount p) (Pool.reported p)
                       (Pool.evaluated p) (Pool.invoked p))
  | i :: rest =>
      let p' := Pool.mk (Pool.workers p) rest (Pool.store p)
                  (Pool.processedCount p) (Pool.reported p)
                  (Pool.evaluated p) (Pool.invoked p) in
      match Pool.store p !! i with
      | None => (Finished, p')
      | Some event =>
          match EventData.companies event with
          | [] => (Awaiting i,
                   Pool.mk (Pool.workers p') rest (Pool.store p')
                     (Pool.processedCount p') (Pool.reported p')
                     (Pool.evaluated p') (Pool.invoked p' ++ [i]))
          | _ :: _ => workerLoop total rest (tick total p')
          end
      end
  end.

(** Worker [w] runs until its next suspension. *)
Definition run (total w : nat) (p : Pool.t) : Pool.t :=
  let '(state, p') := workerLoop total (Pool.processQueue p) p in
  Pool.mk (<[w := state]> (Pool.workers p')) (Pool.processQueue p')
    (Pool.store p') (Pool.processedCount p') (Pool.reported p')
    (Pool.evaluated p') (Pool.invoked p').

(** The awaited call settles: [event.companies = companies], or the
    [catch] that only logs; then the count and the progress. *)
Definition settle (total i : nat) (result : Outcome (list CompanyInfo.t))
    (p : Pool.t) : Pool.t :=
  tick total
    (match result with
     | Returned companies =>
         Pool.mk (Pool.workers p) (Pool.processQueue p)
           (alter (λ e, EventData.with_companies e companies) i (Pool.store p))
           (Pool.processedCount p) (Pool.reported p) (Pool.evaluated p)
           (Pool.invoked p)
     | Threw _ => p
     end).

(** The interleavings of the cooperative workers. *)
Inductive step (total : nat) : Pool.t → Pool.t → Prop :=
  | step_start w p :
      Pool.workers p !! w = Some Ready →
      step total p (run total w p)
  | step_settle w i backend p :
      Pool.workers p !! w = Some (Awaiting i) →
      step total p (run total w (settle total i (enrichEventDetails backend) p)).

(** [processQueue = [...mergedEvents]] and the three workers. *)
Definition seed (merged : list EventData.t) : Pool.t :=
  Pool.mk (replicate concurrency Ready) (seq 0 (length merged)) merged 0 [] [] [].

Definition reachable (merged : list EventData.t) (p : Pool.t) : Prop :=
  rtc (step (length merged)) (seed merged) p.

(** [Promise.all(workers)] has resolved. *)
Definition joined (p : Pool.t) : Prop :=
  Forall (λ w, w = Finished) (Pool.workers p).

(** What holds of every state the workers can reach from the seed on
    [merged], when the queue has been consumed up to index [k]: the queue is
    the rest of the seeded one, the events still queued are as seeded, every
    call made was for an event already taken from the queue whose companies
    were empty at the seed, no call is repeated, a suspended worker waits
    for a call that was made, and the progress values are those of the
    counts 1, 2, ... *)
Definition pool_inv_at (merged : list EventData.t) (k : nat) (p : Pool.t) : Prop :=
  k ≤ length merged ∧
  Pool.processQueue p = seq k (length merged - k) ∧
  EventData.id <$> Pool.store p = EventData.id <$> merged ∧
  (∀ i, k ≤ i → Pool.store p !! i = merged !! i) ∧
  NoDup (Pool.invoked p) ∧
  (∀ i, i ∈ Pool.invoked p →
        i < k ∧ ∃ e, merged !! i = Some e ∧ EventData.companies e = []) ∧
  (∀ w i, Pool.workers p !! w = Some (Awaiting i) → i ∈ Pool.invoked p) ∧
  Pool.reported p =
    (λ j, currentProgress j (length merged)) <$> seq 1 (Pool.processedCount p).

Definition pool_inv (merged : list EventData.t) (p : Pool.t) : Prop :=
  ∃ k, pool_inv_at merged k p.

(** A bound on the steps a pool can still take: the events queued and the
    workers that have not returned. *)
Definition pending (w : Worker) : nat :=
  match w with
  | Finished => 0
  | _ => 1
  end.

Definition workLeft (p : Pool.t) : nat :=
  length (Pool.processQueue p) + sum_list (pending <$> Pool.workers p).

(** ** The state of the application *)

Module App.
Record t := mk {
  activeCountry : Country;
  events : Catalog;
  (** the value under the key [asean_events_data] *)
  localStorage : option Catalog;
  loading : bool;
  progress : Q;
  error : option string
}.
End App.

(** ** The append of [handleDeepSearchEvent] *)

(** [c.name.toLowerCase()]; [None] is the TypeError raised on a missing name. *)
Definition lowerName {engine : Engine.t} (c : CompanyInfo.t) : option string :=
  Engine.toLowerCase <$> CompanyInfo.name c.

(** [new Set(e.companies.map(c => c.name.toLowerCase()))] *)
Definition existingNames {engine : Engine.t} (companies : list CompanyInfo.t)
    : option (gset string) :=
  list_to_set <$> mapM lowerName companies.

(** [moreCompanies.filter(c => !existingNames.has(c.name.toLowerCase()))] *)
Fixpoint newUnique {engine : Engine.t} (names : gset string)
    (moreCompanies : list CompanyInfo.t) : option (list CompanyInfo.t) :=
  match moreCompanies with
  | [] => Some []
  | c :: rest =>
      n ← lowerName c;
      keep ← newUnique names rest;
      Some (if bool_decide (n ∈ names) then keep else c :: keep)
  end.

(** The branch taken for the event with the searched id. *)
Definition dedupAppend {engine : Engine.t} (e : EventData.t)
    (moreCompanies : list CompanyInfo.t) : option EventData.t :=
  names ← existingNames (EventData.companies e);
  fresh ← newUnique names moreCompanies;
  Some (EventData.with_companies e (EventData.companies e ++ fresh)).

(** The updater passed to [setEvents]: [prev.map(e => ...)]. *)
Definition updatedEvents {engine : Engine.t} (prev : Catalog) (id : string)
    (moreCompanies : list CompanyInfo.t) : option Catalog :=
  mapM (λ e, if bool_decide (EventData.id e = id)
             then dedupAppend e moreCompanies else Some e) prev.

(** ** [handleDeepSearchEvent] as a whole (src/App.tsx) *)

(** The state after the handler has run, [st] being the live state that its
    updater receives; [None] when the updater raises.  A throw of
    [findExtendedExhibitors] is caught and answered with an alert. *)
Definition handleDeepSearchEvent {engine : Engine.t} (st : App.t)
    (event : EventData.t) (backend : Backend (ArrayOr RawContact.t))
    : option App.t :=
  match findExtendedExhibitors backend with
  | Threw _ => Some st
  | Returned moreCompanies =>
      match updatedEvents (App.events st) (EventData.id event) moreCompanies with
      | Some updated =>
          Some (App.mk (App.activeCountry st) updated (Some updated)
                  (App.loading st) (App.progress st) (App.error st))
      | None => None
      end
  end.

(** What can happen to the state while [handleSearch] is suspended in an
    [await]: the search button and the country buttons are disabled, the
    deep-search buttons are not, so any number of deep searches can
    complete. *)
Definition deepSearched {engine : Engine.t} (a b : App.t) : Prop :=
  ∃ event backend, handleDeepSearchEvent a event backend = Some b.

Definition interleaved {engine : Engine.t} : App.t → App.t → Prop :=
  rtc deepSearched.

(** An entry and what deep searches can make of it: the same entry with
    companies added behind its own. *)
Definition grownFrom (e e' : EventData.t) : Prop :=
  EventData.with_companies e (EventData.companies e') = e' ∧
  EventData.companies e `prefix_of` EventData.companies e'.

(** ** [handleSearch] as a whole *)

Definition errorText (err : Thrown) : string :=
  "Search failed: " +:+
  match err with
  | ErrorObject message => message
  | OtherValue => "Unknown error"
  end.

(** The [catch] of [handleSearch], on the state it finds. *)
Definition searchFailed (st : App.t) (shown : Q) (err : Thrown) : App.t :=
  App.mk (App.activeCountry st) (App.events st) (App.localStorage st)
    false shown (Some (errorText err)).

(** What the [catch] of [handleSearch] receives when list discovery does not
    deliver events: the error thrown, or the error raised on an empty list. *)
Definition discoveryFailure (country : Country)
    (backend : Backend (ArrayOr RawEvent.t)) : option Thrown :=
  match searchEventList country backend with
  | Threw err => Some err
  | Returned [] => Some (ErrorObject "No events found. Please try again.")
  | Returned (_ :: _) => None
  end.

Inductive SearchStart :=
  | Aborted (st : App.t)
  | Proceeding (st : App.t) (merged : list EventData.t).

(** [handleSearch] from the reply of list discovery to the first
    [setEvents].  [st] is the state of the render the handler was created
    in: [activeCountry] and [events] in its body are the fields of [st].
    [live] is the state when the handler resumes: the updater passed to
    [setEvents] receives its catalog as [prev]. *)
Definition searchStart {engine : Engine.t} (getTime : string → option Z)
    (st live : App.t) (backend : Backend (ArrayOr RawEvent.t)) : SearchStart :=
  match searchEventList (App.activeCountry st) backend with
  | Threw err => Aborted (searchFailed live 0 err)
  | Returned [] =>
      Aborted (searchFailed live 0 (ErrorObject "No events found. Please try again."))
  | Returned basicList =>
      match mergedEvents (App.events st) basicList with
      | None => Aborted (searchFailed live 20 (ErrorObject Engine.noToLowerCase))
      | Some merged =>
          Proceeding
            (App.mk (App.activeCountry st)
               (replaceCountry getTime (App.events live) (App.activeCountry st) merged)
               (App.localStorage live) true 20 None)
            merged
      end
  end.

(** The final update, once the workers are joined, on the live state. *)
Definition searchFinish (getTime : string → option Z) (st : App.t) (p : Pool.t)
    : App.t :=
  let finalEvents :=
    replaceCountry getTime (App.events st) (App.activeCountry st) (Pool.store p) in
  App.mk (App.activeCountry st) finalEvents (Some finalEvents) (App.loading st)
    (List.last (Pool.reported p) (App.progress st)) (App.error st).

(** A run of [handleSearch] started in the state [st]: the calls of shallow
    enrichment it made and the state it leaves.  Deep searches can complete
    while the run awaits list discovery and while it awaits the workers.
    (A deep search of the second kind reads entries of the active country
    that are the objects the workers write to; the final update discards
    what it makes of them, so the model lets it read them as Phase 1 left
    them.) *)
Inductive handleSearchAmid {engine : Engine.t} (getTime : string → option Z)
    (st : App.t) (backend : Backend (ArrayOr RawEvent.t))
    : list nat → App.t → Prop :=
  | amid_aborted live st' :
      interleaved st live →
      searchStart getTime st live backend = Aborted st' →
      handleSearchAmid getTime st backend [] st'
  | amid_completed live1 st1 merged live2 p :
      interleaved st live1 →
      searchStart getTime st live1 backend = Proceeding st1 merged →
      interleaved st1 live2 →
      reachable merged p →
      joined p →
      handleSearchAmid getTime st backend (Pool.invoked p)
        (searchFinish getTime live2 p).

(** A run of [handleSearch] during which nothing else writes the state. *)
Inductive handleSearch {engine : Engine.t} (getTime : string → option Z)
    (st : App.t) (backend : Backend (ArrayOr RawEvent.t))
    : list nat → App.t → Prop :=
  | search_aborted st' :
      searchStart getTime st st backend = Aborted st' →
      handleSearch getTime st backend [] st'
  | search_completed st1 merged p :
      searchStart getTime st st backend = Proceeding st1 merged →
      reachable merged p →
      joined p →
      handleSearch getTime st backend (Pool.invoked p) (searchFinish getTime st1 p).

(** ** Sample data for the examples *)

Definition company (name : string) : CompanyInfo.t :=
  CompanyInfo.mk (Some name) (Some "") (Some "") "Exhibitor".

Definition sampleEvent {engine : Engine.t} (companies : list CompanyInfo.t)
    : EventData.t :=
  EventData.mk (generateEventId "Food Expo" "2026-03-01") "Food Expo"
    "2026-03-01" "2026-03-04" (Some Bitec) Thailand None companies (Some true).

Definition priorExpo {engine : Engine.t} : EventData.t :=
  sampleEvent [company "Acme"; company "Beta"; company "Gamma"].

Definition baseExpo : BaseEvent.t :=
  BaseEvent.mk (Some "FOOD EXPO ") "2026-03-01" "2026-03-05" (Some Impact) Thailand None.

Definition rawExpo : RawEvent.t :=
  RawEvent.mk (Some "Food Expo") "2026-03-01" "2026-03-04" (Some "BITEC Bangna") None.

Definition expoId {engine : Engine.t} : string :=
  generateEventId "Food Expo" "2026-03-01".

(** An entry with the id of the expo, kept under another country. *)
Definition expoInMalaysia {engine : Engine.t} : EventData.t :=
  EventData.mk expoId "Food Expo" "2026-03-01" "2026-03-04" (Some Klcc) Malaysia
    None [company "Acme"] (Some true).

Definition freshApp (country : Country) (catalog : Catalog) : App.t :=
  App.mk country catalog (Some catalog) false 0 None.

(** The seeding as the specification words it: only the events whose
    companies list is empty.  The source seeds with [seed] above. *)
Definition emptyAtSeed (merged : list EventData.t) : list nat :=
  List.filter
    (λ i, match merged !! i with
          | Some e => match EventData.companies e with [] => true | _ => false end
          | None => false
          end)
    (seq 0 (length merged)).

(** A detail payload whose only exhibitor record has no [name]. *)
Definition namelessPayload : DetailPayload.t :=
  DetailPayload.mk None (Some [RawContact.mk None (Some "sales@example.com") None None]).

(** ** CSV export ([escapeCsv], [handleExportCSV], src/App.tsx) *)

Definition quoteChar : ascii := "034"%char.
Definition lineFeed : ascii := "010"%char.

(** The string each member of the [Country] enum stands for. *)
Definition countryText (c : Country) : string :=
  match c with
  | Thailand => "Thailand"
  | Malaysia => "Malaysia"
  | Singapore => "Singapore"
  | Indonesia => "Indonesia"
  | Philippines => "Philippines"
  | Vietnam => "Vietnam"
  | UAE => "UAE (Dubai)"
  | Germany => "Germany"
  | Australia => "Australia"
  | Europe => "Europe"
  end.

(** The global [replace] of [escapeCsv]: every quote is written twice. *)
Fixpoint doubleQuotes (s : string) : string :=
  match s with
  | EmptyString => EmptyString
  | String c r =>
      if Ascii.eqb c quoteChar
      then String quoteChar (String quoteChar (doubleQuotes r))
      else String c (doubleQuotes r)
  end.

(** The test of [escapeCsv]: a comma, a quote or a line feed occurs. *)
Definition needsQuoting (s : string) : bool :=
  Text.includes s "," ||
  Text.includes s (String quoteChar EmptyString) ||
  Text.includes s (String lineFeed EmptyString).

(** A text between two quotes. *)
Definition quoted (s : string) : string :=
  String quoteChar (s +:+ String quoteChar EmptyString).

Definition escapeCsv (str : option string) : string :=
  match str with
  | Some (String c r) =>
      if needsQuoting (String c r) then quoted (doubleQuotes (String c r))
      else String c r
  | _ => EmptyString
  end.

Definition headers : list string :=
  ["Event Name"; "Venue"; "Start Date"; "End Date"; "Country";
   "Company Name"; "Role"; "Email"; "Contact"].

(** The five columns every row of an event starts with. *)
Definition eventColumns (event : EventData.t) : list string :=
  [escapeCsv (Some (EventData.name event));
   escapeCsv (venueText <$> EventData.venue event);
   escapeCsv (Some (EventData.dateStart event));
   escapeCsv (Some (EventData.dateEnd event));
   escapeCsv (Some (countryText (EventData.country event)))].

(** The row of an event without companies: four quoted [N/A]. *)
Definition placeholderRow (event : EventData.t) : string :=
  String.concat "," (eventColumns event ++ replicate 4 (quoted "N/A")).

Definition companyRow (event : EventData.t) (comp : CompanyInfo.t) : string :=
  String.concat ","
    (eventColumns event ++
     [escapeCsv (CompanyInfo.name comp);
      escapeCsv (Some (CompanyInfo.role comp));
      escapeCsv (CompanyInfo.email comp);
      escapeCsv (CompanyInfo.contact comp)]).

(** The body of [filteredEvents.forEach]. *)
Definition eventRows (event : EventData.t) : list string :=
  match EventData.companies event with
  | [] => [placeholderRow event]
  | companies => map (companyRow event) companies
  end.

(** [events.filter(e => e.country === activeCountry)] *)
Definition filteredEvents (events : Catalog) (activeCountry : Country) : Catalog :=
  List.filter (λ e, bool_decide (EventData.country e = activeCountry)) events.

Definition exportRows (events : Catalog) (activeCountry : Country) : list string :=
  concat (map eventRows (filteredEvents events activeCountry)).

(** The byte order mark, as UTF-8. *)
Definition byteOrderMark : string :=
  String "239" (String "187" (String "191" EmptyString)).

(** [handleExportCSV]: the text of the file offered for download and its
    name, or [None] when the alert is shown and nothing is written. *)
Definition handleExportCSV (events : Catalog) (activeCountry : Country)
    : option (string * string) :=
  match filteredEvents events activeCountry with
  | [] => None
  | _ :: _ =>
      Some (countryText activeCountry +:+ "_Events_Full_Export.csv",
            byteOrderMark +:+
            String.concat (String lineFeed EmptyString)
              (String.concat "," headers :: exportRows events activeCountry))
  end.

(** How a reader of CSV text takes it: a quote switches between inside and
    outside quotes, and only outside quotes a comma separates fields and a
    line feed separates records.  The result is the state at the end and the
    numbers of separating commas and line feeds. *)
Fixpoint scanCsv (inQuotes : bool) (s : string) : bool * (nat * nat) :=
  match s with
  | EmptyString => (inQuotes, (0, 0))
  | String c r =>
      if Ascii.eqb c quoteChar then scanCsv (negb inQuotes) r
      else
        let '(q, (commas, feeds)) := scanCsv inQuotes r in
        if inQuotes then (q, (commas, feeds))
        else (q, ((if Ascii.eqb c "," then S commas else commas),
                  (if Ascii.eqb c lineFeed then S feeds else feeds)))
  end.

(** ** Recipients ([handleGenerateEmail], src/App.tsx, and the modal of
    src/components/EmailModal.tsx) *)

(** [email && email.includes('@')] *)
Definition hasAt (email : option string) : bool :=
  truthy email &&
  match email with
  | Some e => Text.includes e "@"
  | None => false
  end.

(** [event.companies.some(c => c.email && c.email.includes('@'))] *)
Definition hasEmails (event : EventData.t) : bool :=
  existsb (λ c, hasAt (CompanyInfo.email c)) (EventData.companies event).

(** [handleGenerateEmail]: the event the modal is opened on, or [None] when
    the alert is shown instead. *)
Definition handleGenerateEmail (event : EventData.t) : option EventData.t :=
  if hasEmails event then Some event else None.

(** [Array.from(new Set(values))]: the values in the order of their first
    occurrence. *)
Definition setAdd {A} `{EqDecision A} (seen : list A) (x : A) : list A :=
  if bool_decide (x ∈ seen) then seen else seen ++ [x].

Definition arrayFromSet {A} `{EqDecision A} (values : list A) : list A :=
  foldl setAdd [] values.

(** [.filter(Boolean) as string[]] *)
Definition definedText (x : option string) : option string :=
  if truthy x then x else None.

(** [uniqueEmails] of the modal. *)
Definition uniqueEmails (event : EventData.t) : list string :=
  omap definedText
    (arrayFromSet
       (List.filter hasAt
          (map (λ c, Text.trim <$> CompanyInfo.email c) (EventData.companies event)))).

(** ** Region and country selection ([REGION_MAPPING], [handleRegionChange],
    src/App.tsx) *)

Module Region.
Inductive t := Asia | Europe | Oceania | Americas | Africa.
End Region.

Definition REGION_MAPPING (region : Region.t) : list Country :=
  match region with
  | Region.Asia => [Thailand; Malaysia; Singapore; Indonesia; Philippines; Vietnam; UAE]
  | Region.Europe => [Germany; Europe]
  | Region.Oceania => [Australia]
  | Region.Americas => []
  | Region.Africa => []
  end.

Module Selection.
Record t := mk {
  loading : bool;
  activeRegion : Region.t;
  activeCountry : Country
}.
End Selection.

(** The state the component starts in. *)
Definition initialSelection : Selection.t :=
  Selection.mk false Region.Asia Thailand.

Definition handleRegionChange (st : Selection.t) (region : Region.t) : Selection.t :=
  if Selection.loading st then st
  else
    match REGION_MAPPING region with
    | [] => st
    | first :: _ => Selection.mk (Selection.loading st) region first
    end.

(** The click handler of a country button: [!loading && setActiveCountry(country)]. *)
Definition selectCountry (st : Selection.t) (country : Country) : Selection.t :=
  if Selection.loading st then st
  else Selection.mk (Selection.loading st) (Selection.activeRegion st) country.

(** What the user can do to the selection: press a region button, or press
    one of the country buttons, which are drawn for the countries of the
    active region; a search switches [loading] on and off. *)
Inductive selects : Selection.t → Selection.t → Prop :=
  | press_region st region :
      selects st (handleRegionChange st region)
  | press_country st country :
      country ∈ REGION_MAPPING (Selection.activeRegion st) →
      selects st (selectCountry st country)
  | set_loading st flag :
      selects st (Selection.mk flag (Selection.activeRegion st) (Selection.activeCountry st)).

(** ** Credentials ([getApiKey], src/services/geminiService.ts) *)

Module Env.
(** [metaEnv] is the [VITE_API_KEY] of [import.meta.env], when there is such
    an object; [processEnv] the three variables read from [process.env],
    when there is one. *)
Record t := mk {
  metaEnv : option (option string);
  processEnv : option (option string * option string * option string)
}.
End Env.

(** The first of the values that is a non-empty string. *)
Fixpoint firstTruthy (values : list (option string)) : option string :=
  match values with
  | [] => None
  | v :: rest => if truthy v then v else firstTruthy rest
  end.

Definition getApiKey (env : Env.t) : Outcome string :=
  let fromMeta :=
    match Env.metaEnv env with
    | Some v => if truthy v then v else None
    | None => None
    end in
  let apiKey :=
    match fromMeta with
    | Some k => Some k
    | None =>
        match Env.processEnv env with
        | Some (API_KEY, VITE_API_KEY, REACT_APP_API_KEY) =>
            firstTruthy [API_KEY; VITE_API_KEY; REACT_APP_API_KEY]
        | None => None
        end
    end in
  match apiKey with
  | Some k => Returned k
  | None => Threw apiKeyError
  end.

(** ** Email drafting ([draftEmailContent], src/services/geminiService.ts) *)

Module DraftPayload.
Record t := mk {
  subject : option string;
  body : option string
}.
End DraftPayload.

Module Draft.
Record t := mk {
  subject : string;
  body : string
}.
End Draft.

(** [a || fallback] for texts. *)
Definition orText (a : option string) (fallback : string) : string :=
  match a with
  | Some (String c r) => String c r
  | _ => fallback
  end.

Definition fallbackBody (eventName : string) : string :=
  "Dear Team," +:+ String lineFeed (String lineFeed EmptyString) +:+
  "I am writing to inquire about " +:+ eventName +:+ "." +:+
  String lineFeed (String lineFeed EmptyString) +:+
  "Best regards," +:+ String lineFeed EmptyString +:+ "[Your Name]".

Definition draftEmailContent (eventName : string)
    (backend : Backend DraftPayload.t) : Outcome Draft.t :=
  match backend with
  | NoApiKey => Threw apiKeyError
  | Failed _ =>
      Returned (Draft.mk ("Inquiry regarding " +:+ eventName) (fallbackBody eventName))
  | Answered data =>
      Returned (Draft.mk (orText (DraftPayload.subject data) ("Inquiry: " +:+ eventName))
                         (orText (DraftPayload.body data) "Could not generate draft."))
  end.

(** The values [getApiKey] looks at, in the order it looks at them. *)
Definition keyCandidates (env : Env.t) : list (option string) :=
  match Env.metaEnv env with
  | Some v => [v]
  | None => []
  end ++
  match Env.processEnv env with
  | Some (API_KEY, VITE_API_KEY, REACT_APP_API_KEY) =>
      [API_KEY; VITE_API_KEY; REACT_APP_API_KEY]
  | None => []
  end.

(** ** Counting the work of the pool *)

Definition awaits (w : Worker) : nat :=
  match w with
  | Awaiting _ => 1
  | _ => 0
  end.

(** More of what holds of every reachable state of the pool: every event is
    counted as processed, still queued, or awaited by one worker; once a
    worker has returned the queue is empty; an event that was not handed to
    enrichment is as it was seeded; and the workers change nothing but the
    companies of an event. *)
Definition pool_counts (merged : list EventData.t) (p : Pool.t) : Prop :=
  length (Pool.workers p) = concurrency ∧
  Pool.processedCount p + length (Pool.processQueue p)
    + sum_list (awaits <$> Pool.workers p) = length merged ∧
  (Finished ∈ Pool.workers p → Pool.processQueue p = []) ∧
  (∀ i, i ∉ Pool.invoked p → Pool.store p !! i = merged !! i) ∧
  Forall2 (λ e e0, EventData.with_companies e0 (EventData.companies e) = e)
          (Pool.store p) merged.

(** ** What a discovery run leaves *)

(** A record as the merge makes it from a list-discovery result for a
    country: it carries that country, the id computed from its own name and
    start date, and a venue of the country's list. *)
Definition freshOf {engine : Engine.t} (c : Country) (e : EventData.t) : Prop :=
  EventData.country e = c ∧
  EventData.id e = generateEventId (EventData.name e) (EventData.dateStart e) ∧
  ∃ v, EventData.venue e = Some v ∧ v ∈ venues c.

(** A stand-in for the engine's reading of dates in the examples: the
    digits of a text of the form YYYY-MM-DD, read as one number, which
    orders such dates as the calendar does; [None] for any other text. *)
Definition digitValue (c : ascii) : option Z :=
  let n := nat_of_ascii c in
  if (48 <=? n)%nat && (n <=? 57)%nat then Some (Z.of_nat (n - 48)) else None.

Fixpoint digitsValue (acc : Z) (s : list ascii) : option Z :=
  match s with
  | [] => Some acc
  | c :: r =>
      match digitValue c with
      | Some d => digitsValue (10 * acc + d)%Z r
      | None => None
      end
  end.

Definition isoDayNumber (s : string) : option Z :=
  match list_ascii_of_string s with
  | [y1; y2; y3; y4; d1; m1; m2; d2; a1; a2] =>
      if Ascii.eqb d1 "-" && Ascii.eqb d2 "-"
      then digitsValue 0 [y1; y2; y3; y4; m1; m2; a1; a2]
      else None
  | _ => None
  end.

(** ** Catalogs whose companies are named *)

(** Every company of a catalog carries a name. *)
Definition allNamed (events : Catalog) : Prop :=
  Forall (λ e, Forall (λ c, is_Some (CompanyInfo.name c)) (EventData.companies e)) events.

(** ** Grouping by month for the calendar view ([eventsByMonth], src/App.tsx) *)

(** The accumulator object of the [reduce], as the list of its entries in
    the order the keys were first set, which is the order [Object.entries]
    gives them in; the labels are month names with a year, never
    integer-like keys or names of inherited properties. *)
Fixpoint pushGroup (acc : list (string * list EventData.t)) (key : string)
    (event : EventData.t) : list (string * list EventData.t) :=
  match acc with
  | [] => [(key, [event])]
  | (k, es) :: rest =>
      if String.eqb k key then (k, es ++ [event]) :: rest
      else (k, es) :: pushGroup rest key event
  end.

(** [monthLabel] is the label [toLocaleString] gives for the month of a
    start date. *)
Definition eventsByMonth (monthLabel : string → string) (filtered : Catalog)
    : list (string * list EventData.t) :=
  foldl (λ acc event, pushGroup acc (monthLabel (EventData.dateStart event)) event)
        [] filtered.

(** The events of a list that fall under one label, in the order of the list. *)
Definition underLabel (monthLabel : string → string) (key : string)
    (events : Catalog) : Catalog :=
  List.filter (λ e, String.eqb (monthLabel (EventData.dateStart e)) key) events.

(** What the accumulator of [eventsByMonth] satisfies once the events [seen]
    have been put in. *)
Definition grouped (monthLabel : string → string)
    (groups : list (string * list EventData.t)) (seen : Catalog) : Prop :=
  NoDup (groups.*1) ∧
  (∀ k es, (k, es) ∈ groups → es ≠ [] ∧ es = underLabel monthLabel k seen) ∧
  (∀ e, e ∈ seen → monthLabel (EventData.dateStart e) ∈ groups.*1).

(** * Properties *)

(** ** Text *)

Module TextFacts.
Import Text.

Lemma is_space_lower c : is_space (lower_char c) = is_space c.
Proof. destruct c as [[] [] [] [] [] [] [] []]; reflexivity. Qed.

Lemma toLowerCase_trimStart s :
  toLowerCase (trimStart s) = trimStart (toLowerCase s).
Proof.
  induction s as [|c r IH]; simpl; [done|].
  rewrite is_space_lower. by destruct (is_space c).
Qed.

Lemma toLowerCase_trimEnd s :
  toLowerCase (trimEnd s) = trimEnd (toLowerCase s).
Proof.
  induction s as [|c r IH]; simpl; [done|].
  rewrite <- IH, is_space_lower.
  destruct (trimEnd r); simpl; [by destruct (is_space c)|done].
Qed.

(** Lower-casing and trimming commute, so the order the source applies
    them in does not matter. *)
Lemma toLowerCase_trim s : toLowerCase (trim s) = trim (toLowerCase s).
Proof. unfold trim. by rewrite toLowerCase_trimEnd, toLowerCase_trimStart. Qed.

Lemma append_inv_head (p s t : string) : p +:+ s = p +:+ t → s = t.
Proof. induction p as [|c p IH]; simpl; [done|]. intros [= H]. auto. Qed.

Lemma append_length (s t : string) :
  String.length (s +:+ t) = String.length s + String.length t.
Proof. induction s as [|c s IH]; simpl; [done|]. by rewrite IH. Qed.

Lemma append_inv_tail (s t q : string) : s +:+ q = t +:+ q → s = t.
Proof.
  revert t. induction s as [|c s IH]; intros [|d t] H; simpl in *.
  - done.
  - apply (f_equal String.length) in H.
    rewrite !append_length in H. simpl in H. lia.
  - apply (f_equal String.length) in H.
    rewrite !append_length in H. simpl in H. lia.
  - injection H as -> H. f_equal. by apply IH.
Qed.

End TextFacts.

(** ** Base64 is injective *)

Module Base64Facts.
Import Base64.

Lemma undigit_digit b5 b4 b3 b2 b1 b0 :
  undigit (digit b5 b4 b3 b2 b1 b0) = (b5, b4, b3, b2, b1, b0).
Proof. destruct b5, b4, b3, b2, b1, b0; reflexivity. Qed.

Lemma digit_inj a5 a4 a3 a2 a1 a0 b5 b4 b3 b2 b1 b0 :
  digit a5 a4 a3 a2 a1 a0 = digit b5 b4 b3 b2 b1 b0 →
  (a5, a4, a3, a2, a1, a0) = (b5, b4, b3, b2, b1, b0).
Proof.
  intros H. rewrite <- (undigit_digit a5), <- (undigit_digit b5). by rewrite H.
Qed.

Lemma digit_not_pad b5 b4 b3 b2 b1 b0 : digit b5 b4 b3 b2 b1 b0 ≠ "="%char.
Proof. destruct b5, b4, b3, b2, b1, b0; discriminate. Qed.

Lemma pad_not_digit b5 b4 b3 b2 b1 b0 : "="%char ≠ digit b5 b4 b3 b2 b1 b0.
Proof. intros H. by eapply digit_not_pad. Qed.

(** Strings three characters at a time. *)
Lemma string_ind3 (P : string → Prop) :
  P EmptyString →
  (∀ a, P (String a EmptyString)) →
  (∀ a b, P (String a (String b EmptyString))) →
  (∀ a b c r, P r → P (String a (String b (String c r)))) →
  ∀ s, P s.
Proof.
  intros H0 H1 H2 H3 s.
  cut (P s ∧ (∀ a, P (String a s)) ∧ (∀ a b, P (String a (String b s)))).
  { tauto. }
  induction s as [|c r (IHa & IHb & IHc)]; [by auto|].
  split; [apply IHb|]. split; [intros a; apply IHc|].
  intros a b. by apply H3.
Qed.

Ltac bytes :=
  repeat match goal with
         | a : ascii |- _ => destruct a as [? ? ? ? ? ? ? ?]
         end.

Ltac digits :=
  repeat match goal with
         | H : String _ _ = String _ _ |- _ => injection H; clear H; intros
         | H : digit _ _ _ _ _ _ = "="%char |- _ => by apply digit_not_pad in H
         | H : "="%char = digit _ _ _ _ _ _ |- _ => by apply pad_not_digit in H
         | H : digit _ _ _ _ _ _ = digit _ _ _ _ _ _ |- _ =>
             apply digit_inj in H; injection H; clear H; intros
         end.

Lemma btoa_inj s t : btoa s = btoa t → s = t.
Proof.
  revert t. induction s as [|a|a b|a b c r IH] using string_ind3;
    intros [|a' [|b' [|c' r']]] H; try done; bytes;
    cbn [btoa enc1 enc2 enc3] in H;
    cbv beta iota fix delta [String.append] in H;
    try discriminate H; digits; subst; try done.
  f_equal. f_equal. f_equal. by apply IH.
Qed.

End Base64Facts.

(** ** Event identity *)

Section Identity.
Import TextFacts.

Context {engine : Engine.t}.

(** Two ids are equal exactly when the encoded keys are. *)
Lemma generateEventId_key n1 d1 n2 d2 :
  generateEventId n1 d1 = generateEventId n2 d2 ↔ idKey n1 d1 = idKey n2 d2.
Proof.
  unfold generateEventId. split; [apply Base64Facts.btoa_inj|by intros ->].
Qed.

(** C2, as the code has it, for every engine.  The normalised name is
    [name.toLowerCase().trim()].  Equal normalised names and equal start
    dates give equal ids; ids coincide exactly when the keys, normalised
    name, dash, start date, coincide; hence two pairs that differ in one
    component only get different ids. *)
Theorem generateEventId_identity n1 d1 n2 d2 :
  (Engine.trim (Engine.toLowerCase n1) = Engine.trim (Engine.toLowerCase n2) →
   d1 = d2 →
   generateEventId n1 d1 = generateEventId n2 d2) ∧
  (generateEventId n1 d1 = generateEventId n2 d2 ↔
   Engine.trim (Engine.toLowerCase n1) +:+ "-" +:+ d1
   = Engine.trim (Engine.toLowerCase n2) +:+ "-" +:+ d2) ∧
  (Engine.trim (Engine.toLowerCase n1) ≠ Engine.trim (Engine.toLowerCase n2) →
   d1 = d2 →
   generateEventId n1 d1 ≠ generateEventId n2 d2) ∧
  (Engine.trim (Engine.toLowerCase n1) = Engine.trim (Engine.toLowerCase n2) →
   d1 ≠ d2 →
   generateEventId n1 d1 ≠ generateEventId n2 d2).
Proof.
  rewrite generateEventId_key. unfold idKey.
  repeat split.
  - by intros -> ->.
  - done.
  - done.
  - intros Hn -> H. apply Hn. by apply append_inv_tail in H.
  - intros -> Hd H. apply Hd. by do 2 apply append_inv_head in H.
Qed.

End Identity.

Lemma generateEventId_identity_witness :
  generateEventId " Food Expo" "2025-03-01" = generateEventId "food expo " "2025-03-01" ∧
  generateEventId "Food Expo" "2025-03-01" ≠ generateEventId "Food Fair" "2025-03-01" ∧
  generateEventId "Food Expo" "2025-03-01" ≠ generateEventId "Food Expo" "2025-03-02".
Proof.
  destruct (generateEventId_identity " Food Expo" "2025-03-01" "food expo " "2025-03-01")
    as (Hsame & _).
  destruct (generateEventId_identity "Food Expo" "2025-03-01" "Food Fair" "2025-03-01")
    as (_ & _ & Hname & _).
  destruct (generateEventId_identity "Food Expo" "2025-03-01" "Food Expo" "2025-03-02")
    as (_ & _ & _ & Hdate).
  split; [|split].
  - apply Hsame; reflexivity.
  - apply Hname; [vm_compute; discriminate|reflexivity].
  - apply Hdate; [reflexivity|discriminate].
Defined.

(** On ASCII text the two orders of lower-casing and trimming give the
    same normalised name. *)
Lemma ascii_normalised_name name :
  Text.toLowerCase (Text.trim name) = Engine.trim (Engine.toLowerCase name).
Proof. apply TextFacts.toLowerCase_trim. Qed.

(** Two pairs that differ in both components and share an id: the dash
    that joins name and date can also occur inside either.  The names are
    ASCII, on which every engine computes what [Text] computes. *)
Lemma generateEventId_collision :
  Text.toLowerCase (Text.trim "Fair") ≠ Text.toLowerCase (Text.trim "Fair-2025") ∧
  Text.trim (Text.toLowerCase "Fair") ≠ Text.trim (Text.toLowerCase "Fair-2025") ∧
  "2025-01-01" ≠ "01-01" ∧
  generateEventId "Fair" "2025-01-01" = generateEventId "Fair-2025" "01-01".
Proof. by vm_compute. Qed.

(** ** Venue re-matching in list discovery *)

Section VenueMatching.
Import Text.






Lemma matchLoop_elem venueName vs d :
  matchLoop venueName vs d = d ∨ ∃ v, matchLoop venueName vs d = Some v ∧ v ∈ vs.
Proof.
  induction vs as [|u vs IH]; simpl; [by left|].
  destruct (venueHit venueName u).
  - right. exists u. split; [done|apply list_elem_of_here].
  - destruct IH as [IH|(v & IH & Hv)]; [by left|].
    right. exists v. split; [done|by apply list_elem_of_further].
Qed.

Lemma venues_nonempty country : ∃ v rest, venues country = v :: rest.
Proof. destruct country; vm_compute; eauto. Qed.



Lemma venues_table country :
  venues country =
  match country with
  | Thailand => [Impact; Bitec; Qsncc]
  | Malaysia => [Klcc; Mitec; Spice; Pwcc]
  | Singapore => [Expo; Mbs]
  | Indonesia => [Jcc; Jiexpo; Ice]
  | Philippines => [Smx; WtcManila]
  | Vietnam => [Secc; IceHanoi]
  | UAE => [Dwtc]
  | Germany => [MesseFrankfurt; MesseBerlin; MesseMunchen; Koelnmesse]
  | Australia => [IccSydney; Mcec]
  | Europe => [MesseFrankfurt; MesseBerlin; MesseMunchen;
               FiraBarcelona; ParisNord; RaiAmsterdam]
  end.
Proof. by destruct country. Qed.

Lemma matchVenue_valid country venueName :
  ∃ v, matchVenue country venueName = Some v ∧ v ∈ venues country.
Proof.
  unfold matchVenue.
  destruct (venues_nonempty country) as (v0 & rest & E). rewrite E.
  destruct (matchLoop_elem venueName (v0 :: rest) (head (v0 :: rest)))
    as [->|(v & -> & Hv)].
  - exists v0. split; [done|apply list_elem_of_here].
  - by exists v.
Qed.

(** C9.  Whatever the payload, a returned event carries the requested
    country and a venue that the keyword filter keeps for that country;
    country by country, these are the venues listed here and no other. *)
Theorem searchEventList_country_venue country backend events e :
  searchEventList country backend = Returned events →
  e ∈ events →
  BaseEvent.country e = country ∧
  ∃ v, BaseEvent.venue e = Some v ∧
       v ∈ venues country ∧
       v ∈ match country with
           | Thailand => [Impact; Bitec; Qsncc]
           | Malaysia => [Klcc; Mitec; Spice; Pwcc]
           | Singapore => [Expo; Mbs]
           | Indonesia => [Jcc; Jiexpo; Ice]
           | Philippines => [Smx; WtcManila]
           | Vietnam => [Secc; IceHanoi]
           | UAE => [Dwtc]
           | Germany => [MesseFrankfurt; MesseBerlin; MesseMunchen; Koelnmesse]
           | Australia => [IccSydney; Mcec]
           | Europe => [MesseFrankfurt; MesseBerlin; MesseMunchen;
                        FiraBarcelona; ParisNord; RaiAmsterdam]
           end.
Proof.
  intros Hret He.
  assert (∃ item, e = toBaseEvent country item) as [item ->].
  { destruct backend as [| |[|rawData]]; simplify_eq/=.
    - by apply elem_of_nil in He.
    - apply list_elem_of_fmap in He as (item & -> & _). by exists item. }
  split; [done|]. simpl.
  destruct (matchVenue_valid country (RawEvent.venueName item)) as (v & Hv & Hin).
  exists v. split; [done|]. split; [done|]. by rewrite <- venues_table.
Qed.

(** Four items for Thailand: a text that names the second venue, a text
    that names none, an empty text and no text. *)
Lemma searchEventList_country_venue_witness :
  BaseEvent.venue
    (toBaseEvent Thailand
       (RawEvent.mk (Some "Metalex") "2026-11-18" "2026-11-21"
          (Some "BITEC Bangna Hall 5") None)) = Some Bitec ∧
  BaseEvent.country
    (toBaseEvent Thailand
       (RawEvent.mk (Some "Metalex") "2026-11-18" "2026-11-21"
          (Some "BITEC Bangna Hall 5") None)) = Thailand ∧
  ∃ v, BaseEvent.venue
         (toBaseEvent Thailand
            (RawEvent.mk (Some "Metalex") "2026-11-18" "2026-11-21"
               (Some "BITEC Bangna Hall 5") None)) = Some v ∧
       v ∈ venues Thailand ∧
       v ∈ [Impact; Bitec; Qsncc].
Proof.
  split; [reflexivity|].
  apply (searchEventList_country_venue Thailand
           (Answered (Items [RawEvent.mk (Some "Metalex") "2026-11-18" "2026-11-21"
                               (Some "BITEC Bangna Hall 5") None;
                             RawEvent.mk (Some "ProPak Asia") "2026-06-10" "2026-06-13"
                               (Some "Somewhere in Bangkok") None;
                             RawEvent.mk (Some "Thaifex") "2026-05-26" "2026-05-30"
                               (Some "") None;
                             RawEvent.mk (Some "Motor Expo") "2026-11-28" "2026-12-10"
                               None None]))
           (map (toBaseEvent Thailand)
              [RawEvent.mk (Some "Metalex") "2026-11-18" "2026-11-21"
                 (Some "BITEC Bangna Hall 5") None;
               RawEvent.mk (Some "ProPak Asia") "2026-06-10" "2026-06-13"
                 (Some "Somewhere in Bangkok") None;
               RawEvent.mk (Some "Thaifex") "2026-05-26" "2026-05-30"
                 (Some "") None;
               RawEvent.mk (Some "Motor Expo") "2026-11-28" "2026-12-10"
                 None None])).
  - reflexivity.
  - apply list_elem_of_here.
Defined.

End VenueMatching.

(** ** Deduplication and append *)

Section DedupAppend.

Context {engine : Engine.t}.

Lemma lowerName_named (c : CompanyInfo.t) n :
  CompanyInfo.name c = Some n → lowerName c = Some (Engine.toLowerCase n).
Proof. unfold lowerName. by intros ->. Qed.

Lemma mapM_lowerName_named (cs : list CompanyInfo.t) :
  Forall (λ c, is_Some (CompanyInfo.name c)) cs →
  ∃ names, mapM lowerName cs = Some names ∧ Some <$> names = lowerName <$> cs.
Proof.
  induction 1 as [|c cs [n Hn] _ (names & IH & Hnames)]; [by exists []|].
  exists (Engine.toLowerCase n :: names). cbn.
  rewrite (lowerName_named c n Hn), IH, Hnames. by cbn.
Qed.

Lemma newUnique_named (names : gset string) (batch : list CompanyInfo.t) :
  Forall (λ c, is_Some (CompanyInfo.name c)) batch →
  newUnique names batch =
  Some (List.filter
          (λ c, match lowerName c with
                | Some n => negb (bool_decide (n ∈ names))
                | None => true
                end) batch).
Proof.
  induction 1 as [|c cs [n Hn] _ IH]; [done|].
  cbn. rewrite (lowerName_named c n Hn), IH. cbn. by case_bool_decide.
Qed.

(** For companies that carry a name the append keeps the event's
    companies as they are and adds behind them the batch entries whose
    lower-cased name is not the lower-cased name of one of them, in batch
    order, repeats inside the batch included. *)
Lemma dedupAppend_named (e : EventData.t) (batch : list CompanyInfo.t) :
  Forall (λ c, is_Some (CompanyInfo.name c)) (EventData.companies e) →
  Forall (λ c, is_Some (CompanyInfo.name c)) batch →
  dedupAppend e batch =
  Some (EventData.with_companies e
          (EventData.companies e ++
           List.filter
             (λ c, negb (bool_decide (lowerName c ∈ lowerName <$> EventData.companies e)))
             batch)).
Proof.
  intros He Hb. unfold dedupAppend, existingNames.
  destruct (mapM_lowerName_named _ He) as (names & -> & Hnames). cbn.
  rewrite newUnique_named by done. cbn. do 3 f_equal.
  clear He. induction Hb as [|c cs [n Hn] _ IH]; [done|].
  simpl. rewrite IH, (lowerName_named c n Hn), <- Hnames.
  rewrite (bool_decide_ext (Engine.toLowerCase n ∈ (list_to_set names : gset string))
             (Some (Engine.toLowerCase n) ∈ Some <$> names)); [done|].
  rewrite elem_of_list_to_set. split.
  - intros Hin. apply list_elem_of_fmap. by exists (Engine.toLowerCase n).
  - by intros (m & [= ->] & Hin)%list_elem_of_fmap.
Qed.

Lemma mapM_lowerName_nameless (cs : list CompanyInfo.t) c :
  c ∈ cs → CompanyInfo.name c = None → mapM lowerName cs = None.
Proof.
  intros Hc Hn. destruct (mapM lowerName cs) as [names|] eqn:E; [|done].
  apply mapM_Some in E.
  apply list_elem_of_lookup in Hc as [i Hi].
  destruct (Forall2_lookup_l _ _ _ _ _ E Hi) as (n & _ & Hlow).
  unfold lowerName in Hlow. by rewrite Hn in Hlow.
Qed.

Lemma newUnique_nameless (names : gset string) (batch : list CompanyInfo.t) c :
  c ∈ batch → CompanyInfo.name c = None → newUnique names batch = None.
Proof.
  intros Hc Hn. induction batch as [|d batch IH]; [by apply elem_of_nil in Hc|].
  apply elem_of_cons in Hc as [<-|Hc]; cbn.
  - unfold lowerName. by rewrite Hn.
  - rewrite (IH Hc). by destruct (lowerName d).
Qed.

Lemma dedupAppend_grows e more e' :
  dedupAppend e more = Some e' →
  EventData.id e' = EventData.id e ∧
  EventData.with_companies e (EventData.companies e') = e' ∧
  EventData.companies e `prefix_of` EventData.companies e'.
Proof.
  unfold dedupAppend. destruct (existingNames (EventData.companies e)) as [names|];
    [|done]. cbn.
  destruct (newUnique names more) as [fresh|]; [|done]. cbn. intros [= <-].
  split; [done|]. split; [done|]. simpl. by eexists.
Qed.

(** What an update of a deep search keeps of every entry. *)
Lemma updatedEvents_keeps prev id moreCompanies updated :
  updatedEvents prev id moreCompanies = Some updated →
  Forall2 (λ e e', EventData.id e' = EventData.id e ∧
                   (EventData.id e ≠ id → e' = e) ∧
                   EventData.with_companies e (EventData.companies e') = e' ∧
                   EventData.companies e `prefix_of` EventData.companies e')
          prev updated.
Proof.
  unfold updatedEvents. intros Hmap%mapM_Some.
  induction Hmap as [|e e' prev updated He _ IH]; constructor; [|done].
  case_bool_decide as Hid.
  - apply dedupAppend_grows in He as (? & ? & ?). by repeat split.
  - injection He as <-. split; [done|]. split; [done|]. split; [by destruct e|done].
Qed.

(** The updater raises when the append does on an entry with the searched
    id. *)
Lemma updatedEvents_raises prev id moreCompanies e :
  e ∈ prev → EventData.id e = id → dedupAppend e moreCompanies = None →
  updatedEvents prev id moreCompanies = None.
Proof.
  intros He Hid Hnone. unfold updatedEvents. apply mapM_None, Exists_exists.
  exists e. split; [done|]. by rewrite bool_decide_eq_true_2.
Qed.

(** C6.  The append reads [name.toLowerCase()] of every company of the
    event and of every entry of the batch.  When all of them carry a name
    it keeps the event's companies as they are and adds behind them the
    batch entries whose lower-cased name is not the lower-cased name of one
    of them, in batch order, repeats inside the batch included; this for
    every lower-casing of the engine.  When one of them has no name it
    raises and produces no list; shallow enrichment makes such a company
    from an exhibitor record without a name, so the append raises on an
    event it has enriched that way, whatever the batch. *)
Theorem dedupAppend_needs_names (e : EventData.t) (batch : list CompanyInfo.t) :
  (Forall (λ c, is_Some (CompanyInfo.name c)) (EventData.companies e) →
   Forall (λ c, is_Some (CompanyInfo.name c)) batch →
   dedupAppend e batch =
   Some (EventData.with_companies e
           (EventData.companies e ++
            List.filter
              (λ c, negb (bool_decide (lowerName c ∈ lowerName <$> EventData.companies e)))
              batch))) ∧
  (∀ c, c ∈ EventData.companies e ++ batch → CompanyInfo.name c = None →
        dedupAppend e batch = None) ∧
  (enrichEventDetails (Answered namelessPayload) =
     Returned [CompanyInfo.mk None (Some "sales@example.com") None "Exhibitor"] ∧
   dedupAppend
     (EventData.with_companies e
        [CompanyInfo.mk None (Some "sales@example.com") None "Exhibitor"])
     batch = None).
Proof.
  split; [apply dedupAppend_named|]. split; [|by split].
  intros c [Hc|Hc]%elem_of_app Hn; unfold dedupAppend, existingNames.
  - by rewrite (mapM_lowerName_nameless _ c Hc Hn).
  - destruct (mapM lowerName (EventData.companies e)) as [names|]; [|done]. cbn.
    by rewrite (newUnique_nameless _ _ c Hc Hn).
Qed.

End DedupAppend.

(** The example of the specification, and the same event once shallow
    enrichment has added a company without a name. *)
Lemma dedupAppend_needs_names_witness :
  dedupAppend (sampleEvent [company "Acme"]) [company "acme"; company "Beta"] =
    Some (sampleEvent [company "Acme"; company "Beta"]) ∧
  dedupAppend
    (sampleEvent [company "Acme";
                  CompanyInfo.mk None (Some "sales@example.com") None "Exhibitor"])
    [company "acme"; company "Beta"] = None.
Proof.
  destruct (dedupAppend_needs_names (sampleEvent [company "Acme"])
              [company "acme"; company "Beta"]) as (Hnamed & _ & _).
  destruct (dedupAppend_needs_names
              (sampleEvent [company "Acme";
                            CompanyInfo.mk None (Some "sales@example.com") None "Exhibitor"])
              [company "acme"; company "Beta"]) as (_ & Hnone & _).
  split.
  - rewrite Hnamed.
    + reflexivity.
    + repeat constructor; by eexists.
    + repeat constructor; by eexists.
  - apply (Hnone (CompanyInfo.mk None (Some "sales@example.com") None "Exhibitor")).
    + apply list_elem_of_further, list_elem_of_here.
    + reflexivity.
Defined.

(** Repeats inside one batch stay. *)
Example dedupAppend_batch_repeats :
  dedupAppend (sampleEvent [company "Acme"]) [company "Beta"; company "beta"] =
  Some (sampleEvent [company "Acme"; company "Beta"; company "beta"]).
Proof. reflexivity. Qed.

(** ** The catalog merge *)

Section MergeFacts.

Variable getTime : string → option Z.

Lemma insertBy_Permutation {A} (cmp : A → A → Z) x l :
  insertBy cmp x l ≡ₚ x :: l.
Proof.
  induction l as [|y r IH]; simpl; [done|].
  destruct (cmp x y <=? 0)%Z; [done|]. rewrite IH. apply Permutation_swap.
Qed.

(** Sorting moves entries, it neither drops nor adds any. *)
Lemma sortBy_Permutation {A} (cmp : A → A → Z) l : sortBy cmp l ≡ₚ l.
Proof.
  induction l as [|x l IH]; simpl; [done|].
  by rewrite insertBy_Permutation, IH.
Qed.

Lemma replaceCountry_Permutation prev country merged :
  replaceCountry getTime prev country merged ≡ₚ others prev country ++ merged.
Proof. apply sortBy_Permutation. Qed.

Lemma insertBy_Sorted {A} (cmp : A → A → Z) x l :
  (∀ a b, (0 < cmp a b)%Z → (cmp b a ≤ 0)%Z) →
  Sorted (λ a b, (cmp a b ≤ 0)%Z) l →
  Sorted (λ a b, (cmp a b ≤ 0)%Z) (insertBy cmp x l).
Proof.
  intros Htot. induction 1 as [|y r Hr IH Hy]; simpl.
  - by repeat constructor.
  - destruct (Z.leb_spec (cmp x y) 0) as [Hle|Hgt].
    + constructor; [by constructor|by constructor].
    + constructor; [done|].
      destruct Hy as [|z r' Hz]; simpl.
      * constructor. by apply Htot.
      * destruct (cmp x z <=? 0)%Z; constructor; [by apply Htot|done].
Qed.

Lemma sortBy_Sorted {A} (cmp : A → A → Z) l :
  (∀ a b, (0 < cmp a b)%Z → (cmp b a ≤ 0)%Z) →
  Sorted (λ a b, (cmp a b ≤ 0)%Z) (sortBy cmp l).
Proof.
  intros Htot. induction l as [|x l IH]; simpl; [constructor|].
  by apply insertBy_Sorted.
Qed.

Lemma compareStart_total a b :
  (0 < compareStart getTime a b)%Z → (compareStart getTime b a ≤ 0)%Z.
Proof.
  unfold compareStart.
  destruct (getTime (EventData.dateStart a)), (getTime (EventData.dateStart b)); lia.
Qed.

(** When every start date is a valid date, the catalog a merge phase
    produces is in ascending order of start date. *)
Lemma replaceCountry_sorted prev country merged :
  Forall (λ e, is_Some (getTime (EventData.dateStart e)))
         (others prev country ++ merged) →
  Sorted (startsNoLater getTime) (replaceCountry getTime prev country merged).
Proof.
  intros Hvalid.
  assert (Forall (λ e, is_Some (getTime (EventData.dateStart e)))
                 (replaceCountry getTime prev country merged)) as Hall.
  { by rewrite replaceCountry_Permutation. }
  pose proof (sortBy_Sorted (compareStart getTime) (others prev country ++ merged)
                compareStart_total) as Hs.
  fold (replaceCountry getTime prev country merged) in Hs.
  clear Hvalid. induction Hs as [|a l Hl IH Ha]; [constructor|].
  apply Forall_cons in Hall as [[ta Hta] Hall]. constructor; [by apply IH|].
  destruct Ha as [|b l' Hab]; constructor.
  apply Forall_cons in Hall as [[tb Htb] _].
  exists ta, tb. unfold compareStart in Hab. rewrite Hta, Htb in Hab.
  repeat split; [done..|lia].
Qed.

(** The ids after a merge phase are those of the kept entries and of the
    fresh ones, so they are pairwise distinct exactly when those are. *)
Lemma replaceCountry_NoDup prev country merged :
  NoDup (EventData.id <$> replaceCountry getTime prev country merged) ↔
  NoDup ((EventData.id <$> others prev country) ++ (EventData.id <$> merged)).
Proof. by rewrite replaceCountry_Permutation, fmap_app. Qed.

End MergeFacts.

(** ** Phase 1: new flags and carried companies *)

Section PhaseOne.

Context {engine : Engine.t}.

Lemma foldl_insert_absent (l : Catalog) (m : gmap string EventData.t) k :
  (∀ e, e ∈ l → EventData.id e ≠ k) →
  foldl (λ m e, <[EventData.id e := e]> m) m l !! k = m !! k.
Proof.
  revert m. induction l as [|x l IH]; intros m H; simpl; [done|].
  rewrite IH.
  - apply lookup_insert_ne, H, list_elem_of_here.
  - intros e He. by apply H, list_elem_of_further.
Qed.

Lemma foldl_insert_last (pre post : Catalog) e (m : gmap string EventData.t) :
  (∀ e', e' ∈ post → EventData.id e' ≠ EventData.id e) →
  foldl (λ m e, <[EventData.id e := e]> m) m (pre ++ e :: post)
    !! EventData.id e = Some e.
Proof.
  intros H. rewrite foldl_app. simpl.
  rewrite foldl_insert_absent by done. apply lookup_insert_eq.
Qed.

Lemma id_occurs_or_not (l : Catalog) k :
  (∃ e, e ∈ l ∧ EventData.id e = k) ∨ (∀ e, e ∈ l → EventData.id e ≠ k).
Proof.
  destruct (decide (k ∈ EventData.id <$> l)) as [Hin|Hout].
  - left. apply list_elem_of_fmap in Hin as (e & -> & He). eauto.
  - right. intros e He <-. apply Hout. by apply list_elem_of_fmap_2.
Qed.

(** An id that occurs in a catalog has a last occurrence. *)
Lemma last_occurrence (l : Catalog) k :
  (∃ e, e ∈ l ∧ EventData.id e = k) →
  ∃ pre e post, l = pre ++ e :: post ∧ EventData.id e = k ∧
                ∀ e', e' ∈ post → EventData.id e' ≠ k.
Proof.
  induction l as [|x l IH]; intros (e & He & Hk).
  { by apply elem_of_nil in He. }
  destruct (id_occurs_or_not l k) as [Hin|Hout].
  - destruct (IH Hin) as (pre & e' & post & -> & ? & ?).
    by exists (x :: pre), e', post.
  - apply elem_of_cons in He as [->|He]; [|by destruct (Hout e He)].
    by exists [], x, l.
Qed.

Lemma existingEventsMap_None events k :
  existingEventsMap events !! k = None ↔ ∀ e, e ∈ events → EventData.id e ≠ k.
Proof.
  unfold existingEventsMap. split.
  - intros Hnone e He Hk.
    destruct (last_occurrence events k) as (pre & e' & post & -> & <- & Hpost);
      [by eauto|].
    by rewrite foldl_insert_last in Hnone.
  - intros H. by rewrite foldl_insert_absent.
Qed.

(** What the merge makes of a delivered event: the record carries the
    computed id; its [isNew] flag is true exactly when no entry of the
    catalog the handler closed over has that id; its companies are empty
    in that case, and otherwise those of the entry with that id (the last
    one, should that catalog hold several). *)
Lemma mergeOne_closure (events : Catalog) base m :
  mergeOne (existingEventsMap events) base = Some m →
  ∃ name, BaseEvent.name base = Some name ∧
    EventData.id m = generateEventId name (BaseEvent.dateStart base) ∧
    (EventData.isNew m = Some true ↔ ∀ e, e ∈ events → EventData.id e ≠ EventData.id m) ∧
    (EventData.isNew m = Some false ↔ ∃ e, e ∈ events ∧ EventData.id e = EventData.id m) ∧
    ((∀ e, e ∈ events → EventData.id e ≠ EventData.id m) → EventData.companies m = []) ∧
    (∀ pre e post,
        events = pre ++ e :: post →
        EventData.id e = EventData.id m →
        (∀ e', e' ∈ post → EventData.id e' ≠ EventData.id m) →
        EventData.companies m = EventData.companies e).
Proof.
  unfold mergeOne. destruct (BaseEvent.name base) as [name|]; [|done].
  intros [= <-]. exists name. split; [done|]. split; [done|]. simpl.
  set (k := generateEventId name (BaseEvent.dateStart base)).
  pose proof (existingEventsMap_None events k) as Hnone.
  destruct (existingEventsMap events !! k) as [x|] eqn:Hk.
  - assert (∃ e, e ∈ events ∧ EventData.id e = k) as Hex.
    { destruct (id_occurs_or_not events k) as [|Hno]; [done|].
      assert (Some x = None) as [=]. by apply Hnone. }
    split; [split; [done|]|].
    { intros Hall. destruct Hex as (e & He & Hid). by destruct (Hall e He). }
    split; [by split|]. split.
    { intros Hall. destruct Hex as (e & He & Hid). by destruct (Hall e He). }
    intros pre e post -> Hid Hpost. unfold existingEventsMap in Hk.
    rewrite <- Hid in Hk, Hpost. rewrite foldl_insert_last in Hk by done.
    by injection Hk as ->.
  - assert (∀ e, e ∈ events → EventData.id e ≠ k) as Hall by by apply Hnone.
    split; [by split|]. split; [split; [done|]|].
    { intros (e & He & Hid). by destruct (Hall e He). }
    split; [done|].
    intros pre e post -> Hid _. destruct (Hall e); [|done].
    apply elem_of_app. right. apply list_elem_of_here.
Qed.

Lemma mergedEvents_lookup (events : Catalog) basicList merged i base :
  mergedEvents events basicList = Some merged →
  basicList !! i = Some base →
  ∃ m, merged !! i = Some m ∧ mergeOne (existingEventsMap events) base = Some m.
Proof.
  unfold mergedEvents. intros Hm%mapM_Some Hbase.
  destruct (Forall2_lookup_l _ _ _ _ _ Hm Hbase) as (m & ? & ?). by exists m.
Qed.

Lemma mergedEvents_length (events : Catalog) basicList merged :
  mergedEvents events basicList = Some merged → length merged = length basicList.
Proof.
  unfold mergedEvents. intros Hm%mapM_Some. symmetry. by eapply Forall2_length.
Qed.

(** The merge returns exactly when every delivered event has a name. *)
Lemma mergedEvents_is_Some (events : Catalog) basicList :
  is_Some (mergedEvents events basicList) ↔
  Forall (λ b, is_Some (BaseEvent.name b)) basicList.
Proof.
  unfold mergedEvents. rewrite mapM_is_Some. apply Forall_iff. intros b.
  unfold compose, mergeOne.
  destruct (BaseEvent.name b) as [n|]; split; intros [x Hx]; try done; by eexists.
Qed.

Lemma grownFrom_refl e : grownFrom e e.
Proof. split; [by destruct e|done]. Qed.

Lemma grownFrom_trans x y z : grownFrom x y → grownFrom y z → grownFrom x z.
Proof.
  intros [Hxy Hpre] [Hyz Hpre']. split; [|by etrans].
  rewrite <- Hyz, <- Hxy. reflexivity.
Qed.

Lemma Forall2_grownFrom_trans (l1 l2 l3 : Catalog) :
  Forall2 grownFrom l1 l2 → Forall2 grownFrom l2 l3 → Forall2 grownFrom l1 l3.
Proof.
  intros H12. revert l3.
  induction H12 as [|x y l1 l2 Hxy _ IH]; intros l3 H23;
    inversion H23 as [|y' z l2' l3' Hyz H23']; subst; constructor.
  - by eapply grownFrom_trans.
  - by apply IH.
Qed.

(** Deep searches change no id, no country and no date: they leave every
    entry in its place and add companies behind those it has. *)
Lemma interleaved_keeps (a b : App.t) :
  interleaved a b →
  App.activeCountry b = App.activeCountry a ∧
  Forall2 grownFrom (App.events a) (App.events b).
Proof.
  induction 1 as [a|a b c (event & backend & Hab) _ [IHc IH]].
  - split; [done|]. apply Forall_Forall2_diag, Forall_forall. intros e _.
    apply grownFrom_refl.
  - assert (App.activeCountry b = App.activeCountry a ∧
            Forall2 grownFrom (App.events a) (App.events b)) as [Hc Hab'].
    { unfold handleDeepSearchEvent in Hab.
      destruct (findExtendedExhibitors backend) as [err|more].
      - injection Hab as <-. split; [done|].
        apply Forall_Forall2_diag, Forall_forall. intros e _. apply grownFrom_refl.
      - destruct (updatedEvents (App.events a) (EventData.id event) more)
          as [updated|] eqn:Hup; [|done].
        injection Hab as <-. split; [done|]. simpl.
        apply updatedEvents_keeps in Hup.
        eapply Forall2_impl; [exact Hup|]. by intros e e' (_ & _ & ? & ?). }
    split; [congruence|]. by eapply Forall2_grownFrom_trans.
Qed.

Lemma interleaved_ids (a b : App.t) :
  interleaved a b → EventData.id <$> App.events b = EventData.id <$> App.events a.
Proof.
  intros [_ H]%interleaved_keeps.
  induction H as [|e e' l l' [He _] _ IH]; [done|].
  rewrite !fmap_cons, IH. f_equal. rewrite <- He. by destruct e.
Qed.

(** Under the writes of deep searches the [isNew] flag is also right for
    the live catalog. *)
Lemma isNew_live (st live : App.t) base m :
  interleaved st live →
  mergeOne (existingEventsMap (App.events st)) base = Some m →
  (EventData.isNew m = Some true ↔
   ∀ e, e ∈ App.events live → EventData.id e ≠ EventData.id m).
Proof.
  intros Hids%interleaved_ids (name & _ & _ & Hnew & _)%mergeOne_closure.
  rewrite Hnew. split; intros H e He Hid.
  - assert (EventData.id e ∈ EventData.id <$> App.events live) as Hin
      by by apply list_elem_of_fmap_2.
    rewrite Hids in Hin. apply list_elem_of_fmap in Hin as (e0 & He0 & Hin).
    apply (H e0 Hin). congruence.
  - assert (EventData.id e ∈ EventData.id <$> App.events st) as Hin
      by by apply list_elem_of_fmap_2.
    rewrite <- Hids in Hin. apply list_elem_of_fmap in Hin as (e0 & He0 & Hin).
    apply (H e0 Hin). congruence.
Qed.

(** When nothing has written the catalog since the handler was created,
    Phase 1 gives each delivered event the flag and the companies that the
    catalog before the merge calls for, and publishes the record. *)
Lemma phase1_undisturbed getTime (st : App.t) backend st1 merged :
  searchStart getTime st st backend = Proceeding st1 merged →
  ∃ basicList,
    searchEventList (App.activeCountry st) backend = Returned basicList ∧
    ∀ i base, basicList !! i = Some base →
      ∃ m, merged !! i = Some m ∧ m ∈ App.events st1 ∧
           mergeOne (existingEventsMap (App.events st)) base = Some m.
Proof.
  unfold searchStart.
  destruct (searchEventList (App.activeCountry st) backend) as [err|[|b l]] eqn:Hlist;
    try done.
  destruct (mergedEvents (App.events st) (b :: l)) as [merged'|] eqn:Hm; [|done].
  intros [= <- <-]. exists (b :: l). split; [done|]. intros i base Hbase.
  destruct (mergedEvents_lookup _ _ _ _ _ Hm Hbase) as (m & Hi & Hone).
  exists m. split; [done|]. split; [|done]. simpl.
  rewrite replaceCountry_Permutation. apply elem_of_app. right.
  by eapply list_elem_of_lookup_2.
Qed.

End PhaseOne.

Section StaleClosure.

Variable getTime : string → option Z.

(** C3 on one input.  The catalog holds the expo with three companies when
    the search is started.  While list discovery is awaited a deep search
    on the expo completes and adds a fourth.  Phase 1 then finds the expo
    in the reply: the record it makes is marked as not new, but it carries
    the three companies of the catalog the handler closed over, not the
    four of the entry that the catalog holds immediately before the merge,
    and the catalog it publishes has lost the fourth. *)
Theorem phase1_carries_stale_companies :
  ∃ live st1 e m,
    handleDeepSearchEvent (freshApp Thailand [priorExpo]) priorExpo
      (Answered (Items [RawContact.mk (Some "Delta") None None None])) = Some live ∧
    App.events live = [e] ∧
    searchStart getTime (freshApp Thailand [priorExpo]) live
      (Answered (Items [rawExpo])) = Proceeding st1 [m] ∧
    EventData.id e = EventData.id m ∧
    EventData.isNew m = Some false ∧
    EventData.companies e =
      [company "Acme"; company "Beta"; company "Gamma"; company "Delta"] ∧
    EventData.companies m = [company "Acme"; company "Beta"; company "Gamma"] ∧
    EventData.companies m ≠ EventData.companies e ∧
    App.events st1 = [m].
Proof.
  eexists _, _, _, _.
  split; [reflexivity|]. split; [reflexivity|]. split; [reflexivity|].
  split; [reflexivity|]. split; [reflexivity|]. split; [reflexivity|].
  split; [reflexivity|]. split; [discriminate|reflexivity].
Qed.

End StaleClosure.

(** ** One entry per id *)

Section OneEntryPerId.

Context {engine : Engine.t}.

Variable getTime : string → option Z.

Lemma sortBy_pair_ids (a b : EventData.t) k :
  EventData.id a = k → EventData.id b = k →
  EventData.id <$> sortBy (compareStart getTime) [a; b] = [k; k].
Proof.
  intros <- Hb. simpl. destruct (compareStart getTime a b <=? 0)%Z; simpl; by rewrite Hb.
Qed.

Lemma repeated_id_not_NoDup (k : string) : ¬ NoDup [k; k].
Proof. intros H. apply NoDup_cons in H as [H _]. apply H, list_elem_of_here. Qed.

(** C1 on two inputs, for every engine, with nothing else writing the
    catalog.  A fresh list that names the same event twice, and a catalog
    that holds the id of a fresh event under another country, both leave
    the Phase-1 catalog with two entries of one id. *)
Theorem merge_phase_repeats_id :
  (∃ st merged,
      searchStart getTime (freshApp Thailand []) (freshApp Thailand [])
        (Answered (Items [rawExpo; rawExpo]))
      = Proceeding st merged ∧
      EventData.id <$> App.events st = [expoId; expoId] ∧
      ¬ NoDup (EventData.id <$> App.events st)) ∧
  (∃ st merged,
      searchStart getTime (freshApp Thailand [expoInMalaysia])
        (freshApp Thailand [expoInMalaysia]) (Answered (Items [rawExpo]))
      = Proceeding st merged ∧
      EventData.id <$> App.events st = [expoId; expoId] ∧
      ¬ NoDup (EventData.id <$> App.events st)).
Proof.
  assert (∀ a b : EventData.t,
             EventData.id a = expoId → EventData.id b = expoId →
             EventData.id <$> sortBy (compareStart getTime) [a; b] = [expoId; expoId] ∧
             ¬ NoDup (EventData.id <$> sortBy (compareStart getTime) [a; b])) as Hpair.
  { intros a b Ha Hb. rewrite (sortBy_pair_ids a b expoId Ha Hb).
    split; [done|apply repeated_id_not_NoDup]. }
  split; eexists _, _; (split; [reflexivity|]); cbn [App.events];
    unfold replaceCountry; by apply Hpair.
Qed.

End OneEntryPerId.

(** ** A failed or empty list discovery *)

Section Abort.

Context {engine : Engine.t}.

Variable getTime : string → option Z.

(** C8.  When list discovery throws or returns no event, the run ends in
    the [catch]: there is exactly one outcome, in which the catalog and
    the stored blob are those from before the run, no enrichment call was
    made, and the error shown is the failure's message.  When deep searches
    complete while list discovery is awaited, the run still makes no call
    and writes neither the catalog nor the stored blob: they are as those
    deep searches left them. *)
Theorem handleSearch_abort st backend err :
  discoveryFailure (App.activeCountry st) backend = Some err →
  handleSearch getTime st backend [] (searchFailed st 0 err) ∧
  (∀ calls st', handleSearch getTime st backend calls st' →
    calls = [] ∧
    App.events st' = App.events st ∧
    App.localStorage st' = App.localStorage st ∧
    App.error st' = Some (errorText err)) ∧
  (∀ calls st', handleSearchAmid getTime st backend calls st' →
    calls = [] ∧
    App.error st' = Some (errorText err) ∧
    ∃ live, interleaved st live ∧
            App.events st' = App.events live ∧
            App.localStorage st' = App.localStorage live).
Proof.
  unfold discoveryFailure. intros Hfail.
  assert (∀ live, searchStart getTime st live backend
                  = Aborted (searchFailed live 0 err)) as Hstart.
  { intros live. unfold searchStart.
    destruct (searchEventList (App.activeCountry st) backend) as [e|[|b l]];
      by simplify_eq. }
  split; [by constructor|]. split.
  - intros calls st' Hrun. destruct Hrun as [st' H|st1 merged p H _ _].
    + rewrite Hstart in H. by injection H as <-.
    + by rewrite Hstart in H.
  - intros calls st' Hrun.
    destruct Hrun as [live st' Hlive H|live1 st1 merged live2 p _ H _ _ _].
    + rewrite Hstart in H. injection H as <-.
      split; [done|]. split; [done|]. by exists live.
    + by rewrite Hstart in H.
Qed.

End Abort.

Lemma handleSearch_abort_witness :
  (∀ calls st',
      handleSearch (λ _, None) (freshApp Thailand [expoInMalaysia])
        (Failed (ErrorObject "fetch failed")) calls st' →
      calls = [] ∧
      App.events st' = [expoInMalaysia] ∧
      App.localStorage st' = Some [expoInMalaysia] ∧
      App.error st' = Some "Search failed: fetch failed") ∧
  (∀ calls st',
      handleSearch (λ _, None) (freshApp Thailand [expoInMalaysia])
        (Answered (Items [])) calls st' →
      calls = [] ∧
      App.events st' = [expoInMalaysia] ∧
      App.localStorage st' = Some [expoInMalaysia] ∧
      App.error st' = Some "Search failed: No events found. Please try again.").
Proof.
  split.
  - apply (handleSearch_abort (λ _, None) (freshApp Thailand [expoInMalaysia])
             (Failed (ErrorObject "fetch failed")) (ErrorObject "fetch failed")).
    reflexivity.
  - apply (handleSearch_abort (λ _, None) (freshApp Thailand [expoInMalaysia])
             (Answered (Items []))
             (ErrorObject "No events found. Please try again.")).
    reflexivity.
Defined.


(** ** The enrichment workers *)

Section Scheduler.

Variable merged : list EventData.t.

Lemma seed_inv : pool_inv merged (seed merged).
Proof.
  exists 0. unfold pool_inv_at, seed. cbn [Pool.processQueue Pool.store
    Pool.invoked Pool.workers Pool.reported Pool.processedCount].
  rewrite Nat.sub_0_r.
  split; [lia|]. split; [done|]. split; [done|]. split; [done|].
  split; [constructor|]. split; [by intros i Hi%elem_of_nil|].
  split; [|done]. intros w i Hw.
  by apply lookup_replicate in Hw as [? _].
Qed.

Lemma tick_inv k p :
  pool_inv_at merged k p → pool_inv_at merged k (tick (length merged) p).
Proof.
  intros (Hk & Hq & Hid & Hst & Hnd & Hinv & Hw & Hrep).
  unfold pool_inv_at, tick.
  cbn [Pool.processQueue Pool.store Pool.invoked Pool.workers Pool.reported
       Pool.processedCount].
  repeat (split; [done|]).
  by rewrite seq_S, fmap_app, Hrep.
Qed.

(** Taking the head of the queue. *)
Lemma pop_inv k ws i rest st c r ev inv :
  pool_inv_at merged k (Pool.mk ws (i :: rest) st c r ev inv) →
  i = k ∧ pool_inv_at merged (S k) (Pool.mk ws rest st c r ev inv).
Proof.
  intros (Hk & Hq & Hid & Hst & Hnd & Hinv & Hw & Hrep). simpl in *.
  destruct (length merged - k) as [|m] eqn:Hm; [done|].
  simpl in Hq. injection Hq as -> ->. split; [done|].
  unfold pool_inv_at. simpl. split; [lia|]. split; [f_equal; lia|].
  split; [done|]. split; [intros i Hi; apply Hst; lia|].
  split; [done|]. split; [|done].
  intros i Hi. destruct (Hinv i Hi) as [? ?]. split; [lia|done].
Qed.

Lemma workerLoop_inv queue k p state p' :
  Pool.processQueue p = queue →
  pool_inv_at merged k p →
  workerLoop (length merged) queue p = (state, p') →
  pool_inv merged p' ∧
  Pool.workers p' = Pool.workers p ∧
  (∀ i, state = Awaiting i → i ∈ Pool.invoked p').
Proof.
  revert k p. induction queue as [|i rest IH];
    intros k [ws q st c r ev inv] Hq Hp Hloop; simpl in *; subst q.
  { injection Hloop as <- <-. split; [by exists k|done]. }
  pose proof Hp as (_ & _ & _ & Hst & _ & Hold & _).
  apply pop_inv in Hp as (-> & Hp).
  destruct (st !! k) as [event|] eqn:Hev.
  2:{ injection Hloop as <- <-. split; [by exists (S k)|done]. }
  destruct (EventData.companies event) as [|c0 cs] eqn:Hcs.
  - injection Hloop as <- <-. simpl. split; [|split; [done|]].
    + destruct Hp as (Hk & Hq & Hid & _ & Hnd & Hinv & Hw & Hrep).
      simpl in *. exists (S k). unfold pool_inv_at. simpl.
      split; [done|]. split; [done|]. split; [done|].
      split; [intros i Hi; apply Hst; lia|].
      split; [|split; [|split; [|done]]].
      * apply NoDup_app. split; [done|]. split; [|apply NoDup_singleton].
        intros j Hj ->%list_elem_of_singleton.
        destruct (Hold k Hj) as [? _]. lia.
      * intros j [Hj| ->%list_elem_of_singleton]%elem_of_app.
        { destruct (Hinv j Hj). split; [lia|done]. }
        split; [lia|]. exists event. split; [|done].
        rewrite <- Hev. symmetry. by apply Hst.
      * intros w j Hwj. apply elem_of_app. left. by eapply Hw.
    + intros j [= <-]. apply elem_of_app. right. apply list_elem_of_here.
  - apply (IH (S k) (tick (length merged) (Pool.mk ws rest st c r ev inv))) in Hloop;
      [done|done|by apply tick_inv].
Qed.

Lemma run_inv w p :
  pool_inv merged p → pool_inv merged (run (length merged) w p).
Proof.
  intros [k Hp]. unfold run.
  destruct (workerLoop (length merged) (Pool.processQueue p) p)
    as [state p'] eqn:Hloop.
  apply (workerLoop_inv _ k) in Hloop as ([k' Hp'] & Hws & Hstate); [|done..].
  destruct Hp' as (Hk & Hq & Hid & Hst & Hnd & Hinv & Hw & Hrep).
  exists k'. unfold pool_inv_at.
  cbn [Pool.processQueue Pool.store Pool.invoked Pool.workers Pool.reported
       Pool.processedCount].
  repeat (split; [done|]). split; [|done].
  intros w' i [(-> & Hs & _)|[_ Hl]]%list_lookup_insert_Some;
    [by apply Hstate|by eapply Hw].
Qed.

Lemma settle_inv i result p :
  pool_inv merged p → i ∈ Pool.invoked p →
  pool_inv merged (settle (length merged) i result p).
Proof.
  intros [k Hp] Hi. exists k. unfold settle. apply tick_inv.
  destruct result as [err|companies]; [done|].
  destruct Hp as (Hk & Hq & Hid & Hst & Hnd & Hinv & Hw & Hrep).
  unfold pool_inv_at.
  cbn [Pool.processQueue Pool.store Pool.invoked Pool.workers Pool.reported
       Pool.processedCount].
  split; [done|]. split; [done|]. split; [|split; [|done]].
  - rewrite <- Hid. apply list_eq. intros j.
    rewrite !list_lookup_fmap, list_lookup_alter.
    destruct (decide (i = j)) as [->|]; [|done]. by destruct (Pool.store p !! j).
  - intros j Hj. destruct (Hinv i Hi) as [? _].
    rewrite list_lookup_alter_ne by lia. by apply Hst.
Qed.

Lemma step_inv p p' :
  pool_inv merged p → step (length merged) p p' → pool_inv merged p'.
Proof.
  intros Hp Hstep. destruct Hstep as [w p Hw|w i backend p Hw].
  - by apply run_inv.
  - apply run_inv, settle_inv; [done|].
    destruct Hp as (k & _ & _ & _ & _ & _ & _ & Hwait & _). by eapply Hwait.
Qed.

Lemma reachable_inv p : reachable merged p → pool_inv merged p.
Proof.
  unfold reachable. intros Hrun.
  apply (rtc_ind_r (R := step (length merged)) (pool_inv merged) (seed merged));
    [apply seed_inv| |done].
  intros q q' _ Hstep IH. by eapply step_inv.
Qed.

(** C4.  In every state the three workers can reach, no event object was
    handed to shallow enrichment twice, and none whose companies were not
    empty when the queue was seeded was handed to it at all. *)
Theorem enrichment_at_most_once p :
  reachable merged p →
  NoDup (Pool.invoked p) ∧
  (∀ i, i ∈ Pool.invoked p → i < length merged) ∧
  (∀ i e, merged !! i = Some e → EventData.companies e ≠ [] →
          i ∉ Pool.invoked p).
Proof.
  intros (k & Hk & _ & _ & _ & Hnd & Hinv & _)%reachable_inv.
  split; [done|]. split.
  - intros i Hi. destruct (Hinv i Hi) as [? _]. lia.
  - intros i e He Hne Hi. destruct (Hinv i Hi) as (_ & e' & He' & Hempty).
    by simplify_eq.
Qed.

Lemma currentProgress_mono k n :
  (currentProgress k n <= currentProgress (S k) n)%Q.
Proof.
  unfold currentProgress, Qdiv.
  apply Qplus_le_r, Qmult_le_compat_r; [|done].
  apply Qmult_le_compat_r; [rewrite <- Zle_Qle; lia|].
  apply Qinv_le_0_compat. change 0%Q with (inject_Z 0). rewrite <- Zle_Qle. lia.
Qed.

End Scheduler.

Lemma enrichment_at_most_once_witness :
  NoDup (Pool.invoked (run 2 0 (seed [sampleEvent []; priorExpo]))) ∧
  (∀ i, i ∈ Pool.invoked (run 2 0 (seed [sampleEvent []; priorExpo])) → i < 2) ∧
  (∀ i e, [sampleEvent []; priorExpo] !! i = Some e → EventData.companies e ≠ [] →
          i ∉ Pool.invoked (run 2 0 (seed [sampleEvent []; priorExpo]))).
Proof.
  apply (enrichment_at_most_once [sampleEvent []; priorExpo]).
  apply rtc_once. apply (step_start 2 0). reflexivity.
Defined.

(** ** A company without a name *)

Section Nameless.

Context {engine : Engine.t}.

Variable getTime : string → option Z.

(** C10 on one input, for every engine.  A discovery run whose shallow
    with an exhibitor record that has no name completes and stores a
    company without a name; the append of a deep search on that event then
    raises, whatever the batch. *)
Theorem deep_search_raises_on_nameless :
  enrichEventDetails (Answered namelessPayload) =
    Returned [CompanyInfo.mk None (Some "sales@example.com") None "Exhibitor"] ∧
  ∃ calls st,
    handleSearch getTime (freshApp Thailand []) (Answered (Items [rawExpo])) calls st ∧
    EventData.id <$> App.events st = [expoId] ∧
    ∀ moreCompanies, updatedEvents (App.events st) expoId moreCompanies = None.
Proof.
  split; [reflexivity|]. eexists _, _. split.
  - eapply search_completed; [reflexivity| |].
    + eapply rtc_l; [by apply (step_start _ 0)|].
      eapply rtc_l; [by apply (step_start _ 1)|].
      eapply rtc_l; [by apply (step_start _ 2)|].
      eapply rtc_l; [by apply (step_settle _ 0 0 (Answered namelessPayload))|].
      apply rtc_refl.
    + repeat constructor.
  - split; [reflexivity|]. intros moreCompanies.
    eapply updatedEvents_raises; [apply list_elem_of_here|reflexivity..].
Qed.

End Nameless.

(** ** Every run of the workers comes to its end *)

Section Completion.

Variable total : nat.

Lemma workerLoop_shrinks queue p state p' :
  workerLoop total queue p = (state, p') →
  Pool.workers p' = Pool.workers p ∧
  state ≠ Ready ∧
  length (Pool.processQueue p') + pending state ≤ length queue.
Proof.
  revert p. induction queue as [|i rest IH]; intros p Hloop; simpl in Hloop.
  { injection Hloop as <- <-. simpl. split; [done|]. split; [done|lia]. }
  destruct (Pool.store p !! i) as [event|].
  2:{ injection Hloop as <- <-. simpl. split; [done|]. split; [done|lia]. }
  destruct (EventData.companies event).
  - injection Hloop as <- <-. simpl. split; [done|]. split; [done|lia].
  - apply IH in Hloop as (Hws & Hstate & Hlen). simpl in *.
    split; [done|]. split; [done|lia].
Qed.

Lemma pending_insert (l : list Worker) w s s' :
  l !! w = Some s →
  sum_list (pending <$> <[w := s']> l) + pending s
  = sum_list (pending <$> l) + pending s'.
Proof.
  revert w. induction l as [|x l IH]; intros [|w] Hw; simplify_eq/=; [lia|].
  specialize (IH w Hw). lia.
Qed.

Lemma run_workLeft w s p :
  Pool.workers p !! w = Some s → s ≠ Finished →
  workLeft (run total w p) < workLeft p.
Proof.
  intros Hw Hs. unfold run.
  destruct (workerLoop total (Pool.processQueue p) p) as [state p'] eqn:Hloop.
  apply workerLoop_shrinks in Hloop as (Hws & _ & Hlen).
  unfold workLeft. simpl. rewrite Hws.
  pose proof (pending_insert (Pool.workers p) w s state Hw) as Hsum.
  assert (pending s = 1) by by destruct s. lia.
Qed.

Lemma settle_workLeft i result p :
  Pool.workers (settle total i result p) = Pool.workers p ∧
  workLeft (settle total i result p) = workLeft p.
Proof. by destruct result. Qed.

(** From any state of the pool the workers can all return: the queue only
    shrinks and every await settles. *)
Lemma pool_completes p : ∃ p', rtc (step total) p p' ∧ joined p'.
Proof.
  remember (workLeft p) as n eqn:Hn. revert p Hn.
  induction n as [n IH] using lt_wf_ind. intros p ->.
  destruct (decide (Forall (λ w, w = Finished) (Pool.workers p))) as [Hall|Hsome].
  { by exists p. }
  apply not_Forall_Exists in Hsome; [|apply _].
  apply Exists_exists in Hsome as (s & Hin & Hs).
  apply list_elem_of_lookup in Hin as [w Hw]. simpl in Hs.
  destruct s as [|i|]; [| |done].
  - destruct (IH (workLeft (run total w p))) with (p := run total w p)
      as (p' & Hrun & Hjoin); [by eapply run_workLeft|done|].
    exists p'. split; [|done]. eapply rtc_l; [by apply step_start|done].
  - pose proof (settle_workLeft i (enrichEventDetails (Failed OtherValue)) p)
      as [Hws Hleft].
    destruct (IH (workLeft (run total w (settle total i
                   (enrichEventDetails (Failed OtherValue)) p))))
      with (p := run total w (settle total i (enrichEventDetails (Failed OtherValue)) p))
      as (p' & Hrun & Hjoin); [|done|].
    { rewrite <- Hleft. eapply run_workLeft; [by rewrite Hws|done]. }
    exists p'. split; [|done]. eapply rtc_l; [by apply step_settle|done].
Qed.

End Completion.

(** [handleSearch] always has an outcome. *)
Lemma handleSearch_total {engine : Engine.t} getTime st backend :
  ∃ calls st', handleSearch getTime st backend calls st'.
Proof.
  destruct (searchStart getTime st st backend) as [st'|st1 merged] eqn:Hstart.
  - exists [], st'. by constructor.
  - destruct (pool_completes (length merged) (seed merged)) as (p & Hrun & Hjoin).
    eexists _, _. by eapply search_completed.
Qed.

(** ** The pool counts every event once *)

Section PoolCounts.

Variable merged : list EventData.t.

Lemma sum_insert (f : Worker → nat) (l : list Worker) w s s' :
  l !! w = Some s →
  sum_list (f <$> <[w := s']> l) + f s = sum_list (f <$> l) + f s'.
Proof.
  revert w. induction l as [|x l IH]; intros [|w] Hw; simplify_eq/=; [lia|].
  specialize (IH w Hw). lia.
Qed.

Lemma elem_of_insert_inv (l : list Worker) w s x :
  x ∈ <[w := s]> l → x = s ∨ x ∈ l.
Proof.
  intros (j & Hj)%list_elem_of_lookup.
  apply list_lookup_insert_Some in Hj as [(_ & -> & _)|[_ Hj]]; [by left|].
  right. by eapply list_elem_of_lookup_2.
Qed.

Lemma workerLoop_counts queue k p state p' :
  Pool.processQueue p = queue →
  pool_inv_at merged k p →
  workerLoop (length merged) queue p = (state, p') →
  Pool.store p' = Pool.store p ∧
  Pool.processedCount p' + length (Pool.processQueue p') + awaits state
    = Pool.processedCount p + length queue ∧
  (state = Finished → Pool.processQueue p' = []) ∧
  (queue = [] → Pool.processQueue p' = []) ∧
  (∀ i, i ∈ Pool.invoked p → i ∈ Pool.invoked p').
Proof.
  revert k p. induction queue as [|i rest IH];
    intros k [ws q st c r ev inv] Hq Hp Hloop; simpl in *; subst q.
  { injection Hloop as <- <-. simpl. repeat split; try done; lia. }
  pose proof Hp as (Hk & Hqueue & Hid & Hst & _). simpl in *.
  apply pop_inv in Hp as (-> & Hp).
  assert (k < length merged) as Hlt.
  { destruct (length merged - k) eqn:E; [done|lia]. }
  destruct (st !! k) as [event|] eqn:Hev.
  2:{ rewrite Hst in Hev by lia. apply lookup_ge_None in Hev. lia. }
  destruct (EventData.companies event) as [|c0 cs] eqn:Hcs.
  - injection Hloop as <- <-. simpl.
    split; [done|]. split; [lia|]. split; [done|]. split; [done|].
    intros j Hj. apply elem_of_app. by left.
  - apply (IH (S k) (tick (length merged) (Pool.mk ws rest st c r ev inv))) in Hloop;
      [|done|by apply tick_inv].
    destruct Hloop as (Hstore & Hcount & Hfin & _ & Hmono). simpl in *.
    split; [done|]. split; [lia|]. by split.
Qed.

(** Running worker [w], whose state [s] is still the one in the list. *)
Lemma run_counts w s p :
  pool_inv merged p →
  length (Pool.workers p) = concurrency →
  Pool.processedCount p + length (Pool.processQueue p)
    + sum_list (awaits <$> Pool.workers p) = length merged + awaits s →
  (Finished ∈ Pool.workers p → Pool.processQueue p = []) →
  (∀ i, i ∉ Pool.invoked p → Pool.store p !! i = merged !! i) →
  Forall2 (λ e e0, EventData.with_companies e0 (EventData.companies e) = e)
          (Pool.store p) merged →
  Pool.workers p !! w = Some s →
  pool_counts merged (run (length merged) w p).
Proof.
  intros [k Hp] Hlen Hcount Hdone Hkeep Hsame Hw. unfold run.
  destruct (workerLoop (length merged) (Pool.processQueue p) p)
    as [state p'] eqn:Hloop.
  pose proof Hloop as Hloop'.
  apply (workerLoop_counts _ k) in Hloop as (Hstore & Hc & Hfin & Hnil & Hmono);
    [|done..].
  apply workerLoop_shrinks in Hloop' as (Hws & _ & _).
  pose proof (sum_insert awaits (Pool.workers p) w s state Hw) as Hsum.
  unfold pool_counts. simpl. rewrite Hws, Hstore.
  split; [by rewrite length_insert|].
  split; [lia|].
  split.
  { intros [Heq|Hold]%elem_of_insert_inv; [by apply Hfin|]. by apply Hnil, Hdone. }
  split; [|done].
  intros i Hi. apply Hkeep. intros Hin. by apply Hi, Hmono.
Qed.

Lemma step_counts p p' :
  pool_inv merged p → pool_counts merged p →
  step (length merged) p p' → pool_counts merged p'.
Proof.
  intros Hinv (Hlen & Hcount & Hdone & Hkeep & Hsame) Hstep.
  destruct Hstep as [w p Hw|w i backend p Hw].
  - apply (run_counts w Ready); try done. simpl. lia.
  - assert (i ∈ Pool.invoked p) as Hi.
    { destruct Hinv as (k & _ & _ & _ & _ & _ & _ & Hwait & _). by eapply Hwait. }
    pose proof (settle_inv merged i (enrichEventDetails backend) p Hinv Hi) as Hinv'.
    destruct (enrichEventDetails backend) as [err|companies];
      apply (run_counts w (Awaiting i)); simpl; try done; try lia.
    + intros j Hj. destruct (decide (i = j)) as [->|Hne]; [done|].
      rewrite list_lookup_alter_ne by done. by apply Hkeep.
    + apply Forall2_alter_l; [done|]. intros e e0 _ _ <-. done.
Qed.

Lemma seed_counts : pool_counts merged (seed merged).
Proof.
  unfold pool_counts, seed. simpl. rewrite length_seq.
  split; [done|]. split; [lia|]. split.
  { intros Hin. by repeat (apply elem_of_cons in Hin as [?|Hin]; [done|]);
                  apply elem_of_nil in Hin. }
  split; [done|].
  assert (∀ l : list EventData.t,
             Forall2 (λ e e0, EventData.with_companies e0 (EventData.companies e) = e)
                     l l) as Hrefl.
  { induction l as [|e l IH]; constructor; [by destruct e|done]. }
  apply Hrefl.
Qed.

Lemma reachable_counts p : reachable merged p → pool_counts merged p.
Proof.
  unfold reachable. intros Hrun.
  apply (rtc_ind_r (R := step (length merged)) (pool_counts merged) (seed merged));
    [apply seed_counts| |done].
  intros q q' Hq Hstep IH. eapply step_counts; [|done..].
  by apply reachable_inv.
Qed.

Lemma currentProgress_bounds j n :
  j ≤ n → (20 <= currentProgress j n)%Q ∧ (currentProgress j n <= 100)%Q.
Proof.
  intros Hj. unfold currentProgress.
  assert (0 <= inject_Z (Z.of_nat j) / inject_Z (Z.of_nat n))%Q as Hlow.
  { unfold Qdiv. apply Qmult_le_0_compat.
    - change 0%Q with (inject_Z 0). rewrite <- Zle_Qle. lia.
    - apply Qinv_le_0_compat. change 0%Q with (inject_Z 0). rewrite <- Zle_Qle. lia. }
  assert (inject_Z (Z.of_nat j) / inject_Z (Z.of_nat n) <= 1)%Q as Hhigh.
  { destruct n as [|n].
    - assert (j = 0) as -> by lia. done.
    - apply Qle_shift_div_r.
      + change 0%Q with (inject_Z 0). rewrite <- Zlt_Qlt. lia.
      + rewrite Qmult_1_l, <- Zle_Qle. lia. }
  split.
  - rewrite <- (Qplus_0_r 20) at 1. apply Qplus_le_r.
    by apply Qmult_le_0_compat.
  - apply (Qle_trans _ (20 + 1 * 80)); [|done].
    apply Qplus_le_r, Qmult_le_compat_r; done.
Qed.

Lemma currentProgress_full n : 0 < n → (currentProgress n n == 100)%Q.
Proof.
  intros Hn. unfold currentProgress. field.
  intros H. unfold Qeq in H. simpl in H. lia.
Qed.

End PoolCounts.

(** ** Progress *)

Section Progress.

Variable total : nat.

Lemma tick_evaluated p :
  Pool.evaluated p = (λ k, (k, total)) <$> seq 1 (Pool.processedCount p) →
  Pool.evaluated (tick total p) =
    (λ k, (k, total)) <$> seq 1 (Pool.processedCount (tick total p)).
Proof.
  intros H. unfold tick. cbn [Pool.evaluated Pool.processedCount].
  by rewrite seq_S, fmap_app, H.
Qed.

Lemma workerLoop_evaluated queue p state p' :
  Pool.evaluated p = (λ k, (k, total)) <$> seq 1 (Pool.processedCount p) →
  workerLoop total queue p = (state, p') →
  Pool.evaluated p' = (λ k, (k, total)) <$> seq 1 (Pool.processedCount p').
Proof.
  revert p. induction queue as [|i rest IH]; intros p Hp Hloop; simpl in Hloop.
  { by injection Hloop as <- <-. }
  destruct (Pool.store p !! i) as [event|].
  2:{ by injection Hloop as <- <-. }
  destruct (EventData.companies event).
  - by injection Hloop as <- <-.
  - apply IH in Hloop; [done|]. by apply tick_evaluated.
Qed.

Lemma step_evaluated p p' :
  Pool.evaluated p = (λ k, (k, total)) <$> seq 1 (Pool.processedCount p) →
  step total p p' →
  Pool.evaluated p' = (λ k, (k, total)) <$> seq 1 (Pool.processedCount p').
Proof.
  assert (∀ w q,
             Pool.evaluated q = (λ k, (k, total)) <$> seq 1 (Pool.processedCount q) →
             Pool.evaluated (run total w q) =
               (λ k, (k, total)) <$> seq 1 (Pool.processedCount (run total w q)))
    as Hrun.
  { intros w q Hq. unfold run.
    destruct (workerLoop total (Pool.processQueue q) q) as [state q'] eqn:Hloop.
    simpl. by eapply workerLoop_evaluated. }
  intros Hp Hstep. destruct Hstep as [w p Hw|w i backend p Hw]; apply Hrun; [done|].
  unfold settle. apply tick_evaluated.
  by destruct (enrichEventDetails backend).
Qed.

End Progress.

Lemma reachable_evaluated merged p :
  reachable merged p →
  Pool.evaluated p =
    (λ k, (k, length merged)) <$> seq 1 (Pool.processedCount p).
Proof.
  unfold reachable. intros Hrun.
  apply (rtc_ind_r (R := step (length merged))
           (λ q, Pool.evaluated q =
                 (λ k, (k, length merged)) <$> seq 1 (Pool.processedCount q))
           (seed merged)); [done| |done].
  intros q q' _ Hstep IH. by eapply step_evaluated.
Qed.

Lemma joined_counts merged p :
  reachable merged p → joined p →
  Pool.processQueue p = [] ∧ Pool.processedCount p = length merged.
Proof.
  intros Hrun Hjoin.
  pose proof (reachable_counts merged p Hrun) as (Hlen & Hcount & Hdone & _ & _).
  unfold joined in Hjoin.
  assert (Pool.processQueue p = []) as Hq.
  { apply Hdone. destruct (Pool.workers p) as [|w ws]; [done|].
    apply Forall_cons in Hjoin as [-> _]. apply list_elem_of_here. }
  assert (sum_list (awaits <$> Pool.workers p) = 0) as Hsum.
  { clear -Hjoin. induction Hjoin as [|w ws -> _ IH]; [done|]. exact IH. }
  rewrite Hq, Hsum in Hcount. simpl in Hcount. split; [done|lia].
Qed.

(** C5, as the code has it.  The queue is seeded with every Phase-1
    event, whatever its companies.  At every moment each of these events is
    still queued, or awaited by a worker, or counted as processed, and for
    each event counted the progress expression has been evaluated once: the
    k-th evaluation has the operands k and the number of all Phase-1
    events, and its value is the k-th value reported.  The exact value of
    each evaluation is at least that of the one before it.  When the
    workers have returned, every event has been counted and reported. *)
Theorem progress_over_all_events merged p :
  reachable merged p →
  Pool.processQueue (seed merged) = seq 0 (length merged) ∧
  Pool.processedCount p + length (Pool.processQueue p)
    + sum_list (awaits <$> Pool.workers p) = length merged ∧
  Pool.evaluated p =
    (λ k, (k, length merged)) <$> seq 1 (Pool.processedCount p) ∧
  Pool.reported p = (λ kt, currentProgress kt.1 kt.2) <$> Pool.evaluated p ∧
  (∀ j k t k' t',
      Pool.evaluated p !! j = Some (k, t) →
      Pool.evaluated p !! S j = Some (k', t') →
      (currentProgress k t <= currentProgress k' t')%Q) ∧
  (joined p →
   Pool.processedCount p = length merged ∧
   length (Pool.evaluated p) = length merged).
Proof.
  intros Hrun.
  pose proof (reachable_counts merged p Hrun) as (_ & Hcount & _).
  pose proof (reachable_evaluated merged p Hrun) as Hev.
  pose proof (reachable_inv merged p Hrun) as (i & _ & _ & _ & _ & _ & _ & _ & Hrep).
  split; [done|]. split; [done|]. split; [done|]. split.
  { rewrite Hrep, Hev, <- list_fmap_compose. done. }
  split.
  - intros j k t k' t'. rewrite Hev, !list_lookup_fmap.
    intros (a & Ha & [= <- <-])%fmap_Some (b & Hb & [= <- <-])%fmap_Some.
    apply lookup_seq in Ha as [-> _]. apply lookup_seq in Hb as [-> _].
    apply currentProgress_mono.
  - intros Hjoin. destruct (joined_counts merged p Hrun Hjoin) as [_ Hall].
    split; [done|]. by rewrite Hev, length_fmap, length_seq.
Qed.

(** Two events, the first with companies carried over: worker 0 counts it
    without a call, reports 1 of 2, and suspends in the call for the
    second. *)
Lemma progress_over_all_events_witness :
  Pool.evaluated (run 2 0 (seed [priorExpo; sampleEvent []])) = [(1, 2)] ∧
  Pool.invoked (run 2 0 (seed [priorExpo; sampleEvent []])) = [1] ∧
  Pool.processQueue (seed [priorExpo; sampleEvent []]) = [0; 1] ∧
  Pool.processedCount (run 2 0 (seed [priorExpo; sampleEvent []]))
    + length (Pool.processQueue (run 2 0 (seed [priorExpo; sampleEvent []])))
    + sum_list (awaits <$> Pool.workers (run 2 0 (seed [priorExpo; sampleEvent []])))
    = 2 ∧
  Pool.evaluated (run 2 0 (seed [priorExpo; sampleEvent []])) =
    (λ k, (k, 2)) <$>
      seq 1 (Pool.processedCount (run 2 0 (seed [priorExpo; sampleEvent []]))).
Proof.
  split; [reflexivity|]. split; [reflexivity|].
  destruct (progress_over_all_events [priorExpo; sampleEvent []]
              (run 2 0 (seed [priorExpo; sampleEvent []]))) as (H1 & H2 & H3 & _ & _).
  - apply rtc_once. apply (step_start 2 0). reflexivity.
  - split; [exact H1|]. split; [exact H2|exact H3].
Defined.

(** A fresh event that carries companies over from the catalog is queued
    and counted all the same: the queue is not the list of the events with
    empty companies, which is empty here, and the one evaluation of the
    progress expression has the operands 1 and 1, the count of all events,
    not the count of the events with empty companies. *)
Lemma seed_takes_every_event :
  ∃ merged,
    mergedEvents [priorExpo] [baseExpo] = Some merged ∧
    Pool.processQueue (seed merged) ≠ emptyAtSeed merged ∧
    emptyAtSeed merged = [] ∧
    Pool.processQueue (seed merged) = [0] ∧
    Pool.evaluated (run 1 0 (seed merged)) = [(1, 1)] ∧
    Pool.reported (run 1 0 (seed merged)) = [currentProgress 1 1] ∧
    Pool.invoked (run 1 0 (seed merged)) = [].
Proof. eexists. split; [reflexivity|]. by vm_compute. Qed.

(** * Further properties of the code *)

(** ** CSV export *)

Section Csv.
Import Text TextFacts.

Lemma includes_single s c :
  includes s (String c EmptyString) = existsb (Ascii.eqb c) (list_ascii_of_string s).
Proof.
  induction s as [|d r IH]; simpl; [done|]. rewrite IH. f_equal.
  destruct (ascii_dec c d) as [->|Hne].
  - rewrite Ascii.eqb_refl. by destruct r.
  - by apply Ascii.eqb_neq in Hne as ->.
Qed.

Lemma needsQuoting_head c r :
  needsQuoting (String c r) = false →
  Ascii.eqb c quoteChar = false ∧ Ascii.eqb c "," = false ∧
  Ascii.eqb c lineFeed = false ∧ needsQuoting r = false.
Proof.
  unfold needsQuoting. rewrite !includes_single.
  cbn [list_ascii_of_string existsb]. rewrite !orb_false_iff.
  intros [[[H1 H2] [H3 H4]] [H5 H6]].
  rewrite !(Ascii.eqb_sym c), H1, H2, H3, H4, H5, H6. done.
Qed.

(** A text without comma, quote and line feed leaves the reader where it was. *)
Lemma scanCsv_plain q s : needsQuoting s = false → scanCsv q s = (q, (0, 0)).
Proof.
  induction s as [|c r IH]; [done|].
  intros (Hq & Hc & Hf & Hr)%needsQuoting_head. simpl.
  rewrite Hq, Hc, Hf, (IH Hr). by destruct q.
Qed.

Lemma scanCsv_doubleQuotes s t :
  scanCsv true (doubleQuotes s +:+ t) = scanCsv true t.
Proof.
  induction s as [|c r IH]; [done|]. simpl.
  destruct (Ascii.eqb c quoteChar) eqn:Hc; simpl.
  - done.
  - rewrite Hc, IH. by destruct (scanCsv true t) as [? [? ?]].
Qed.

Lemma scanCsv_quoted s : scanCsv false (quoted (doubleQuotes s)) = (false, (0, 0)).
Proof. unfold quoted. simpl. by rewrite scanCsv_doubleQuotes. Qed.

(** An escaped field is read as one field. *)
Lemma scanCsv_escapeCsv str : scanCsv false (escapeCsv str) = (false, (0, 0)).
Proof.
  destruct str as [[|c r]|]; [done| |done]. unfold escapeCsv.
  destruct (needsQuoting (String c r)) eqn:Hn.
  - apply scanCsv_quoted.
  - by apply scanCsv_plain.
Qed.

Lemma scanCsv_app q s t :
  scanCsv q (s +:+ t) =
  let '(q1, (c1, f1)) := scanCsv q s in
  let '(q2, (c2, f2)) := scanCsv q1 t in
  (q2, (c1 + c2, f1 + f2)).
Proof.
  revert q. induction s as [|c r IH]; intros q; simpl.
  { change (EmptyString +:+ t) with t. by destruct (scanCsv q t) as [? [? ?]]. }
  destruct (Ascii.eqb c quoteChar); [apply IH|].
  rewrite IH. destruct (scanCsv q r) as [q1 [c1 f1]].
  destruct q.
  - by destruct (scanCsv q1 t) as [q2 [c2 f2]].
  - destruct (scanCsv q1 t) as [q2 [c2 f2]].
    by destruct (Ascii.eqb c ","), (Ascii.eqb c lineFeed).
Qed.

(** Joining parts that are each read from outside quotes back to outside
    quotes. *)
Lemma scanCsv_concat sep a b parts c d :
  scanCsv false sep = (false, (a, b)) →
  Forall (λ p, scanCsv false p = (false, (c, d))) parts →
  scanCsv false (String.concat sep parts) =
  (false, (length parts * c + (length parts - 1) * a,
           length parts * d + (length parts - 1) * b)).
Proof.
  intros Hsep. induction 1 as [|p ps Hp Hps IH]; [done|].
  destruct ps as [|p' ps].
  { simpl. rewrite Hp. do 2 f_equal; lia. }
  change (String.concat sep (p :: p' :: ps))
    with (p +:+ sep +:+ String.concat sep (p' :: ps)).
  rewrite scanCsv_app, Hp. cbv beta iota.
  rewrite scanCsv_app, Hsep. cbv beta iota.
  rewrite IH. cbv beta iota. simpl length.
  rewrite !Nat.sub_succ, !Nat.sub_0_r. do 2 f_equal; nia.
Qed.

Lemma scanCsv_eventColumns event :
  Forall (λ p, scanCsv false p = (false, (0, 0))) (eventColumns event).
Proof. unfold eventColumns. repeat constructor; apply scanCsv_escapeCsv. Qed.

Lemma elem_of_concat {A} (x : A) (ls : list (list A)) :
  x ∈ concat ls → ∃ l, x ∈ l ∧ l ∈ ls.
Proof.
  induction ls as [|l ls IH]; simpl; [by intros ?%elem_of_nil|].
  intros [Hx|Hx]%elem_of_app.
  - exists l. split; [done|apply list_elem_of_here].
  - destruct (IH Hx) as (l' & ? & ?). exists l'.
    split; [done|by apply list_elem_of_further].
Qed.

Lemma scanCsv_eventRows event row :
  row ∈ eventRows event → scanCsv false row = (false, (8, 0)).
Proof.
  assert (scanCsv false "," = (false, (1, 0))) as Hsep by done.
  unfold eventRows. intros Hrow.
  assert (row = placeholderRow event ∨
          ∃ comp, row = companyRow event comp) as [->|[comp ->]].
  { destruct (EventData.companies event) as [|c cs].
    - left. by apply list_elem_of_singleton in Hrow.
    - right. apply list_elem_of_fmap in Hrow as (comp & -> & _). by exists comp. }
  - unfold placeholderRow.
    rewrite (scanCsv_concat "," 1 0 _ 0 0 Hsep); [done|].
    apply Forall_app. split; [apply scanCsv_eventColumns|].
    by repeat constructor.
  - unfold companyRow.
    rewrite (scanCsv_concat "," 1 0 _ 0 0 Hsep); [done|].
    apply Forall_app. split; [apply scanCsv_eventColumns|].
    repeat constructor; apply scanCsv_escapeCsv.
Qed.

(** X1.  Every row written for an event is read back as one record of nine
    fields: it holds exactly eight separating commas and no separating line
    feed, and it ends outside quotes, whatever commas, quotes and line
    feeds the names, dates and contact texts contain. *)
Theorem exported_row_nine_fields events activeCountry row :
  row ∈ exportRows events activeCountry → scanCsv false row = (false, (8, 0)).
Proof.
  unfold exportRows. intros (rows & Hrow & Hrows)%elem_of_concat.
  apply list_elem_of_fmap in Hrows as (event & -> & _).
  by eapply scanCsv_eventRows.
Qed.

Lemma exported_row_nine_fields_witness :
  scanCsv false
    (companyRow (sampleEvent []) (company (String quoteChar "Acme, Inc" +:+ String lineFeed "Asia")))
  = (false, (8, 0)).
Proof.
  apply (exported_row_nine_fields
           [sampleEvent [company (String quoteChar "Acme, Inc" +:+ String lineFeed "Asia")]]
           Thailand).
  vm_compute. apply list_elem_of_here.
Defined.

Lemma doubleQuotes_inj s t : doubleQuotes s = doubleQuotes t → s = t.
Proof.
  revert t. induction s as [|c r IH]; intros [|d u]; simpl.
  - done.
  - by destruct (Ascii.eqb d quoteChar).
  - by destruct (Ascii.eqb c quoteChar).
  - destruct (Ascii.eqb c quoteChar) eqn:Hc, (Ascii.eqb d quoteChar) eqn:Hd.
    + apply Ascii.eqb_eq in Hc as ->. apply Ascii.eqb_eq in Hd as ->.
      intros [= H]. f_equal. by apply IH.
    + intros [= <- _]. by rewrite Ascii.eqb_refl in Hd.
    + intros [= -> _]. by rewrite Ascii.eqb_refl in Hc.
    + intros [= -> H]. f_equal. by apply IH.
Qed.

(** X2.  [escapeCsv] loses nothing: two texts with the same escaped form
    are the same text. *)
Theorem escapeCsv_inj s t : escapeCsv (Some s) = escapeCsv (Some t) → s = t.
Proof.
  assert (∀ u, needsQuoting u = false → ∀ v, u ≠ quoted v) as Hplain.
  { intros [|c r] Hu v; [done|].
    apply needsQuoting_head in Hu as (Hq & _). intros [= -> _].
    by rewrite Ascii.eqb_refl in Hq. }
  destruct s as [|c r], t as [|d u]; unfold escapeCsv.
  - done.
  - destruct (needsQuoting (String d u)); done.
  - destruct (needsQuoting (String c r)); done.
  - destruct (needsQuoting (String c r)) eqn:Hs, (needsQuoting (String d u)) eqn:Ht.
    + unfold quoted. intros [= H]. apply append_inv_tail in H.
      by apply doubleQuotes_inj.
    + intros H. symmetry in H. by apply Hplain in H.
    + intros H. by apply Hplain in H.
    + done.
Qed.

Lemma escapeCsv_inj_witness :
  String quoteChar "Expo" +:+ String quoteChar ", Asia" =
  String quoteChar "Expo" +:+ String quoteChar ", Asia".
Proof.
  apply (escapeCsv_inj (String quoteChar "Expo" +:+ String quoteChar ", Asia")
                       (String quoteChar "Expo" +:+ String quoteChar ", Asia")).
  reflexivity.
Defined.

Lemma filteredEvents_nil events activeCountry :
  filteredEvents events activeCountry = [] ↔
  ∀ e, e ∈ events → EventData.country e ≠ activeCountry.
Proof.
  unfold filteredEvents. induction events as [|x l IH]; simpl.
  { split; [by intros _ e ?%elem_of_nil|done]. }
  case_bool_decide as Hx.
  - split; [done|]. intros H. destruct (H x); [apply list_elem_of_here|done].
  - rewrite IH. split.
    + intros H e [->|He]%elem_of_cons; [done|by apply H].
    + intros H e He. by apply H, list_elem_of_further.
Qed.

Lemma length_exportRows events activeCountry :
  length (exportRows events activeCountry) =
  sum_list ((λ e, length (EventData.companies e) `max` 1)
              <$> filteredEvents events activeCountry).
Proof.
  unfold exportRows. induction (filteredEvents events activeCountry) as [|e l IH];
    [done|].
  simpl. rewrite length_app, IH. f_equal. unfold eventRows.
  destruct (EventData.companies e); [done|]. simpl. rewrite length_fmap. lia.
Qed.

(** X3.  The export writes no file exactly when the catalog has no event
    of the active country.  Otherwise the file holds the header and one row
    per company of each such event, an event without companies counting
    for one row; read as CSV it has that many separating line feeds and
    eight separating commas on each of its lines. *)
Theorem export_file events activeCountry :
  (handleExportCSV events activeCountry = None ↔
   ∀ e, e ∈ events → EventData.country e ≠ activeCountry) ∧
  (∀ name text,
      handleExportCSV events activeCountry = Some (name, text) →
      length (exportRows events activeCountry) =
        sum_list ((λ e, length (EventData.companies e) `max` 1)
                    <$> filteredEvents events activeCountry) ∧
      scanCsv false text =
        (false, (8 * S (length (exportRows events activeCountry)),
                 length (exportRows events activeCountry)))).
Proof.
  split.
  - rewrite <- filteredEvents_nil. unfold handleExportCSV.
    by destruct (filteredEvents events activeCountry).
  - intros name text Hsome. split; [apply length_exportRows|].
    unfold handleExportCSV in Hsome.
    destruct (filteredEvents events activeCountry); [done|].
    assert (text = byteOrderMark +:+
                   String.concat (String lineFeed EmptyString)
                     (String.concat "," headers :: exportRows events activeCountry))
      as -> by congruence.
    assert (∀ x, scanCsv false (byteOrderMark +:+ x) = scanCsv false x) as ->.
    { intros x. rewrite scanCsv_app.
      change (scanCsv false byteOrderMark) with (false, (0, 0)).
      cbv beta iota. by destruct (scanCsv false x) as [? [? ?]]. }
    rewrite (scanCsv_concat _ 0 1 _ 8 0); [|done|].
    + simpl length. rewrite !Nat.sub_succ, !Nat.sub_0_r. do 2 f_equal; lia.
    + constructor; [done|]. apply Forall_forall. intros row Hrow.
      unfold exportRows in Hrow.
      apply elem_of_concat in Hrow as (rows & Hrow & Hrows).
      apply list_elem_of_fmap in Hrows as (event & -> & _).
      by eapply scanCsv_eventRows.
Qed.

Lemma export_file_witness :
  ∃ name text,
    handleExportCSV [priorExpo; sampleEvent []; expoInMalaysia] Thailand
      = Some (name, text) ∧
    length (exportRows [priorExpo; sampleEvent []; expoInMalaysia] Thailand) = 4 ∧
    scanCsv false text = (false, (40, 4)).
Proof.
  destruct (export_file [priorExpo; sampleEvent []; expoInMalaysia] Thailand) as [_ H].
  eexists _, _. split; [reflexivity|]. apply (H _ _ eq_refl).
Defined.

End Csv.

(** ** Recipients of the email modal *)

Section Recipients.
Import Text TextFacts.

Lemma is_space_differs c d : is_space c = false → is_space d = true → Ascii.eqb c d = false.
Proof. intros Hc Hd. apply Ascii.eqb_neq. intros ->. congruence. Qed.

Lemma existsb_trimStart c s :
  is_space c = false →
  existsb (Ascii.eqb c) (list_ascii_of_string (trimStart s))
  = existsb (Ascii.eqb c) (list_ascii_of_string s).
Proof.
  intros Hc. induction s as [|d r IH]; [done|]. simpl.
  destruct (is_space d) eqn:Hd; [|done].
  by rewrite IH, (is_space_differs c d).
Qed.

Lemma existsb_trimEnd c s :
  is_space c = false →
  existsb (Ascii.eqb c) (list_ascii_of_string (trimEnd s))
  = existsb (Ascii.eqb c) (list_ascii_of_string s).
Proof.
  intros Hc. induction s as [|d r IH]; [done|]. simpl. rewrite <- IH.
  destruct (trimEnd r) as [|e r']; [|done]. simpl.
  destruct (is_space d) eqn:Hd; simpl; [|done].
  by rewrite (is_space_differs c d).
Qed.

(** Trimming neither removes nor adds an at sign. *)
Lemma includes_at_trim s : includes (trim s) "@" = includes s "@".
Proof.
  rewrite !includes_single. unfold trim.
  by rewrite existsb_trimEnd, existsb_trimStart.
Qed.

Lemma hasAt_Some e : hasAt (Some e) = includes e "@".
Proof. unfold hasAt. by destruct e. Qed.

Lemma hasAt_trim email : hasAt (trim <$> email) = hasAt email.
Proof.
  destruct email as [e|]; [|done]. simpl. by rewrite !hasAt_Some, includes_at_trim.
Qed.

Lemma hasAt_truthy x : hasAt x = true → truthy x = true.
Proof. unfold hasAt. by destruct (truthy x). Qed.

Lemma foldl_setAdd {A} `{EqDecision A} (values seen : list A) :
  NoDup seen →
  NoDup (foldl setAdd seen values) ∧
  ∀ x, x ∈ foldl setAdd seen values ↔ x ∈ seen ∨ x ∈ values.
Proof.
  revert seen. induction values as [|v values IH]; intros seen Hseen; simpl.
  { split; [done|]. intros x. rewrite elem_of_nil. tauto. }
  unfold setAdd at 2 4. case_bool_decide as Hv.
  - destruct (IH seen Hseen) as [Hnd Hin]. split; [done|].
    intros x. rewrite Hin, elem_of_cons. split; [tauto|].
    intros [?|[->|?]]; tauto.
  - destruct (IH (seen ++ [v])) as [Hnd Hin].
    { apply NoDup_app. split; [done|]. split; [|apply NoDup_singleton].
      by intros x Hx ->%list_elem_of_singleton. }
    split; [done|]. intros x.
    rewrite Hin, elem_of_app, list_elem_of_singleton, elem_of_cons. tauto.
Qed.

Lemma arrayFromSet_spec {A} `{EqDecision A} (values : list A) :
  NoDup (arrayFromSet values) ∧ ∀ x, x ∈ arrayFromSet values ↔ x ∈ values.
Proof.
  destruct (foldl_setAdd values [] (NoDup_nil_2)) as [Hnd Hin].
  split; [done|]. intros x. rewrite Hin, elem_of_nil. tauto.
Qed.

Lemma omap_definedText (l : list (option string)) :
  Forall (λ x, truthy x = true) l → Some <$> omap definedText l = l.
Proof.
  induction 1 as [|x l Hx _ IH]; [done|].
  destruct x as [[|c r]|]; try done. cbn. by f_equal.
Qed.

(** The recipients, wrapped, are the set of the kept values. *)
Lemma uniqueEmails_wrapped event :
  Some <$> uniqueEmails event =
  arrayFromSet
    (List.filter hasAt
       (map (λ c, trim <$> CompanyInfo.email c) (EventData.companies event))).
Proof.
  unfold uniqueEmails. apply omap_definedText, Forall_forall. intros x Hx.
  apply (proj1 (proj2 (arrayFromSet_spec _) x)) in Hx.
  apply list_elem_of_In, filter_In in Hx as [_ Hx].
  by apply hasAt_truthy.
Qed.

Lemma elem_of_uniqueEmails event e :
  e ∈ uniqueEmails event ↔
  ∃ c raw, c ∈ EventData.companies event ∧ CompanyInfo.email c = Some raw ∧
           e = trim raw ∧ includes raw "@" = true.
Proof.
  rewrite <- (list_elem_of_fmap_inj Some), uniqueEmails_wrapped.
  destruct (arrayFromSet_spec
              (List.filter hasAt
                 (map (λ c, trim <$> CompanyInfo.email c) (EventData.companies event))))
    as [_ ->].
  rewrite list_elem_of_In, filter_In, <- list_elem_of_In, list_elem_of_fmap. split.
  - intros [(c & Hc & Hin) Hat]. destruct (CompanyInfo.email c) as [raw|] eqn:Hraw; [|done].
    injection Hc as ->. exists c, raw. repeat split; [done..|].
    by rewrite hasAt_Some, includes_at_trim in Hat.
  - intros (c & raw & Hin & Hraw & -> & Hat). split.
    + exists c. by rewrite Hraw.
    + by rewrite hasAt_Some, includes_at_trim.
Qed.


(** X5.  The modal is opened exactly when it will have a recipient to
    show: [handleGenerateEmail] lets the event through if and only if
    [uniqueEmails] of that event is not empty. *)
Theorem modal_has_recipients event :
  handleGenerateEmail event = Some event ↔ uniqueEmails event ≠ [].
Proof.
  unfold handleGenerateEmail, hasEmails.
  destruct (existsb _ _) eqn:Hex.
  - split; [intros _|done]. apply existsb_exists in Hex as (c & Hc & Hat).
    destruct (CompanyInfo.email c) as [raw|] eqn:Hraw; [|done].
    rewrite hasAt_Some in Hat. intros Hnil.
    assert (trim raw ∈ uniqueEmails event) as Hin.
    { apply elem_of_uniqueEmails. exists c, raw. by rewrite <- list_elem_of_In in Hc. }
    rewrite Hnil in Hin. by apply elem_of_nil in Hin.
  - split; [done|]. intros Hne. exfalso.
    destruct (uniqueEmails event) as [|e l] eqn:Hu; [done|].
    assert (e ∈ uniqueEmails event) as Hin by (rewrite Hu; apply list_elem_of_here).
    apply elem_of_uniqueEmails in Hin as (c & raw & Hc & Hraw & _ & Hat).
    assert (existsb (λ c, hasAt (CompanyInfo.email c)) (EventData.companies event) = true)
      as Htrue; [|congruence].
    apply existsb_exists. exists c. rewrite <- list_elem_of_In.
    split; [done|]. by rewrite Hraw, hasAt_Some.
Qed.

End Recipients.

(** ** Region and country selection *)

Section SelectionFacts.

Lemma selects_keeps_country_in_region st st' :
  selects st st' →
  Selection.activeCountry st ∈ REGION_MAPPING (Selection.activeRegion st) →
  Selection.activeCountry st' ∈ REGION_MAPPING (Selection.activeRegion st').
Proof.
  intros Hsel Hin. destruct Hsel as [st region|st country Hc|st flag].
  - unfold handleRegionChange. destruct (Selection.loading st); [done|].
    destruct (REGION_MAPPING region) as [|first rest] eqn:Hr; [done|].
    simpl. rewrite Hr. apply list_elem_of_here.
  - unfold selectCountry. by destruct (Selection.loading st).
  - done.
Qed.

(** X6.  Whatever buttons are pressed, the active country is one of the
    countries of the active region; a region without countries is never
    made active; and while a search is loading the buttons change
    nothing. *)
Theorem selection_consistent st :
  rtc selects initialSelection st →
  Selection.activeCountry st ∈ REGION_MAPPING (Selection.activeRegion st) ∧
  (∀ region, REGION_MAPPING region = [] → handleRegionChange st region = st) ∧
  (Selection.loading st = true →
   ∀ region country,
     handleRegionChange st region = st ∧ selectCountry st country = st).
Proof.
  intros Hrun. split; [|split].
  - apply (rtc_ind_r (R := selects)
             (λ st, Selection.activeCountry st ∈ REGION_MAPPING (Selection.activeRegion st))
             initialSelection); [apply list_elem_of_here| |done].
    intros y z _ Hstep IH. by eapply selects_keeps_country_in_region.
  - intros region Hr. unfold handleRegionChange. rewrite Hr.
    by destruct (Selection.loading st).
  - intros Hl region country. unfold handleRegionChange, selectCountry. by rewrite Hl.
Qed.

Lemma selection_consistent_witness :
  Selection.activeCountry (handleRegionChange initialSelection Region.Oceania)
  ∈ REGION_MAPPING
      (Selection.activeRegion (handleRegionChange initialSelection Region.Oceania)).
Proof.
  apply (selection_consistent (handleRegionChange initialSelection Region.Oceania)).
  apply rtc_once. apply press_region.
Defined.

End SelectionFacts.

(** ** Credentials and email drafting *)

Section Drafting.

Lemma firstTruthy_spec values :
  match firstTruthy values with
  | Some k => k ≠ EmptyString ∧ Some k ∈ values
  | None => Forall (λ v, truthy v = false) values
  end.
Proof.
  induction values as [|v values IH]; simpl; [done|].
  destruct (truthy v) eqn:Hv.
  - destruct v as [[|c r]|]; try done. split; [done|apply list_elem_of_here].
  - destruct (firstTruthy values) as [k|].
    + destruct IH. split; [done|by apply list_elem_of_further].
    + by constructor.
Qed.

Lemma getApiKey_firstTruthy env :
  getApiKey env =
  match firstTruthy (keyCandidates env) with
  | Some k => Returned k
  | None => Threw apiKeyError
  end.
Proof.
  unfold getApiKey, keyCandidates.
  destruct (Env.metaEnv env) as [v|]; simpl.
  - destruct (truthy v) eqn:Hv; [by destruct v|].
    by destruct (Env.processEnv env) as [[[a b] c]|].
  - by destruct (Env.processEnv env) as [[[a b] c]|].
Qed.

(** X7.  [getApiKey] never returns the empty text: what it returns is one
    of the values it looks at, and it throws exactly when none of them is a
    non-empty text. *)
Theorem getApiKey_nonempty env :
  (∀ k, getApiKey env = Returned k → k ≠ EmptyString ∧ Some k ∈ keyCandidates env) ∧
  ((∃ err, getApiKey env = Threw err) ↔
   Forall (λ v, truthy v = false) (keyCandidates env)).
Proof.
  rewrite getApiKey_firstTruthy.
  pose proof (firstTruthy_spec (keyCandidates env)) as Hspec.
  destruct (firstTruthy (keyCandidates env)) as [k|] eqn:Hk.
  - destruct Hspec as [Hne Hin]. split; [by intros ? [= <-]|].
    split; [by intros [? ?]|]. intros Hall. exfalso.
    apply (proj1 (Forall_forall _ _) Hall) in Hin. by destruct k.
  - split; [done|]. split; [done|]. intros _. by eexists.
Qed.

Lemma orText_nonempty a fallback : fallback ≠ EmptyString → orText a fallback ≠ EmptyString.
Proof. by destruct a as [[|c r]|]. Qed.

(** X8.  Whenever drafting returns, neither the subject nor the body is
    empty, whatever the backend sent or however it failed; drafting throws
    only when the API key is missing. *)
Theorem draftEmailContent_nonempty eventName backend :
  (∀ draft, draftEmailContent eventName backend = Returned draft →
            Draft.subject draft ≠ EmptyString ∧ Draft.body draft ≠ EmptyString) ∧
  ((∃ err, draftEmailContent eventName backend = Threw err) ↔ backend = NoApiKey).
Proof.
  destruct backend as [|err|data]; simpl.
  - split; [done|]. split; [done|]. intros _. by eexists.
  - split; [by intros ? [= <-]|]. split; [by intros [? ?]|done].
  - split; [|split; [by intros [? ?]|done]].
    intros ? [= <-]. simpl. split; by apply orText_nonempty.
Qed.

End Drafting.

(** ** What the enrichment operations return *)

Section EnrichmentShape.

Lemma orEmpty_is_Some s : is_Some (orEmpty s).
Proof. unfold orEmpty. destruct (truthy s) eqn:H; [by destruct s|by eexists]. Qed.

(** X9.  Every company shallow enrichment returns has an email field that
    is defined, and the role Organizer or Exhibitor; an Organizer can only
    be the first entry, and then it has a non-empty name. *)
Theorem enrichEventDetails_shape backend companies :
  enrichEventDetails backend = Returned companies →
  Forall (λ c, is_Some (CompanyInfo.email c) ∧
               (CompanyInfo.role c = "Organizer" ∨ CompanyInfo.role c = "Exhibitor"))
         companies ∧
  (∀ i c, companies !! i = Some c → CompanyInfo.role c = "Organizer" →
          i = 0 ∧ truthy (CompanyInfo.name c) = true).
Proof.
  assert (∀ exs, Forall (λ c, is_Some (CompanyInfo.email c) ∧
                              (CompanyInfo.role c = "Organizer" ∨
                               CompanyInfo.role c = "Exhibitor"))
                        (map exhibitorCompany exs)) as Hexs.
  { intros exs. apply Forall_fmap, Forall_true. intros ex. simpl.
    split; [apply orEmpty_is_Some|by right]. }
  assert (∀ exs i c, map exhibitorCompany exs !! i = Some c →
                     CompanyInfo.role c ≠ "Organizer") as Hrole.
  { intros exs i c Hc. apply list_lookup_fmap_Some in Hc as (ex & -> & _). done. }
  destruct backend as [|err|data]; simpl; [done| |].
  { intros [= <-]. split; [constructor|]. by intros i c ?. }
  intros [= <-]. unfold detailCompanies.
  set (exs := match DetailPayload.exhibitors data with
              | Some exs => map exhibitorCompany exs
              | None => []
              end).
  assert (Forall (λ c, is_Some (CompanyInfo.email c) ∧
                       (CompanyInfo.role c = "Organizer" ∨
                        CompanyInfo.role c = "Exhibitor")) exs) as Hall.
  { unfold exs. destruct (DetailPayload.exhibitors data); [apply Hexs|constructor]. }
  assert (∀ i c, exs !! i = Some c → CompanyInfo.role c ≠ "Organizer") as Hno.
  { unfold exs. destruct (DetailPayload.exhibitors data) as [l|]; [apply Hrole|done]. }
  destruct (DetailPayload.organizer data) as [o|]; simpl.
  2:{ split; [done|]. intros i c Hc Hr. by destruct (Hno i c Hc). }
  destruct (truthy (RawContact.name o)) eqn:Hname; simpl.
  2:{ split; [done|]. intros i c Hc Hr. by destruct (Hno i c Hc). }
  split.
  - constructor; [|done]. split; [apply orEmpty_is_Some|by left].
  - intros [|i] c Hc Hr; simpl in Hc.
    + by injection Hc as <-.
    + by destruct (Hno i c Hc).
Qed.

Lemma enrichEventDetails_shape_witness :
  Forall (λ c, is_Some (CompanyInfo.email c) ∧
               (CompanyInfo.role c = "Organizer" ∨ CompanyInfo.role c = "Exhibitor"))
         [CompanyInfo.mk None (Some "sales@example.com") None "Exhibitor"] ∧
  (∀ i c, [CompanyInfo.mk None (Some "sales@example.com") None "Exhibitor"] !! i = Some c →
          CompanyInfo.role c = "Organizer" →
          i = 0 ∧ truthy (CompanyInfo.name c) = true).
Proof.
  apply (enrichEventDetails_shape (Answered namelessPayload)). reflexivity.
Defined.

(** X10.  Deep enrichment returns one company per record of the payload,
    in order and with the names as sent; every company has email and
    contact defined and a role that is not empty. *)
Theorem findExtendedExhibitors_shape backend companies :
  findExtendedExhibitors backend = Returned companies →
  Forall (λ c, is_Some (CompanyInfo.email c) ∧ is_Some (CompanyInfo.contact c) ∧
               CompanyInfo.role c ≠ EmptyString) companies ∧
  (∀ rawData, backend = Answered (Items rawData) →
              CompanyInfo.name <$> companies = RawContact.name <$> rawData) ∧
  (backend = Answered NotArray ∨ (∃ err, backend = Failed err) → companies = []).
Proof.
  destruct backend as [|err|[|rawData]]; simpl; try done.
  - intros [= <-]. split; [constructor|]. split; [done|done].
  - intros [= <-]. split; [constructor|]. split; [done|done].
  - intros [= <-]. split; [|split].
    + apply Forall_fmap, Forall_true. intros item. simpl.
      split; [apply orEmpty_is_Some|]. split; [apply orEmpty_is_Some|].
      by destruct (RawContact.role item) as [[|c r]|].
    + intros ? [= <-]. by rewrite <- list_fmap_compose.
    + intros [[=]|[? [=]]].
Qed.

Lemma findExtendedExhibitors_shape_witness :
  CompanyInfo.name <$> [extendedCompany (RawContact.mk (Some "Acme") None None None)]
  = [Some "Acme"].
Proof.
  destruct (findExtendedExhibitors_shape
              (Answered (Items [RawContact.mk (Some "Acme") None None None]))
              [extendedCompany (RawContact.mk (Some "Acme") None None None)] eq_refl)
    as (_ & Hnames & _).
  apply (Hnames _ eq_refl).
Defined.

End EnrichmentShape.

(** ** Venues the matching never returns *)

Section ShadowedVenues.
Import Text TextFacts.

Lemma prefix_cons c n d h :
  String.prefix (String c n) (String d h)
  = if ascii_dec c d then String.prefix n h else false.
Proof. reflexivity. Qed.

Lemma prefix_append needle hay :
  String.prefix needle hay = true ↔ ∃ post, hay = needle +:+ post.
Proof.
  revert hay. induction needle as [|c n IH]; intros hay.
  { split; [intros _; by exists hay|intros _; by destruct hay]. }
  destruct hay as [|d h].
  { split; [intros H; discriminate H|by intros [? ?]]. }
  rewrite prefix_cons. destruct (ascii_dec c d) as [->|Hne].
  - rewrite IH. split; intros [post Hp]; exists post; [by rewrite Hp|by injection Hp].
  - split; [done|]. intros [post [= -> _]]. done.
Qed.

Lemma includes_cons d h needle :
  includes (String d h) needle = String.prefix needle (String d h) || includes h needle.
Proof. reflexivity. Qed.

(** [includes] finds a text exactly when it occurs somewhere. *)
Lemma includes_occurs hay needle :
  includes hay needle = true ↔ ∃ pre post, hay = pre +:+ needle +:+ post.
Proof.
  induction hay as [|d h IH].
  - change (includes EmptyString needle)
      with (String.prefix needle EmptyString || false).
    rewrite orb_false_r, prefix_append. split.
    + intros [post Hp]. by exists EmptyString, post.
    + intros ([|? ?] & post & Hp); [by exists post|done].
  - rewrite includes_cons, orb_true_iff, prefix_append, IH. split.
    + intros [[post Hp]|(pre & post & Hp)].
      * by exists EmptyString, post.
      * exists (String d pre), post. by rewrite Hp.
    + intros ([|e pre] & post & Hp).
      * left. by exists post.
      * right. exists pre, post. by injection Hp.
Qed.

Lemma append_assoc (a b c : string) : (a +:+ b) +:+ c = a +:+ (b +:+ c).
Proof.
  induction a as [|x a IH]; [done|]. exact (f_equal (String x) IH).
Qed.

(** A text that contains [a b c] contains [b]. *)
Lemma includes_inner hay a b c :
  includes hay (a +:+ b +:+ c) = true → includes hay b = true.
Proof.
  rewrite !includes_occurs. intros (pre & post & ->).
  exists (pre +:+ a), (c +:+ post). by rewrite !append_assoc.
Qed.

Lemma venueHit_Koelnmesse venueName :
  venueHit venueName Koelnmesse = true → venueHit venueName MesseFrankfurt = true.
Proof.
  destruct venueName as [text|]; [|done]. unfold venueHit.
  destruct (truthy (Some text)); [|done]. simpl andb.
  apply (includes_inner (toLowerCase text) "koeln" "messe" EmptyString).
Qed.

Lemma venueHit_Messe venueName :
  venueHit venueName MesseBerlin = venueHit venueName MesseFrankfurt ∧
  venueHit venueName MesseMunchen = venueHit venueName MesseFrankfurt ∧
  venueHit venueName Jiexpo = venueHit venueName Jcc.
Proof. by destruct venueName. Qed.

(** X11.  Four venues are never the result of the matching, for any
    country and any text the backend returns: Messe Berlin and Messe
    München share their first word with Messe Frankfurt, and Jakarta
    International Expo with Jakarta Convention Center, which come first;
    and a text that contains the first word of Koelnmesse contains that of
    Messe Frankfurt.  For Germany every event is therefore assigned to
    Messe Frankfurt. *)
Theorem shadowed_venues country venueName :
  matchVenue country venueName ≠ Some MesseBerlin ∧
  matchVenue country venueName ≠ Some MesseMunchen ∧
  matchVenue country venueName ≠ Some Koelnmesse ∧
  matchVenue country venueName ≠ Some Jiexpo ∧
  matchVenue Germany venueName = Some MesseFrankfurt.
Proof.
  destruct (venueHit_Messe venueName) as (Hb & Hm & Hj).
  pose proof (venueHit_Koelnmesse venueName) as Hk.
  assert (matchVenue Germany venueName = Some MesseFrankfurt) as Hg.
  { unfold matchVenue. change (venues Germany)
      with [MesseFrankfurt; MesseBerlin; MesseMunchen; Koelnmesse].
    cbn [matchLoop head]. rewrite Hb, Hm.
    destruct (venueHit venueName MesseFrankfurt); [done|].
    destruct (venueHit venueName Koelnmesse); [by discriminate Hk|done]. }
  repeat split; try done; destruct country; try (rewrite Hg; done);
    unfold matchVenue;
    match goal with
    | |- context [venues ?c] =>
        let l := eval vm_compute in (venues c) in change (venues c) with l
    end;
    cbn [matchLoop head]; rewrite ?Hb, ?Hm, ?Hj;
    repeat match goal with
           | |- context [venueHit venueName ?v] => destruct (venueHit venueName v)
           end; done.
Qed.

End ShadowedVenues.

(** ** Progress and the work of the workers *)

Section PoolCountsMore.

Variable merged : list EventData.t.

(** X12.  The number of events counted as processed never exceeds the
    number of events of the run, so every progress value shown lies between
    20 and 100.  When all three workers have returned, the queue is empty,
    every event has been counted, and the last value shown is 100. *)
Theorem progress_reaches_100 p :
  reachable merged p →
  Pool.processedCount p ≤ length merged ∧
  Forall (λ x, (20 <= x)%Q ∧ (x <= 100)%Q) (Pool.reported p) ∧
  (joined p →
   Pool.processQueue p = [] ∧
   Pool.processedCount p = length merged ∧
   ∀ x, last (Pool.reported p) = Some x → (x == 100)%Q).
Proof.
  intros Hrun.
  pose proof (reachable_counts merged p Hrun) as (Hlen & Hcount & Hdone & _ & _).
  pose proof (reachable_inv merged p Hrun)
    as (k & _ & _ & _ & _ & _ & _ & _ & Hrep).
  split; [lia|]. split.
  - rewrite Hrep. apply Forall_fmap, Forall_forall. intros j Hj.
    apply elem_of_seq in Hj. apply currentProgress_bounds. lia.
  - intros Hjoin. unfold joined in Hjoin.
    assert (Pool.processQueue p = []) as Hq.
    { apply Hdone. destruct (Pool.workers p) as [|w ws]; [done|].
      apply Forall_cons in Hjoin as [-> _]. apply list_elem_of_here. }
    assert (sum_list (awaits <$> Pool.workers p) = 0) as Hsum.
    { clear -Hjoin. induction Hjoin as [|w ws -> _ IH]; [done|]. exact IH. }
    rewrite Hq, Hsum in Hcount. simpl in Hcount.
    split; [done|]. split; [lia|].
    intros x. rewrite Hrep.
    assert (Pool.processedCount p = length merged) as -> by lia.
    destruct (length merged) as [|n] eqn:Hn; [done|].
    rewrite fmap_last, seq_S, last_snoc. intros [= <-].
    apply currentProgress_full. lia.
Qed.

(** X13.  The workers change nothing of an event but its companies, and
    an event that had companies when the queue was seeded is left exactly
    as it was. *)
Theorem enrichment_changes_only_companies p :
  reachable merged p →
  (∀ i e0, merged !! i = Some e0 →
           ∃ e, Pool.store p !! i = Some e ∧
                EventData.with_companies e0 (EventData.companies e) = e) ∧
  (∀ i e0, merged !! i = Some e0 → EventData.companies e0 ≠ [] →
           Pool.store p !! i = Some e0).
Proof.
  intros Hrun.
  pose proof (reachable_counts merged p Hrun) as (_ & _ & _ & Hkeep & Hsame).
  pose proof (reachable_inv merged p Hrun)
    as (k & _ & _ & _ & _ & _ & Hinv & _).
  split.
  - intros i e0 He0.
    destruct (Forall2_lookup_r _ _ _ _ _ Hsame He0) as (e & He & Heq). by exists e.
  - intros i e0 He0 Hne. rewrite Hkeep; [done|].
    intros Hi. destruct (Hinv i Hi) as (_ & e & He & Hempty). by simplify_eq.
Qed.

End PoolCountsMore.

Lemma progress_reaches_100_witness :
  Pool.processedCount (run 2 0 (seed [priorExpo; sampleEvent []])) ≤ 2 ∧
  Forall (λ x, (20 <= x)%Q ∧ (x <= 100)%Q)
         (Pool.reported (run 2 0 (seed [priorExpo; sampleEvent []]))).
Proof.
  destruct (progress_reaches_100 [priorExpo; sampleEvent []]
              (run 2 0 (seed [priorExpo; sampleEvent []]))) as (H1 & H2 & _).
  - apply rtc_once. apply (step_start 2 0). reflexivity.
  - split; [exact H1|exact H2].
Defined.

Lemma enrichment_changes_only_companies_witness :
  Pool.store (run 2 0 (seed [priorExpo; sampleEvent []])) !! 0 = Some priorExpo.
Proof.
  destruct (enrichment_changes_only_companies [priorExpo; sampleEvent []]
              (run 2 0 (seed [priorExpo; sampleEvent []]))) as (_ & H).
  - apply rtc_once. apply (step_start 2 0). reflexivity.
  - apply (H 0 priorExpo); [reflexivity|discriminate].
Defined.

(** ** The pool stops *)

Section Termination.

Variable total : nat.

Lemma step_workLeft p p' : step total p p' → workLeft p' < workLeft p.
Proof.
  intros [w q Hw|w i backend q Hw].
  - by eapply run_workLeft.
  - destruct (settle_workLeft total i (enrichEventDetails backend) q) as [Hws Hleft].
    rewrite <- Hleft. eapply run_workLeft; [by rewrite Hws|done].
Qed.

Lemma nsteps_workLeft k p p' :
  nsteps (step total) k p p' → k + workLeft p' ≤ workLeft p.
Proof.
  induction 1 as [p|k p q r Hstep _ IH]; [done|].
  apply step_workLeft in Hstep. lia.
Qed.

End Termination.

(** X14.  Every scheduling of the workers stops: each step of the pool
    lowers the count of queued events and unreturned workers, so a run on n
    events takes at most n + 3 steps, whatever the order in which the
    awaited calls settle. *)
Theorem pool_stops_within merged k p :
  nsteps (step (length merged)) k (seed merged) p →
  k ≤ length merged + concurrency ∧
  ∀ p', step (length merged) p p' → workLeft p' < workLeft p.
Proof.
  intros Hrun. split; [|apply step_workLeft].
  apply nsteps_workLeft in Hrun.
  assert (workLeft (seed merged) = length merged + concurrency) as Hseed.
  { unfold workLeft, seed. simpl. by rewrite length_seq. }
  lia.
Qed.

Lemma pool_stops_within_witness : 1 ≤ 2 + concurrency.
Proof.
  apply (pool_stops_within [priorExpo; sampleEvent []] 1
           (run 2 0 (seed [priorExpo; sampleEvent []]))).
  apply nsteps_once. apply (step_start 2 0). reflexivity.
Defined.

(** ** What a discovery run leaves *)

Section CompletedRun.

Context {engine : Engine.t}.

Variable getTime : string → option Z.

Lemma others_app l1 l2 c : others (l1 ++ l2) c = others l1 c ++ others l2 c.
Proof. unfold others. apply List.filter_app. Qed.

Lemma others_Permutation l l' c : l ≡ₚ l' → others l c ≡ₚ others l' c.
Proof.
  unfold others. induction 1 as [|x l l' _ IH|x y l|l l' l'' _ IH1 _ IH2]; simpl.
  - done.
  - destruct (negb _); by rewrite IH.
  - destruct (negb (bool_decide (EventData.country x = c))),
             (negb (bool_decide (EventData.country y = c))); try done.
    apply Permutation_swap.
  - by rewrite IH1.
Qed.

Lemma others_idemp l c : others (others l c) c = others l c.
Proof.
  unfold others. induction l as [|x l IH]; simpl; [done|].
  destruct (negb (bool_decide (EventData.country x = c))) eqn:Hx; simpl;
    [by rewrite Hx, IH|done].
Qed.

Lemma others_same_country l c :
  Forall (λ e, EventData.country e = c) l → others l c = [].
Proof.
  unfold others. induction 1 as [|x l Hx _ IH]; simpl; [done|].
  by rewrite bool_decide_eq_true_2.
Qed.

Lemma others_replaceCountry prev c merged :
  Forall (λ e, EventData.country e = c) merged →
  others (replaceCountry getTime prev c merged) c ≡ₚ others prev c.
Proof.
  intros Hc. rewrite (others_Permutation _ _ c (replaceCountry_Permutation _ _ _ _)).
  by rewrite others_app, others_idemp, (others_same_country merged c Hc), app_nil_r.
Qed.

Lemma searchEventList_countries c backend basicList :
  searchEventList c backend = Returned basicList →
  Forall (λ b, BaseEvent.country b = c ∧
               ∃ v, BaseEvent.venue b = Some v ∧ v ∈ venues c) basicList.
Proof.
  destruct backend as [| |[|rawData]]; simpl; try done.
  - intros [= <-]. constructor.
  - intros [= <-]. apply Forall_fmap, Forall_true. intros item. simpl.
    split; [done|]. apply matchVenue_valid.
Qed.

Lemma mergedEvents_freshOf c backend basicList events merged :
  searchEventList c backend = Returned basicList →
  mergedEvents events basicList = Some merged →
  Forall (freshOf c) merged.
Proof.
  intros Hl%searchEventList_countries Hm. unfold mergedEvents in Hm.
  apply mapM_Some in Hm.
  induction Hm as [|b m l k Hb _ IH]; [constructor|].
  apply Forall_cons in Hl as [[Hc Hv] Hl]. constructor; [|by apply IH].
  unfold mergeOne in Hb. destruct (BaseEvent.name b); [|done].
  injection Hb as <-. by split.
Qed.

(** The workers keep a record fresh: they touch the companies only. *)
Lemma store_freshOf c merged p :
  reachable merged p → Forall (freshOf c) merged → Forall (freshOf c) (Pool.store p).
Proof.
  intros Hrun Hm. apply reachable_counts in Hrun as (_ & _ & _ & _ & Hsame).
  induction Hsame as [|e e0 l l0 He _ IH]; [constructor|].
  apply Forall_cons in Hm as [H0 Hm]. constructor; [|by apply IH].
  rewrite <- He. by destruct e0.
Qed.

(** The two ways [handleSearch] ends before its first [setEvents], and the
    way it goes on. *)
Lemma searchStart_Aborted st live backend st' :
  searchStart getTime st live backend = Aborted st' →
  (∃ err, discoveryFailure (App.activeCountry st) backend = Some err ∧
          st' = searchFailed live 0 err) ∨
  (∃ basicList,
      searchEventList (App.activeCountry st) backend = Returned basicList ∧
      basicList ≠ [] ∧
      mergedEvents (App.events st) basicList = None ∧
      st' = searchFailed live 20 (ErrorObject Engine.noToLowerCase)).
Proof.
  unfold searchStart, discoveryFailure.
  destruct (searchEventList (App.activeCountry st) backend) as [err|[|b l]].
  - intros [= <-]. left. by eexists.
  - intros [= <-]. left. by eexists.
  - destruct (mergedEvents (App.events st) (b :: l)) eqn:Hm; [done|].
    intros [= <-]. right. by exists (b :: l).
Qed.

Lemma searchStart_Proceeding st live backend st1 merged :
  searchStart getTime st live backend = Proceeding st1 merged →
  ∃ basicList,
    searchEventList (App.activeCountry st) backend = Returned basicList ∧
    basicList ≠ [] ∧
    mergedEvents (App.events st) basicList = Some merged ∧
    st1 = App.mk (App.activeCountry st)
            (replaceCountry getTime (App.events live) (App.activeCountry st) merged)
            (App.localStorage live) true 20 None.
Proof.
  unfold searchStart.
  destruct (searchEventList (App.activeCountry st) backend) as [err|[|b l]]; try done.
  destruct (mergedEvents (App.events st) (b :: l)) eqn:Hm; [|done].
  intros [= <- <-]. by exists (b :: l).
Qed.

(** A run during which nothing else writes the state is one of the runs
    that deep searches can interleave with. *)
Lemma handleSearch_amid st backend calls st' :
  handleSearch getTime st backend calls st' →
  handleSearchAmid getTime st backend calls st'.
Proof.
  intros [st0 H|st1 merged p H Hreach Hjoin].
  - by eapply amid_aborted; [apply rtc_refl|].
  - by eapply amid_completed; [apply rtc_refl| |apply rtc_refl| |].
Qed.

(** The shape of a run in which list discovery delivered events that all
    have a name. *)
Lemma handleSearchAmid_completed st backend calls st' basicList :
  searchEventList (App.activeCountry st) backend = Returned basicList →
  basicList ≠ [] →
  Forall (λ b, is_Some (BaseEvent.name b)) basicList →
  handleSearchAmid getTime st backend calls st' →
  ∃ merged live1 live2 p,
    mergedEvents (App.events st) basicList = Some merged ∧
    interleaved st live1 ∧
    interleaved
      (App.mk (App.activeCountry st)
         (replaceCountry getTime (App.events live1) (App.activeCountry st) merged)
         (App.localStorage live1) true 20 None)
      live2 ∧
    App.activeCountry live2 = App.activeCountry st ∧
    reachable merged p ∧
    joined p ∧
    calls = Pool.invoked p ∧
    st' = searchFinish getTime live2 p.
Proof.
  intros Hlist Hne Hnamed Hrun.
  apply mergedEvents_is_Some with (events := App.events st) in Hnamed as [merged Hm].
  destruct Hrun as [live st0 _ H|live1 st1 merged' live2 p Hlive1 H Hlive Hreach Hjoin].
  - apply searchStart_Aborted in H as [(err & Hfail & _)|(l & Hl & _ & Hnone & _)].
    + unfold discoveryFailure in Hfail. rewrite Hlist in Hfail. by destruct basicList.
    + congruence.
  - apply searchStart_Proceeding in H as (l & Hl & _ & Hm' & ->).
    assert (l = basicList) as -> by congruence.
    exists merged', live1, live2, p.
    pose proof (interleaved_keeps _ _ Hlive) as [Hc _].
    by repeat split.
Qed.

(** A deep search changes no start date. *)
Lemma interleaved_dates (a b : App.t) :
  interleaved a b →
  Forall (λ e, is_Some (getTime (EventData.dateStart e))) (App.events a) →
  Forall (λ e, is_Some (getTime (EventData.dateStart e))) (App.events b).
Proof.
  intros [_ H]%interleaved_keeps.
  induction H as [|e e' l l' [He _] _ IH]; [done|].
  intros [H0 Hl]%Forall_cons. constructor; [|by apply IH].
  rewrite <- He. by destruct e.
Qed.

Lemma store_in_catalog prev c p e :
  e ∈ Pool.store p → e ∈ replaceCountry getTime prev c (Pool.store p).
Proof.
  intros He. rewrite replaceCountry_Permutation. apply elem_of_app. by right.
Qed.

Lemma freshOf_country c l : Forall (freshOf c) l → Forall (λ e, EventData.country e = c) l.
Proof. intros H. eapply Forall_impl; [exact H|]. by intros e [? _]. Qed.

(** X15.  A discovery run during which nothing else writes the catalog,
    completed or aborted, leaves the entries of all other countries in the
    catalog: the same entries, each as often as before. *)
Theorem other_countries_untouched st backend calls st' :
  handleSearch getTime st backend calls st' →
  others (App.events st') (App.activeCountry st)
  ≡ₚ others (App.events st) (App.activeCountry st).
Proof.
  intros [st0 H|st1 merged p H Hreach Hjoin].
  { by apply searchStart_Aborted in H as [(err & _ & ->)|(l & _ & _ & _ & ->)]. }
  apply searchStart_Proceeding in H as (basicList & Hlist & _ & Hm & ->).
  pose proof (mergedEvents_freshOf _ _ _ _ _ Hlist Hm) as Hfresh.
  pose proof (store_freshOf _ _ _ Hreach Hfresh) as Hstore.
  cbn [searchFinish App.events App.activeCountry].
  rewrite others_replaceCountry by by apply freshOf_country.
  apply others_replaceCountry. by apply freshOf_country.
Qed.

Lemma filteredEvents_Permutation l l' c :
  l ≡ₚ l' → filteredEvents l c ≡ₚ filteredEvents l' c.
Proof.
  unfold filteredEvents. induction 1 as [|x l l' _ IH|x y l|l l' l'' _ IH1 _ IH2]; simpl.
  - done.
  - destruct (bool_decide _); by rewrite IH.
  - destruct (bool_decide (EventData.country x = c)),
             (bool_decide (EventData.country y = c)); try done.
    apply Permutation_swap.
  - by rewrite IH1.
Qed.

Lemma filteredEvents_others l c : filteredEvents (others l c) c = [].
Proof.
  unfold filteredEvents, others. induction l as [|x l IH]; simpl; [done|].
  destruct (bool_decide (EventData.country x = c)) eqn:Hx; simpl; [done|].
  by rewrite Hx.
Qed.

Lemma filteredEvents_same_country l c :
  Forall (λ e, EventData.country e = c) l → filteredEvents l c = l.
Proof.
  unfold filteredEvents. induction 1 as [|x l Hx _ IH]; simpl; [done|].
  by rewrite bool_decide_eq_true_2, IH.
Qed.

(** The entries of the active country after the final update are the event
    objects the workers were given, whatever the catalog it is applied to. *)
Lemma completed_country_entries prev c p :
  Forall (freshOf c) (Pool.store p) →
  filteredEvents (replaceCountry getTime prev c (Pool.store p)) c ≡ₚ Pool.store p.
Proof.
  intros Hstore.
  rewrite (filteredEvents_Permutation _ _ c (replaceCountry_Permutation _ _ _ _)).
  unfold filteredEvents at 1. rewrite List.filter_app.
  fold (filteredEvents (others prev c) c).
  fold (filteredEvents (Pool.store p) c).
  rewrite filteredEvents_others, filteredEvents_same_country; [done|].
  by apply freshOf_country.
Qed.

(** X16.  After a run in which list discovery delivered events that all
    have a name, the catalog holds one entry of the active country per
    delivered event, and each of these entries carries the id computed from
    its own name and start date and a venue of the active country's list.
    This holds also when deep searches complete during the run: what they
    write to an entry of the active country is replaced by the final
    update. *)
Theorem completed_run_entries st backend calls st' basicList :
  searchEventList (App.activeCountry st) backend = Returned basicList →
  basicList ≠ [] →
  Forall (λ b, is_Some (BaseEvent.name b)) basicList →
  handleSearchAmid getTime st backend calls st' →
  length (filteredEvents (App.events st') (App.activeCountry st)) = length basicList ∧
  ∀ e, e ∈ App.events st' → EventData.country e = App.activeCountry st →
       freshOf (App.activeCountry st) e.
Proof.
  intros Hlist Hne Hnamed Hrun.
  destruct (handleSearchAmid_completed _ _ _ _ _ Hlist Hne Hnamed Hrun)
    as (merged & live1 & live2 & p & Hm & _ & _ & Hc & Hreach & _ & _ & ->).
  pose proof (mergedEvents_freshOf _ _ _ _ _ Hlist Hm) as Hfresh.
  pose proof (store_freshOf _ _ _ Hreach Hfresh) as Hstore.
  cbn [searchFinish App.events]. rewrite Hc.
  pose proof (completed_country_entries (App.events live2) _ p Hstore) as Hperm.
  split.
  - rewrite Hperm.
    apply reachable_counts in Hreach as (_ & _ & _ & _ & Hsame).
    apply Forall2_length in Hsame. rewrite Hsame.
    by apply mergedEvents_length in Hm.
  - intros e He Hce.
    assert (e ∈ filteredEvents
                  (replaceCountry getTime (App.events live2) (App.activeCountry st)
                     (Pool.store p)) (App.activeCountry st)) as Hin.
    { unfold filteredEvents. apply list_elem_of_In, filter_In.
      split; [by apply list_elem_of_In|by apply bool_decide_eq_true_2]. }
    rewrite Hperm in Hin. by apply (proj1 (Forall_forall _ _) Hstore).
Qed.

End CompletedRun.

Lemma other_countries_untouched_witness :
  ∃ calls st',
    handleSearch isoDayNumber (freshApp Thailand [expoInMalaysia; priorExpo])
      (Answered (Items [rawExpo])) calls st' ∧
    others (App.events st') Thailand ≡ₚ [expoInMalaysia].
Proof.
  destruct (handleSearch_total isoDayNumber (freshApp Thailand [expoInMalaysia; priorExpo])
              (Answered (Items [rawExpo]))) as (calls & st' & Hrun).
  exists calls, st'. split; [exact Hrun|].
  apply (other_countries_untouched isoDayNumber (freshApp Thailand [expoInMalaysia; priorExpo])
           (Answered (Items [rawExpo])) calls st' Hrun).
Defined.

Lemma completed_run_entries_witness :
  ∃ calls st',
    handleSearchAmid isoDayNumber (freshApp Thailand [expoInMalaysia; priorExpo])
      (Answered (Items [rawExpo])) calls st' ∧
    length (filteredEvents (App.events st') Thailand) = 1.
Proof.
  destruct (handleSearch_total isoDayNumber (freshApp Thailand [expoInMalaysia; priorExpo])
              (Answered (Items [rawExpo]))) as (calls & st' & Hrun).
  apply handleSearch_amid in Hrun.
  exists calls, st'. split; [exact Hrun|].
  apply (completed_run_entries isoDayNumber (freshApp Thailand [expoInMalaysia; priorExpo])
           (Answered (Items [rawExpo])) calls st' [toBaseEvent Thailand rawExpo]);
    [reflexivity|discriminate| |exact Hrun].
  repeat constructor. by eexists.
Defined.

Section CompletedRunMore.

Context {engine : Engine.t}.

Variable getTime : string → option Z.

Lemma store_kept merged p i e0 :
  reachable merged p → merged !! i = Some e0 → EventData.companies e0 ≠ [] →
  Pool.store p !! i = Some e0.
Proof.
  intros Hrun He0 Hne.
  pose proof (reachable_counts merged p Hrun) as (_ & _ & _ & Hkeep & _).
  pose proof (reachable_inv merged p Hrun) as (k & _ & _ & _ & _ & _ & Hinv & _).
  rewrite Hkeep; [done|].
  intros Hi. destruct (Hinv i Hi) as (_ & e & He & Hempty). by simplify_eq.
Qed.

(** X17.  What a scan keeps of what was known when it was started: when a
    delivered event has the id of an entry with companies of the catalog
    that the handler closed over, the catalog after the run holds the
    record made for it with exactly the companies that entry had then, not
    marked as new, and shallow enrichment was not called for it.  This
    holds also when deep searches complete during the run; a company that
    one of them adds to that entry is not among those carried. *)
Theorem known_companies_survive st backend calls st' basicList i base name x :
  searchEventList (App.activeCountry st) backend = Returned basicList →
  Forall (λ b, is_Some (BaseEvent.name b)) basicList →
  basicList !! i = Some base →
  BaseEvent.name base = Some name →
  existingEventsMap (App.events st)
    !! generateEventId name (BaseEvent.dateStart base) = Some x →
  EventData.companies x ≠ [] →
  handleSearchAmid getTime st backend calls st' →
  (i ∉ calls) ∧
  (∃ e, e ∈ App.events st' ∧
        EventData.id e = generateEventId name (BaseEvent.dateStart base) ∧
        EventData.companies e = EventData.companies x ∧
        EventData.isNew e = Some false).
Proof.
  intros Hlist Hnamed Hbase Hname Hx Hne Hrun.
  assert (basicList ≠ []) as Hnil.
  { intros ->. by rewrite lookup_nil in Hbase. }
  destruct (handleSearchAmid_completed _ _ _ _ _ _ Hlist Hnil Hnamed Hrun)
    as (merged & live1 & live2 & p & Hm & _ & _ & Hc & Hreach & _ & -> & ->).
  destruct (mergedEvents_lookup _ _ _ _ _ Hm Hbase) as (m & Hi & Hone).
  assert (EventData.id m = generateEventId name (BaseEvent.dateStart base) ∧
          EventData.companies m = EventData.companies x ∧
          EventData.isNew m = Some false) as (Hid & Hcs & Hnew).
  { unfold mergeOne in Hone. rewrite Hname in Hone. cbv zeta in Hone.
    rewrite Hx in Hone. by injection Hone as <-. }
  assert (EventData.companies m ≠ []) as Hne' by by rewrite Hcs.
  split.
  - intros Hin. apply reachable_inv in Hreach as (k & _ & _ & _ & _ & _ & Hinv & _).
    destruct (Hinv i Hin) as (_ & e & He & Hempty). by simplify_eq.
  - exists m. split; [|done].
    apply store_in_catalog. eapply list_elem_of_lookup_2.
    by eapply store_kept.
Qed.

(** X18.  Scanning again with the same list right after a completed run
    finds nothing new: every record the second merge makes is marked as
    not new; and the second merge makes its records whenever every
    delivered event has a name.  This holds also when deep searches
    complete during the run. *)
Theorem rescan_finds_nothing_new st backend calls st' basicList :
  searchEventList (App.activeCountry st) backend = Returned basicList →
  basicList ≠ [] →
  handleSearchAmid getTime st backend calls st' →
  (∀ merged', mergedEvents (App.events st') basicList = Some merged' →
              Forall (λ m, EventData.isNew m = Some false) merged') ∧
  (Forall (λ b, is_Some (BaseEvent.name b)) basicList →
   is_Some (mergedEvents (App.events st') basicList)).
Proof.
  intros Hlist Hne Hrun. split; [|intros H; by apply mergedEvents_is_Some].
  intros merged' Hm'.
  assert (Forall (λ b, is_Some (BaseEvent.name b)) basicList) as Hnamed.
  { apply (mergedEvents_is_Some (App.events st')). by eexists. }
  destruct (handleSearchAmid_completed _ _ _ _ _ _ Hlist Hne Hnamed Hrun)
    as (merged & live1 & live2 & p & Hm & _ & _ & _ & Hreach & _ & _ & ->).
  apply Forall_forall. intros m' Hin.
  apply list_elem_of_lookup in Hin as [i Hi].
  assert (∃ base, basicList !! i = Some base) as [base Hbase].
  { apply lookup_lt_is_Some. rewrite <- (mergedEvents_length _ _ _ Hm').
    by apply lookup_lt_is_Some. }
  destruct (mergedEvents_lookup _ _ _ _ _ Hm' Hbase) as (m2 & Hi2 & Hone').
  assert (m2 = m') as -> by congruence.
  destruct (mergedEvents_lookup _ _ _ _ _ Hm Hbase) as (m & Hmi & Hone).
  apply mergeOne_closure in Hone' as (name & Hname & Hid' & _ & Hold & _).
  apply mergeOne_closure in Hone as (name0 & Hname0 & Hid & _).
  assert (name0 = name) as -> by congruence.
  apply Hold.
  pose proof (reachable_inv _ p Hreach) as (j & _ & _ & Hids & _).
  assert ((EventData.id <$> Pool.store p) !! i = Some (EventData.id m)) as Hki.
  { by rewrite Hids, list_lookup_fmap, Hmi. }
  rewrite list_lookup_fmap in Hki.
  destruct (Pool.store p !! i) as [e|] eqn:He; [|done]. injection Hki as Hek.
  exists e. split; [|congruence].
  apply store_in_catalog. by eapply list_elem_of_lookup_2.
Qed.

(** X19.  When the engine can read the start date of every catalog entry
    and of every delivered event, and every delivered event has a name, so
    that the run completes, the catalog after the run is in ascending order
    of start date, also when deep searches complete during the run. *)
Theorem completed_run_sorted st backend calls st' basicList :
  searchEventList (App.activeCountry st) backend = Returned basicList →
  basicList ≠ [] →
  Forall (λ b, is_Some (BaseEvent.name b)) basicList →
  Forall (λ e, is_Some (getTime (EventData.dateStart e))) (App.events st) →
  Forall (λ b, is_Some (getTime (BaseEvent.dateStart b))) basicList →
  handleSearchAmid getTime st backend calls st' →
  Sorted (startsNoLater getTime) (App.events st').
Proof.
  intros Hlist Hne Hnamed Hprev Hnew Hrun.
  destruct (handleSearchAmid_completed _ _ _ _ _ _ Hlist Hne Hnamed Hrun)
    as (merged & live1 & live2 & p & Hm & Hlive1 & Hlive2 & _ & Hreach & _ & _ & ->).
  pose proof (mergedEvents_freshOf _ _ _ _ _ Hlist Hm) as Hfresh.
  assert (Forall (λ e, is_Some (getTime (EventData.dateStart e))) merged) as Hdates.
  { unfold mergedEvents in Hm. apply mapM_Some in Hm.
    clear -Hm Hnew. induction Hm as [|b m l k Hb _ IH]; [constructor|].
    apply Forall_cons in Hnew as [Hb0 Hnew]. constructor; [|by apply IH].
    unfold mergeOne in Hb. destruct (BaseEvent.name b); [|done].
    by injection Hb as <-. }
  assert (Forall (λ e, is_Some (getTime (EventData.dateStart e))) (App.events live2))
    as Hlive.
  { apply (interleaved_dates _ _ _ Hlive2). cbn [App.events].
    rewrite replaceCountry_Permutation. apply Forall_app. split; [|done].
    apply (interleaved_dates _ _ _ Hlive1) in Hprev.
    unfold others. apply Forall_forall. intros e He.
    apply list_elem_of_In, filter_In in He as [He _].
    by apply (proj1 (Forall_forall _ _) Hprev), list_elem_of_In. }
  apply replaceCountry_sorted. apply Forall_app. split.
  - unfold others. apply Forall_forall. intros e He.
    apply list_elem_of_In, filter_In in He as [He _].
    by apply (proj1 (Forall_forall _ _) Hlive), list_elem_of_In.
  - apply reachable_counts in Hreach as (_ & _ & _ & _ & Hsame).
    clear -Hsame Hdates. induction Hsame as [|e e0 l l0 He _ IH]; [constructor|].
    apply Forall_cons in Hdates as [H0 Hdates]. constructor; [|by apply IH].
    rewrite <- He. by destruct e0.
Qed.

Lemma joined_reported merged p :
  reachable merged p → joined p →
  Pool.reported p =
    (λ j, currentProgress j (length merged)) <$> seq 1 (length merged).
Proof.
  intros Hrun Hjoin.
  destruct (joined_counts merged p Hrun Hjoin) as [_ Hall].
  pose proof (reachable_inv merged p Hrun) as (k & _ & _ & _ & _ & _ & _ & _ & ->).
  by rewrite Hall.
Qed.

(** X20.  After a run in which list discovery delivered events that all
    have a name, the blob in local storage is the catalog that is shown,
    and the progress that is shown has reached 100; this holds also when
    deep searches complete during the run. *)
Theorem completed_run_persisted st backend calls st' basicList :
  searchEventList (App.activeCountry st) backend = Returned basicList →
  basicList ≠ [] →
  Forall (λ b, is_Some (BaseEvent.name b)) basicList →
  handleSearchAmid getTime st backend calls st' →
  App.localStorage st' = Some (App.events st') ∧
  (App.progress st' == 100)%Q.
Proof.
  intros Hlist Hne Hnamed Hrun.
  destruct (handleSearchAmid_completed _ _ _ _ _ _ Hlist Hne Hnamed Hrun)
    as (merged & live1 & live2 & p & Hm & _ & _ & _ & Hreach & Hjoin & _ & ->).
  split; [done|]. cbn [searchFinish App.progress].
  rewrite (joined_reported _ p Hreach Hjoin).
  assert (length merged ≠ 0) as Hn.
  { rewrite (mergedEvents_length _ _ _ Hm). by destruct basicList. }
  destruct (length merged) as [|n]; [done|].
  rewrite seq_S, fmap_app. simpl. rewrite List.last_last.
  apply currentProgress_full. lia.
Qed.

(** X26.  A delivered event without a name ends the run: the merge raises
    at the first such event, after the progress was set to 20, and the
    [catch] shows the engine's message.  No enrichment call is made, and
    the run writes neither the catalog nor local storage: they are as the
    deep searches that completed meanwhile left them, and as they were
    when nothing else wrote them. *)
Theorem nameless_event_aborts st backend calls st' basicList base :
  searchEventList (App.activeCountry st) backend = Returned basicList →
  base ∈ basicList →
  BaseEvent.name base = None →
  (handleSearchAmid getTime st backend calls st' →
   calls = [] ∧
   (App.progress st' == 20)%Q ∧
   App.loading st' = false ∧
   App.error st' = Some ("Search failed: " +:+ Engine.noToLowerCase) ∧
   ∃ live, interleaved st live ∧
           App.events st' = App.events live ∧
           App.localStorage st' = App.localStorage live) ∧
  (handleSearch getTime st backend calls st' →
   App.events st' = App.events st ∧ App.localStorage st' = App.localStorage st).
Proof.
  intros Hlist Hbase Hname.
  assert (mergedEvents (App.events st) basicList = None) as Hnone.
  { destruct (mergedEvents (App.events st) basicList) as [merged|] eqn:Hm; [|done].
    assert (is_Some (mergedEvents (App.events st) basicList)) as Hsome by by eexists.
    apply mergedEvents_is_Some in Hsome.
    destruct (proj1 (Forall_forall _ _) Hsome base Hbase) as [n Hn]. congruence. }
  assert (∀ live st0, searchStart getTime st live backend = Aborted st0 →
                      st0 = searchFailed live 20 (ErrorObject Engine.noToLowerCase))
    as Habort.
  { intros live st0 [(err & Hfail & _)|(l & _ & _ & _ & ->)]%searchStart_Aborted; [|done].
    unfold discoveryFailure in Hfail. rewrite Hlist in Hfail.
    destruct basicList; [by apply elem_of_nil in Hbase|done]. }
  assert (∀ live st1 merged, searchStart getTime st live backend ≠ Proceeding st1 merged)
    as Hnot.
  { intros live st1 merged (l & Hl & _ & Hm & _)%searchStart_Proceeding. congruence. }
  split.
  - intros [live st0 Hlive H|live1 st1 merged live2 p _ H _ _ _]; [|by destruct (Hnot _ _ _ H)].
    apply Habort in H as ->. split; [done|]. split; [done|]. split; [done|].
    split; [done|]. by exists live.
  - intros [st0 H|st1 merged p H _ _]; [|by destruct (Hnot _ _ _ H)].
    by apply Habort in H as ->.
Qed.

End CompletedRunMore.

Lemma known_companies_survive_witness :
  ∃ calls st',
    handleSearchAmid isoDayNumber (freshApp Thailand [expoInMalaysia; priorExpo])
      (Answered (Items [rawExpo])) calls st' ∧
    (0 ∉ calls) ∧
    (∃ e, e ∈ App.events st' ∧ EventData.id e = expoId ∧
          EventData.companies e = EventData.companies priorExpo ∧
          EventData.isNew e = Some false).
Proof.
  destruct (handleSearch_total isoDayNumber (freshApp Thailand [expoInMalaysia; priorExpo])
              (Answered (Items [rawExpo]))) as (calls & st' & Hrun).
  apply handleSearch_amid in Hrun.
  exists calls, st'. split; [exact Hrun|].
  apply (known_companies_survive isoDayNumber
           (freshApp Thailand [expoInMalaysia; priorExpo])
           (Answered (Items [rawExpo])) calls st' [toBaseEvent Thailand rawExpo]
           0 (toBaseEvent Thailand rawExpo) "Food Expo" priorExpo);
    [reflexivity| |reflexivity|reflexivity|reflexivity|discriminate|exact Hrun].
  repeat constructor. by eexists.
Defined.

Lemma rescan_finds_nothing_new_witness :
  ∃ calls st',
    handleSearchAmid isoDayNumber (freshApp Thailand [])
      (Answered (Items [rawExpo])) calls st' ∧
    (∀ merged', mergedEvents (App.events st') [toBaseEvent Thailand rawExpo] = Some merged' →
                Forall (λ m, EventData.isNew m = Some false) merged') ∧
    is_Some (mergedEvents (App.events st') [toBaseEvent Thailand rawExpo]).
Proof.
  destruct (handleSearch_total isoDayNumber (freshApp Thailand [])
              (Answered (Items [rawExpo]))) as (calls & st' & Hrun).
  apply handleSearch_amid in Hrun.
  exists calls, st'. split; [exact Hrun|].
  destruct (rescan_finds_nothing_new isoDayNumber (freshApp Thailand [])
              (Answered (Items [rawExpo])) calls st' [toBaseEvent Thailand rawExpo])
    as [Hold Hsome]; [reflexivity|discriminate|exact Hrun|].
  split; [exact Hold|]. apply Hsome. repeat constructor. by eexists.
Defined.

Lemma completed_run_sorted_witness :
  ∃ calls st',
    handleSearchAmid isoDayNumber (freshApp Thailand [expoInMalaysia])
      (Answered (Items [rawExpo])) calls st' ∧
    Sorted (startsNoLater isoDayNumber) (App.events st').
Proof.
  destruct (handleSearch_total isoDayNumber (freshApp Thailand [expoInMalaysia])
              (Answered (Items [rawExpo]))) as (calls & st' & Hrun).
  apply handleSearch_amid in Hrun.
  exists calls, st'. split; [exact Hrun|].
  apply (completed_run_sorted isoDayNumber (freshApp Thailand [expoInMalaysia])
           (Answered (Items [rawExpo])) calls st' [toBaseEvent Thailand rawExpo]);
    [reflexivity|discriminate| | | |exact Hrun].
  - repeat constructor. by eexists.
  - repeat constructor. by eexists.
  - repeat constructor. by eexists.
Defined.

Lemma completed_run_persisted_witness :
  ∃ calls st',
    handleSearchAmid isoDayNumber (freshApp Thailand [expoInMalaysia])
      (Answered (Items [rawExpo])) calls st' ∧
    App.localStorage st' = Some (App.events st') ∧ (App.progress st' == 100)%Q.
Proof.
  destruct (handleSearch_total isoDayNumber (freshApp Thailand [expoInMalaysia])
              (Answered (Items [rawExpo]))) as (calls & st' & Hrun).
  apply handleSearch_amid in Hrun.
  exists calls, st'. split; [exact Hrun|].
  apply (completed_run_persisted isoDayNumber (freshApp Thailand [expoInMalaysia])
           (Answered (Items [rawExpo])) calls st' [toBaseEvent Thailand rawExpo]);
    [reflexivity|discriminate| |exact Hrun].
  repeat constructor. by eexists.
Defined.

(** A list whose second event has no name, on a catalog that holds an
    entry of another country. *)
Lemma nameless_event_aborts_witness :
  ∃ calls st',
    handleSearch isoDayNumber (freshApp Thailand [expoInMalaysia])
      (Answered (Items [rawExpo;
                        RawEvent.mk None "2026-05-01" "2026-05-03" None None]))
      calls st' ∧
    App.events st' = [expoInMalaysia] ∧
    App.localStorage st' = Some [expoInMalaysia].
Proof.
  destruct (handleSearch_total isoDayNumber (freshApp Thailand [expoInMalaysia])
              (Answered (Items [rawExpo;
                                RawEvent.mk None "2026-05-01" "2026-05-03" None None])))
    as (calls & st' & Hrun).
  exists calls, st'. split; [exact Hrun|].
  apply (nameless_event_aborts isoDayNumber (freshApp Thailand [expoInMalaysia])
           (Answered (Items [rawExpo;
                             RawEvent.mk None "2026-05-01" "2026-05-03" None None]))
           calls st'
           [toBaseEvent Thailand rawExpo;
            toBaseEvent Thailand (RawEvent.mk None "2026-05-01" "2026-05-03" None None)]
           (toBaseEvent Thailand (RawEvent.mk None "2026-05-01" "2026-05-03" None None)));
    [reflexivity|apply list_elem_of_further, list_elem_of_here|reflexivity|exact Hrun].
Defined.

(** ** Entries of other countries under interleaved deep searches *)

Section OtherCountriesKept.

Context {engine : Engine.t}.

Variable getTime : string → option Z.

Lemma Forall2_Permutation_l {A B} (R : A → B → Prop) (l1 l2 : list A) (k2 : list B) :
  l1 ≡ₚ l2 → Forall2 R l2 k2 → ∃ k1, Forall2 R l1 k1 ∧ k1 ≡ₚ k2.
Proof.
  intros Hperm. revert k2.
  induction Hperm as [|x l l' _ IH|x y l|l l' l'' _ IH1 _ IH2]; intros k2 H2.
  - inversion H2; subst. by exists [].
  - inversion H2 as [|x' b l0 k Hxb Hk]; subst.
    destruct (IH k Hk) as (k1 & H1 & Hp). exists (b :: k1).
    split; [by constructor|by constructor].
  - inversion H2 as [|x' a l0 k0 Hxa Hk0]; subst.
    inversion Hk0 as [|y' b l1 k Hyb Hk]; subst.
    exists (b :: a :: k). split; [by repeat constructor|apply Permutation_swap].
  - destruct (IH2 k2 H2) as (k' & H' & Hp').
    destruct (IH1 k' H') as (k1 & H1 & Hp1).
    exists k1. split; [done|by etrans].
Qed.

Lemma others_grownFrom (l l' : Catalog) c :
  Forall2 grownFrom l l' → Forall2 grownFrom (others l c) (others l' c).
Proof.
  unfold others. induction 1 as [|e e' l l' He _ IH]; simpl; [constructor|].
  assert (EventData.country e' = EventData.country e) as ->.
  { destruct He as [<- _]. by destruct e. }
  destruct (negb (bool_decide (EventData.country e = c))); [by constructor|done].
Qed.

(** X27.  Under deep searches that complete during it, a discovery run,
    completed or aborted, still leaves every entry of another country in
    the catalog, each as often as before: what differs is at most the
    companies that those deep searches have added behind the ones an entry
    had. *)
Theorem other_countries_kept st backend calls st' :
  handleSearchAmid getTime st backend calls st' →
  ∃ kept,
    others (App.events st') (App.activeCountry st) ≡ₚ kept ∧
    Forall2 grownFrom (others (App.events st) (App.activeCountry st)) kept.
Proof.
  intros [live st0 Hlive H|live1 st1 merged live2 p Hlive1 H Hlive2 Hreach Hjoin].
  - apply interleaved_keeps in Hlive as [_ Hkeep].
    exists (others (App.events live) (App.activeCountry st)).
    split; [|by apply others_grownFrom].
    by apply searchStart_Aborted in H as [(err & _ & ->)|(l & _ & _ & _ & ->)].
  - apply searchStart_Proceeding in H as (basicList & Hlist & _ & Hm & ->).
    pose proof (mergedEvents_freshOf _ _ _ _ _ Hlist Hm) as Hfresh.
    pose proof (store_freshOf _ _ _ Hreach Hfresh) as Hstore.
    apply interleaved_keeps in Hlive1 as [_ Hkeep1].
    apply interleaved_keeps in Hlive2 as [Hc Hkeep2]. cbn [App.activeCountry App.events] in *.
    apply (others_grownFrom _ _ (App.activeCountry st)) in Hkeep1, Hkeep2.
    destruct (Forall2_Permutation_l grownFrom
                (others (App.events live1) (App.activeCountry st)) _ _
                (symmetry (others_replaceCountry getTime (App.events live1)
                             (App.activeCountry st) merged
                             (freshOf_country _ _ Hfresh)))
                Hkeep2) as (kept & Hkept & Hperm).
    exists kept. split; [|by eapply Forall2_grownFrom_trans].
    cbn [searchFinish App.events]. rewrite Hc, Hperm.
    apply others_replaceCountry. by apply freshOf_country.
Qed.

End OtherCountriesKept.

Lemma other_countries_kept_witness :
  ∃ calls st' kept,
    handleSearchAmid isoDayNumber (freshApp Thailand [expoInMalaysia; priorExpo])
      (Answered (Items [rawExpo])) calls st' ∧
    others (App.events st') Thailand ≡ₚ kept ∧
    Forall2 grownFrom [expoInMalaysia] kept.
Proof.
  destruct (handleSearch_total isoDayNumber (freshApp Thailand [expoInMalaysia; priorExpo])
              (Answered (Items [rawExpo]))) as (calls & st' & Hrun).
  apply handleSearch_amid in Hrun.
  destruct (other_countries_kept isoDayNumber
              (freshApp Thailand [expoInMalaysia; priorExpo])
              (Answered (Items [rawExpo])) calls st' Hrun) as (kept & Hperm & Hkept).
  exists calls, st', kept. split; [exact Hrun|]. split; [exact Hperm|exact Hkept].
Defined.

(** ** More on deduplication and append *)

Section DedupMore.

Context {engine : Engine.t}.

Lemma filter_none {A} (f : A → bool) l :
  (∀ x, x ∈ l → f x = false) → List.filter f l = [].
Proof.
  induction l as [|x l IH]; intros H; simpl; [done|].
  rewrite (H x) by apply list_elem_of_here.
  apply IH. intros y Hy. by apply H, list_elem_of_further.
Qed.

Lemma Forall_filter_named f (l : list CompanyInfo.t) :
  Forall (λ c, is_Some (CompanyInfo.name c)) l →
  Forall (λ c, is_Some (CompanyInfo.name c)) (List.filter f l).
Proof.
  intros H. apply Forall_forall. intros c Hc%list_elem_of_In%filter_In.
  destruct Hc as [Hc _]. by apply (proj1 (Forall_forall _ _) H), list_elem_of_In.
Qed.

(** X21.  The append is idempotent: merging the same batch a second time
    adds nothing. *)
Theorem dedupAppend_idempotent e batch e1 :
  Forall (λ c, is_Some (CompanyInfo.name c)) (EventData.companies e) →
  Forall (λ c, is_Some (CompanyInfo.name c)) batch →
  dedupAppend e batch = Some e1 →
  dedupAppend e1 batch = Some e1.
Proof.
  intros He Hb. rewrite (dedupAppend_named e batch He Hb). intros [= <-].
  set (fresh := List.filter
                  (λ c, negb (bool_decide (lowerName c ∈ lowerName <$> EventData.companies e)))
                  batch).
  rewrite dedupAppend_named; simpl; [| |done].
  2:{ apply Forall_app. split; [done|]. by apply Forall_filter_named. }
  rewrite filter_none; [by rewrite app_nil_r; destruct e|].
  intros c Hc. apply negb_false_iff, bool_decide_eq_true_2.
  rewrite fmap_app, elem_of_app.
  destruct (decide (lowerName c ∈ lowerName <$> EventData.companies e)) as [|Hout];
    [by left|right].
  apply list_elem_of_fmap_2. unfold fresh. apply list_elem_of_In, filter_In.
  split; [by apply list_elem_of_In|]. by apply negb_true_iff, bool_decide_eq_false_2.
Qed.

Lemma NoDup_fmap_filter {A B} `{EqDecision B} (g : A → B) (f : A → bool) l :
  NoDup (g <$> l) → NoDup (g <$> List.filter f l).
Proof.
  induction l as [|x l IH]; simpl; [done|].
  intros [Hx Hl]%NoDup_cons. destruct (f x); simpl; [|by apply IH].
  apply NoDup_cons. split; [|by apply IH].
  intros (y & Hy & Hin)%list_elem_of_fmap. apply Hx.
  apply list_elem_of_fmap. exists y. split; [done|].
  apply list_elem_of_In, filter_In in Hin as [Hin _]. by apply list_elem_of_In.
Qed.

(** X22.  The append keeps names distinct: when no two of the event's
    companies share a lower-cased name and no two entries of the batch do,
    no two companies of the result do. *)
Theorem dedupAppend_distinct_names e batch e1 :
  Forall (λ c, is_Some (CompanyInfo.name c)) (EventData.companies e) →
  Forall (λ c, is_Some (CompanyInfo.name c)) batch →
  NoDup (lowerName <$> EventData.companies e) →
  NoDup (lowerName <$> batch) →
  dedupAppend e batch = Some e1 →
  NoDup (lowerName <$> EventData.companies e1).
Proof.
  intros He Hb Hnd Hndb. rewrite (dedupAppend_named e batch He Hb). intros [= <-].
  simpl. rewrite fmap_app. apply NoDup_app. split; [done|]. split.
  - intros n Hn (c & -> & Hc)%list_elem_of_fmap.
    apply list_elem_of_In, filter_In in Hc as [_ Hc].
    apply negb_true_iff, bool_decide_eq_false in Hc. done.
  - by apply NoDup_fmap_filter.
Qed.

(** X23.  A deep-search update keeps the catalog in place: the updated
    catalog has the same ids in the same order; an entry with another id is
    not touched; and an entry with the searched id keeps all its fields and
    all its companies in order, new ones being added behind them. *)
Theorem updatedEvents_frame prev id moreCompanies updated :
  updatedEvents prev id moreCompanies = Some updated →
  EventData.id <$> updated = EventData.id <$> prev ∧
  ∀ i e, prev !! i = Some e →
    ∃ e', updated !! i = Some e' ∧
          (EventData.id e ≠ id → e' = e) ∧
          EventData.with_companies e (EventData.companies e') = e' ∧
          EventData.companies e `prefix_of` EventData.companies e'.
Proof.
  unfold updatedEvents. intros Hmap%mapM_Some.
  induction Hmap as [|e e' prev updated He _ [IHid IH]]; [by split|].
  assert (EventData.id e' = EventData.id e ∧
          (EventData.id e ≠ id → e' = e) ∧
          EventData.with_companies e (EventData.companies e') = e' ∧
          EventData.companies e `prefix_of` EventData.companies e') as (H1 & H2 & H3 & H4).
  { case_bool_decide as Hid.
    - apply dedupAppend_grows in He as (? & ? & ?). by repeat split.
    - injection He as <-. split; [done|]. split; [done|]. split; [by destruct e|done]. }
  split; [by rewrite !fmap_cons, H1, IHid|].
  intros [|i] x Hx; simpl in *.
  - injection Hx as <-. by exists e'.
  - by apply IH.
Qed.

Lemma updatedEvents_empty_batch prev id :
  allNamed prev → updatedEvents prev id [] = Some prev.
Proof.
  unfold updatedEvents. induction 1 as [|e prev He _ IH]; [done|].
  cbn. rewrite IH. case_bool_decide; [|done].
  rewrite dedupAppend_named by done. cbn. rewrite app_nil_r. by destruct e.
Qed.

(** X24.  A deep search that brings nothing changes no entry: when the API
    key is missing the state is left as it is, and when the backend fails
    or answers with something that is not an array the catalog is left as
    it is and is written to local storage, provided the companies in the
    catalog carry names. *)
Theorem handleDeepSearchEvent_nothing_found st event backend :
  allNamed (App.events st) →
  backend = NoApiKey ∨ (∃ err, backend = Failed err) ∨ backend = Answered NotArray →
  ∃ st', handleDeepSearchEvent st event backend = Some st' ∧
         App.events st' = App.events st ∧
         (backend = NoApiKey → st' = st) ∧
         (backend ≠ NoApiKey → App.localStorage st' = Some (App.events st)).
Proof.
  intros Hnamed Hb. unfold handleDeepSearchEvent.
  destruct Hb as [->|[[err ->]| ->]]; simpl.
  - by exists st.
  - rewrite updatedEvents_empty_batch by done. by eexists.
  - rewrite updatedEvents_empty_batch by done. by eexists.
Qed.

End DedupMore.

Lemma dedupAppend_idempotent_witness :
  dedupAppend (sampleEvent [company "Acme"; company "Beta"]) [company "acme"; company "Beta"]
  = Some (sampleEvent [company "Acme"; company "Beta"]).
Proof.
  apply (dedupAppend_idempotent (sampleEvent [company "Acme"])
           [company "acme"; company "Beta"]
           (sampleEvent [company "Acme"; company "Beta"])).
  - repeat constructor; by eexists.
  - repeat constructor; by eexists.
  - reflexivity.
Defined.

Lemma dedupAppend_distinct_names_witness :
  NoDup (lowerName <$> [company "Acme"; company "Beta"]).
Proof.
  apply (dedupAppend_distinct_names (sampleEvent [company "Acme"])
           [company "acme"; company "Beta"]
           (sampleEvent [company "Acme"; company "Beta"])).
  - repeat constructor; by eexists.
  - repeat constructor; by eexists.
  - apply NoDup_singleton.
  - apply NoDup_cons. split; [|apply NoDup_singleton].
    intros H%list_elem_of_singleton. discriminate H.
  - reflexivity.
Defined.

Lemma updatedEvents_frame_witness :
  EventData.id <$> [sampleEvent [company "Acme"; company "Beta"]]
  = EventData.id <$> [sampleEvent [company "Acme"]].
Proof.
  apply (updatedEvents_frame [sampleEvent [company "Acme"]]
           expoId [company "acme"; company "Beta"]
           [sampleEvent [company "Acme"; company "Beta"]]).
  reflexivity.
Defined.

Lemma handleDeepSearchEvent_nothing_found_witness :
  ∃ st', handleDeepSearchEvent (freshApp Thailand [priorExpo]) priorExpo
           (Failed OtherValue) = Some st' ∧
         App.events st' = [priorExpo].
Proof.
  destruct (handleDeepSearchEvent_nothing_found (freshApp Thailand [priorExpo]) priorExpo
              (Failed OtherValue)) as (st' & H1 & H2 & _).
  - repeat constructor; by eexists.
  - right. left. by exists OtherValue.
  - exists st'. split; [exact H1|exact H2].
Defined.

(** ** Grouping by month *)

Section ByMonth.

Variable monthLabel : string → string.

Lemma underLabel_snoc k seen e :
  underLabel monthLabel k (seen ++ [e]) =
  underLabel monthLabel k seen ++
  (if String.eqb (monthLabel (EventData.dateStart e)) k then [e] else []).
Proof. unfold underLabel. by rewrite List.filter_app. Qed.

Lemma pushGroup_keys acc key e :
  (pushGroup acc key e).*1 = if bool_decide (key ∈ acc.*1) then acc.*1 else acc.*1 ++ [key].
Proof.
  induction acc as [|[k es] rest IH]; [done|]. cbn [pushGroup].
  destruct (String.eqb_spec k key) as [->|Hne]; rewrite !fmap_cons; cbn [fst].
  - by rewrite bool_decide_eq_true_2 by apply list_elem_of_here.
  - rewrite IH. case_bool_decide as Hin.
    + by rewrite bool_decide_eq_true_2 by by apply list_elem_of_further.
    + rewrite bool_decide_eq_false_2; [done|].
      intros [?|?]%elem_of_cons; [by subst|done].
Qed.

Lemma pushGroup_elem acc key e k es :
  NoDup (acc.*1) →
  (k, es) ∈ pushGroup acc key e →
  (k ≠ key ∧ (k, es) ∈ acc) ∨
  (k = key ∧ ((∃ old, (key, old) ∈ acc ∧ es = old ++ [e]) ∨
              ((key ∉ acc.*1) ∧ es = [e]))).
Proof.
  induction acc as [|[k0 es0] rest IH]; simpl.
  { intros _ [= -> ->]%list_elem_of_singleton. right. split; [done|]. right.
    split; [apply not_elem_of_nil|done]. }
  intros [Hk0 Hnd]%NoDup_cons.
  destruct (String.eqb_spec k0 key) as [->|Hne].
  - intros [[= -> ->]|Hin]%elem_of_cons.
    + right. split; [done|]. left. exists es0. split; [apply list_elem_of_here|done].
    + left. split; [|by apply list_elem_of_further].
      intros ->. apply Hk0. apply list_elem_of_fmap. by exists (key, es).
  - intros [[= -> ->]|Hin]%elem_of_cons.
    + left. split; [done|apply list_elem_of_here].
    + destruct (IH Hnd Hin) as [[? ?]|[-> [(old & Hold & ->)|[Hout ->]]]].
      * left. split; [done|by apply list_elem_of_further].
      * right. split; [done|]. left. exists old.
        split; [by apply list_elem_of_further|done].
      * right. split; [done|]. right. split; [|done].
        intros [?|?]%elem_of_cons; [by subst|done].
Qed.

Lemma pushGroup_grouped groups seen e :
  grouped monthLabel groups seen →
  grouped monthLabel (pushGroup groups (monthLabel (EventData.dateStart e)) e) (seen ++ [e]).
Proof.
  intros (Hnd & Hgroups & Hall). set (key := monthLabel (EventData.dateStart e)).
  split; [|split].
  - rewrite pushGroup_keys. case_bool_decide as Hin; [done|].
    apply NoDup_app. split; [done|]. split; [|apply NoDup_singleton].
    by intros k Hk ->%list_elem_of_singleton.
  - intros k es Hin. rewrite underLabel_snoc. fold key.
    destruct (pushGroup_elem _ _ _ _ _ Hnd Hin)
      as [[Hne Hold]|[-> [(old & Hold & ->)|[Hout ->]]]].
    + destruct (Hgroups k es Hold) as [? ->]. split; [done|].
      destruct (String.eqb_spec key k); [by subst|]. by rewrite app_nil_r.
    + destruct (Hgroups key old Hold) as [? <-]. rewrite String.eqb_refl.
      split; [|done]. by destruct old.
    + rewrite String.eqb_refl. split; [done|].
      assert (underLabel monthLabel key seen = []) as ->; [|done].
      unfold underLabel. apply filter_none. intros x Hx.
      destruct (String.eqb_spec (monthLabel (EventData.dateStart x)) key) as [Heq|];
        [|done].
      destruct Hout. rewrite <- Heq. by apply Hall.
  - intros x Hx. rewrite pushGroup_keys.
    assert (monthLabel (EventData.dateStart x) ∈ groups.*1 ∨
            monthLabel (EventData.dateStart x) = key) as Hcase.
    { apply elem_of_app in Hx as [Hx|Hx%list_elem_of_singleton];
        [left; by apply Hall|right; by subst]. }
    case_bool_decide as Hin.
    + destruct Hcase as [?| ->]; done.
    + apply elem_of_app. destruct Hcase as [?| ->]; [by left|right].
      apply list_elem_of_here.
Qed.

(** X25.  The calendar groups split the events by month label: the labels
    of the groups are pairwise different, the group under a label holds
    exactly the events with that label in the order of the catalog and is
    never empty, and every event has its group. *)
Theorem eventsByMonth_partition filtered :
  NoDup ((eventsByMonth monthLabel filtered).*1) ∧
  (∀ k es, (k, es) ∈ eventsByMonth monthLabel filtered →
           es ≠ [] ∧ es = underLabel monthLabel k filtered) ∧
  (∀ e, e ∈ filtered →
        monthLabel (EventData.dateStart e) ∈ (eventsByMonth monthLabel filtered).*1).
Proof.
  change (grouped monthLabel (eventsByMonth monthLabel filtered) filtered).
  unfold eventsByMonth. induction filtered as [|e l IH] using rev_ind.
  - split; [constructor|]. split; [by intros k es ?%elem_of_nil|by intros e ?%elem_of_nil].
  - rewrite foldl_app. simpl. by apply pushGroup_grouped.
Qed.

End ByMonth.
